(** * Verification of the SPHINCS+ parameter-set search (search.c, gamma.c)

    The development follows the two C files of the program:
    - [search.c]: the record [parameter_set], the comparator [my_compare],
      the list merge [my_merge], the bucket merge sort [my_sort], the
      enumeration loops of [do_search] and its selection loop;
    - [gamma.c]: [do_add], [compute_sec_level] and
      [compute_sigs_at_sec_level], taken over the real numbers; in the model
      of [do_search] the two routines it calls, [check_sec_level] and
      [compute_sigs_at_sec_level], are arbitrary functions.

    Conventions.  A C [unsigned] is a [Z] reduced modulo [2^32] where the
    code computes it; a C [int] is a [Z] (signed overflow is undefined and
    lies outside every range considered here); a singly linked list through
    the [link] field is a Rocq [list], the null pointer being [[]]. *)

From Stdlib Require Import ZArith List Bool Lia Permutation Sorted.
From Stdlib Require Import Reals Lra.
From Stdlib Require QArith Qreals.
From Stdlib Require Ascii String.
Import ListNotations.

Local Open Scope Z_scope.

(** ** Machine arithmetic *)

Module Machine.

(** Reduction of a value to a C [unsigned] (32 bits). *)
Definition u32 (z : Z) : Z := z mod 2 ^ 32.

(** Conversion to [unsigned char]. *)
Definition u8 (z : Z) : Z := z mod 2 ^ 8.

(** Conversion to [unsigned short]. *)
Definition u16 (z : Z) : Z := z mod 2 ^ 16.

End Machine.

(** ** The record of search.c *)

(** [struct parameter_set], without its [link] field: the list structure
    carries the links. *)
Record parameter_set : Type := mk_parameter_set {
  h : Z;         (* unsigned char: hypertree height *)
  d : Z;         (* unsigned char: number of Merkle trees *)
  a : Z;         (* unsigned char: height of each FORS tree *)
  k : Z;         (* unsigned char: number of FORS trees *)
  w : Z;         (* unsigned short: Winternitz parameter *)
  sig_size : Z;  (* unsigned: size of the signature *)
  sig_time : Z;  (* unsigned: hashes computed during signing *)
  ver_time : Z   (* unsigned: hashes computed during verification *)
}.

(** A linked list of parameter sets. *)
Definition queue := list parameter_set.

(** ** [my_compare], [my_merge], [my_sort] *)

(** [my_compare]: 1 when [x] is better, -1 when [y] is better, 0 on a tie. *)
Definition my_compare (x y : parameter_set) : Z :=
  if sig_size x <? sig_size y then 1
  else if sig_size x >? sig_size y then -1
  else if sig_time x <? sig_time y then 1
  else if sig_time x >? sig_time y then -1
  else if ver_time x <? ver_time y then 1
  else if ver_time x >? ver_time y then -1
  else 0.

(** [my_merge]: the loop takes the head of [a] when [my_compare a b >= 0],
    the head of [b] otherwise, and appends what is left of the other list. *)
Fixpoint my_merge (a : queue) : queue -> queue :=
  fix merge_b (b : queue) : queue :=
    match a, b with
    | [], _ => b
    | _, [] => a
    | x :: a', y :: b' =>
        if my_compare x y >=? 0 then x :: my_merge a' b
        else y :: merge_b b'
    end.

Definition NUM_BIN : nat := 20.

(** [bins[i] = q]. *)
Fixpoint set_bin (i : nat) (q : queue) (bins : list queue) : list queue :=
  match bins, i with
  | [], _ => []
  | _ :: rest, O => q :: rest
  | b :: rest, S i' => b :: set_bin i' q rest
  end.

(** The ripple loop [for (i=0; i<NUM_BIN; i++)] of [my_sort], started at
    index [i] with [n] iterations left.  When the iterations are used up
    ([i == NUM_BIN]) the list goes to the overflow bin. *)
Fixpoint ripple (n i : nat) (p : queue) (bins : list queue) : list queue :=
  match n with
  | O => set_bin (NUM_BIN - 1) p bins
  | S n' =>
      match nth i bins [] with
      | [] => set_bin i p bins
      | b => ripple n' (S i) (my_merge b p) (set_bin i [] bins)
      end
  end.

(** The outer [while (list)] loop: each element becomes a one-item list
    that is ripple-added to the bins. *)
Fixpoint fill_bins (lst : queue) (bins : list queue) : list queue :=
  match lst with
  | [] => bins
  | p :: rest => fill_bins rest (ripple NUM_BIN 0 [p] bins)
  end.

(** The last loop: [p = my_merge(bins[i], p)] for [i = 0 .. NUM_BIN-1]. *)
Definition combine_bins (bins : list queue) : queue :=
  fold_left (fun p b => my_merge b p) bins [].

Definition my_sort (lst : queue) : queue :=
  combine_bins (fill_bins lst (repeat [] NUM_BIN)).

(** The order of the sorted lists in the words of the specification:
    signature size ascending, then signing cost ascending, then
    verification cost ascending. *)
Definition best_first (x y : parameter_set) : Prop :=
  sig_size x < sig_size y \/
  (sig_size x = sig_size y /\
   (sig_time x < sig_time y \/
    (sig_time x = sig_time y /\ ver_time x <= ver_time y))).


(** ** Single-precision arithmetic on integer values

    [do_search] keeps the hypertree cost in a C [float].  Every value it
    stores there is an integer, and an integer is rounded by a [float]
    operation to the nearest integer with a 24-bit significand, ties going
    to the even significand.  Expressions of type [float] are taken to be
    evaluated in single precision, operation by operation, as they are on
    x86-64.  The magnitudes met here stay far below the largest finite
    [float]. *)

Module Float32.

(** Rounding of a non-negative integer to 24 significant bits. *)
Definition round_pos (z : Z) : Z :=
  if z <? 2 ^ 24 then z
  else
    let e := Z.log2 z - 23 in
    let q := z / 2 ^ e in
    let r := z mod 2 ^ e in
    let half := 2 ^ (e - 1) in
    if r <? half then q * 2 ^ e
    else if half <? r then (q + 1) * 2 ^ e
    else if Z.even q then q * 2 ^ e
    else (q + 1) * 2 ^ e.

(** Conversion of an integer to [float]. *)
Definition of_Z (z : Z) : Z := Z.sgn z * round_pos (Z.abs z).

Definition add (x y : Z) : Z := of_Z (x + y).
Definition sub (x y : Z) : Z := of_Z (x - y).
Definition mul (x y : Z) : Z := of_Z (x * y).

End Float32.

(** ** The enumeration loops of [do_search] *)

Definition MAX_K : Z := 100.

(** The integers [lo, lo+1, ..., lo+n-1]: the values a counting [for] loop
    gives its variable. *)
Definition Zrange (lo : Z) (n : nat) : list Z :=
  map (fun i => lo + Z.of_nat i) (seq 0 n).

(** The checksum-digit loop
    [for (checksum_d = 1, prod = w; prod < max_sum; checksum_d++, prod *= w)].
    It has no bound of its own: [None] stands for a run that has not left
    the loop after [fuel] iterations. *)
Fixpoint checksum_loop (fuel : nat) (w max_sum checksum_d prod : Z) : option Z :=
  match fuel with
  | O => None
  | S fuel' =>
      if prod <? max_sum
      then checksum_loop fuel' w max_sum (checksum_d + 1) (Machine.u32 (prod * w))
      else Some checksum_d
  end.

(** Number of digits used to express the hash. *)
Definition hash_digits (sec_level log_w : Z) : Z :=
  Machine.u32 (sec_level + log_w - 1) / log_w.

(** Number of Winternitz digits [wd]. *)
Definition winternitz_digits (fuel : nat) (sec_level w log_w : Z) : option Z :=
  let hash_d := hash_digits sec_level log_w in
  let max_sum := Machine.u32 ((w - 1) * hash_d) in
  match checksum_loop fuel w max_sum 1 w with
  | Some checksum_d => Some (Machine.u32 (hash_d + checksum_d))
  | None => None
  end.

(** [cost_ots = 1 + wd * w]. *)
Definition cost_of_ots (wd w : Z) : Z := Machine.u32 (1 + wd * w).

(** [node_tree = 1 << h_merkle]. *)
Definition node_tree_of (h_merkle : Z) : Z := Machine.u32 (Z.shiftl 1 h_merkle).

(** [cost_hypertree = d*((float)(cost_ots+1) * node_tree - 1)]. *)
Definition cost_hypertree_of (cost_ots node_tree d : Z) : Z :=
  Float32.mul (Float32.of_Z d)
    (Float32.sub
       (Float32.mul (Float32.of_Z (Machine.u32 (cost_ots + 1)))
                    (Float32.of_Z node_tree))
       (Float32.of_Z 1)).

(** [cost_fors_tree = 3 * (1 << a) - 1]. *)
Definition cost_fors_tree_of (a : Z) : Z := Machine.u32 (3 * Z.shiftl 1 a - 1).

(** The left-hand side of the budget test in the innermost loop:
    [cost_hypertree + k*cost_fors_tree]. *)
Definition combined_cost (cost_hypertree k cost_fors_tree : Z) : Z :=
  Float32.add cost_hypertree (Float32.of_Z (Machine.u32 (k * cost_fors_tree))).

(** The record filled in once a tuple is accepted (search.c, the
    assignments after [malloc]).  The allocation is taken to succeed.  The
    signing cost is a [float] expression assigned to an [unsigned]: its
    value is an integer, which the conversion leaves as it is. *)
Definition new_parameter_set
    (hash_size wd w h_merkle h d a k cost_hypertree cost_fors_tree : Z)
    : parameter_set :=
  {| h := Machine.u8 h;
     d := Machine.u8 d;
     a := Machine.u8 a;
     k := Machine.u8 k;
     w := Machine.u16 w;
     sig_size := Machine.u32 (hash_size * (1 + k * (a + 1) + d * (wd + h_merkle)));
     sig_time :=
       Float32.add (Float32.add (Float32.of_Z 3) cost_hypertree)
                   (Float32.of_Z (Machine.u32 (k * cost_fors_tree)));
     ver_time :=
       Machine.u32 (1 + k * (a + 1) + 1
                    + d * (Machine.u32 (wd * w) / 2 + 1 + h_merkle)) |}.

(** Which of the three lists a Winternitz parameter goes to:
    0 for [w16_q], 1 for [w256_q], 2 for [wother_q]. *)
Definition class_of_w (w : Z) : nat :=
  if w =? 16 then 0%nat
  else if (w =? 256) || (w =? 4) then 1%nat
  else 2%nat.

(** The three lists [w16_q], [w256_q], [wother_q]. *)
Record queues : Type := mk_queues {
  w16_q : queue;
  w256_q : queue;
  wother_q : queue
}.

Definition no_queues : queues := mk_queues [] [] [].

(** [p->link = *current_list; *current_list = p]. *)
Definition push (cls : nat) (p : parameter_set) (qs : queues) : queues :=
  match cls with
  | O => mk_queues (p :: w16_q qs) (w256_q qs) (wother_q qs)
  | S O => mk_queues (w16_q qs) (p :: w256_q qs) (wother_q qs)
  | _ => mk_queues (w16_q qs) (w256_q qs) (p :: wother_q qs)
  end.

(** The list [cls] selects. *)
Definition queue_of (cls : nat) (qs : queues) : queue :=
  match cls with
  | O => w16_q qs
  | S O => w256_q qs
  | _ => wother_q qs
  end.

(** The test [h < num_sig - 5] of the hypertree-depth loop.  [num_sig] is
    [unsigned], so the [int] height is converted and the comparison is made
    on 32-bit unsigned values. *)
Definition too_shallow (num_sig h : Z) : bool :=
  Machine.u32 h <? Machine.u32 (num_sig - 5).

Section Search.

(** [check_sec_level] of gamma.c computes in double precision; the
    enumeration uses nothing of it but the value it returns, so it is kept
    abstract here. *)
Variable check_sec_level : Z -> Z -> Z -> Z -> Z -> bool.

(** The arguments of [do_search] that the enumeration uses. *)
Variables (sec_level num_sig sign_op : Z).
Variables (d_restrict h_restrict a_restrict : Z).

(** [unsigned hash_size = (sec_level + 7)/8]. *)
Definition hash_size_of : Z := Machine.u32 (Z.quot (sec_level + 7) 8).

(** [for (k=1; k<MAX_K; k++)], over the values [ks] still to come. *)
Fixpoint k_loop (w wd h_merkle h d a cost_hypertree cost_fors_tree : Z)
    (ks : list Z) (qs : queues) : queues :=
  match ks with
  | [] => qs
  | k :: ks' =>
      if combined_cost cost_hypertree k cost_fors_tree >? Float32.of_Z sign_op
      then qs (* break *)
      else if negb (check_sec_level num_sig h a k sec_level)
      then k_loop w wd h_merkle h d a cost_hypertree cost_fors_tree ks' qs
      else
        k_loop w wd h_merkle h d a cost_hypertree cost_fors_tree ks'
          (push (class_of_w w)
             (new_parameter_set hash_size_of wd w h_merkle h d a k
                cost_hypertree cost_fors_tree) qs)
  end.

(** [for (a=1; a<30; a++)]. *)
Fixpoint a_loop (w wd h_merkle h d cost_hypertree : Z)
    (avals : list Z) (qs : queues) : queues :=
  match avals with
  | [] => qs
  | a :: avals' =>
      if negb (a_restrict =? 0) && negb (a =? Machine.u32 a_restrict)
      then a_loop w wd h_merkle h d cost_hypertree avals' qs
      else
        a_loop w wd h_merkle h d cost_hypertree avals'
          (k_loop w wd h_merkle h d a cost_hypertree (cost_fors_tree_of a)
             (Zrange 1 (Z.to_nat (MAX_K - 1))) qs)
  end.

(** [for (h = h_merkle, d = 1; h <= sec_level+30; h += h_merkle, d++)],
    over the values [ds] of [d] still to come, [h] being the current
    hypertree height. *)
Fixpoint d_loop (w wd cost_ots h_merkle h : Z) (ds : list Z) (qs : queues)
    : queues :=
  match ds with
  | [] => qs
  | d :: ds' =>
      if negb (h <=? sec_level + 30) then qs
      else if d >=? 30 then qs (* break *)
      else if negb (d_restrict =? 0) && negb (d =? d_restrict)
      then d_loop w wd cost_ots h_merkle (h + h_merkle) ds' qs
      else if too_shallow num_sig h
      then d_loop w wd cost_ots h_merkle (h + h_merkle) ds' qs
      else
        let cost_hypertree :=
          cost_hypertree_of cost_ots (node_tree_of h_merkle) d in
        if cost_hypertree >=? Float32.of_Z sign_op then qs (* break *)
        else
          d_loop w wd cost_ots h_merkle (h + h_merkle) ds'
            (a_loop w wd h_merkle h d cost_hypertree (Zrange 1 29) qs)
  end.

(** [for (h_merkle = 2; h_merkle <= sec_level+20 && h_merkle < 32; h_merkle++)]. *)
Fixpoint h_merkle_loop (w wd cost_ots : Z) (hs : list Z) (qs : queues)
    : queues :=
  match hs with
  | [] => qs
  | h_merkle :: hs' =>
      if negb ((h_merkle <=? sec_level + 20) && (h_merkle <? 32)) then qs
      else if negb (h_restrict =? 0) && negb (h_merkle =? h_restrict)
      then h_merkle_loop w wd cost_ots hs' qs
      else
        h_merkle_loop w wd cost_ots hs'
          (d_loop w wd cost_ots h_merkle h_merkle (Zrange 1 30) qs)
  end.

(** [for (w = 4, log_w = 2; w <= 256; w <<= 1, log_w++)], over the values
    [log_ws] of [log_w] still to come.  [None] when a checksum-digit loop
    has not ended within [fuel] iterations. *)
Fixpoint w_loop (fuel : nat) (log_ws : list Z) (qs : queues) : option queues :=
  match log_ws with
  | [] => Some qs
  | log_w :: log_ws' =>
      let w := Z.shiftl 1 log_w in
      match winternitz_digits fuel sec_level w log_w with
      | None => None
      | Some wd =>
          w_loop fuel log_ws'
            (h_merkle_loop w wd (cost_of_ots wd w) (Zrange 2 30) qs)
      end
  end.

(** The conditions under which the loops reach the point where a
    parameter set is recorded, in terms of the loop variables: no loop
    condition has failed, no [continue] and no [break] has been taken. *)
Definition enumerated (fuel : nat) (log_w wd h_merkle d a k : Z) : Prop :=
  let w := Z.shiftl 1 log_w in
  let h := h_merkle * d in
  let cost_hypertree :=
    cost_hypertree_of (cost_of_ots wd w) (node_tree_of h_merkle) d in
  (2 <= log_w <= 8 /\ winternitz_digits fuel sec_level w log_w = Some wd) /\
  (2 <= h_merkle <= 31 /\ h_merkle <= sec_level + 20 /\
   (h_restrict = 0 \/ h_merkle = h_restrict)) /\
  (1 <= d <= 29 /\ h <= sec_level + 30 /\
   (d_restrict = 0 \/ d = d_restrict) /\
   too_shallow num_sig h = false /\
   (cost_hypertree >=? Float32.of_Z sign_op) = false) /\
  (1 <= a <= 29 /\ (a_restrict = 0 \/ a = Machine.u32 a_restrict)) /\
  (1 <= k <= 99 /\
   (combined_cost cost_hypertree k (cost_fors_tree_of a)
      >? Float32.of_Z sign_op) = false /\
   check_sec_level num_sig h a k sec_level = true).

(** The record the loops store for the loop variables given. *)
Definition recorded (log_w wd h_merkle d a k : Z) : parameter_set :=
  let w := Z.shiftl 1 log_w in
  new_parameter_set hash_size_of wd w h_merkle (h_merkle * d) d a k
    (cost_hypertree_of (cost_of_ots wd w) (node_tree_of h_merkle) d)
    (cost_fors_tree_of a).

(** The whole enumeration: the three lists as they are when the loops
    end. *)
Definition enumerate (fuel : nat) : option queues :=
  w_loop fuel (Zrange 2 7) no_queues.

End Search.


(** ** The selection loop of [do_search] *)

(** The arrays [min_sec_level[3]] and [cutoff[3]], the three sorted lists
    and the list of the parameter sets to print. *)
Record selection : Type := mk_selection {
  sel_queues : queues;
  min_sec_level : list Z;
  cutoff : list bool;
  print_list : queue
}.

(** [w16_q = p->link] and the like: the list [winner] loses its head. *)
Definition pop (winner : nat) (qs : queues) : queues :=
  match winner with
  | O => mk_queues (tl (w16_q qs)) (w256_q qs) (wother_q qs)
  | S O => mk_queues (w16_q qs) (tl (w256_q qs)) (wother_q qs)
  | _ => mk_queues (w16_q qs) (w256_q qs) (tl (wother_q qs))
  end.

(** [q && q->sig_size < p->sig_size], [p] being a non-null pointer. *)
Definition head_smaller (q : queue) (p : option parameter_set) : bool :=
  match q, p with
  | y :: _, Some x => sig_size y <? sig_size x
  | _, _ => false
  end.

(** [!p]. *)
Definition is_null (p : option parameter_set) : bool :=
  match p with
  | None => true
  | Some _ => false
  end.

(** "Get the next best parameter set": the pointer [p] and the index
    [winner] after the two [if]s. *)
Definition next_best (qs : queues) : nat * option parameter_set :=
  let p := hd_error (w16_q qs) in
  let winner := 0%nat in
  let '(winner, p) :=
    if is_null p || head_smaller (w256_q qs) p
    then (1%nat, hd_error (w256_q qs)) else (winner, p) in
  let '(winner, p) :=
    if is_null p || head_smaller (wother_q qs) p
    then (2%nat, hd_error (wother_q qs)) else (winner, p) in
  (winner, p).

(** The loop [for (int j=winner; j<3; j++)] applied to an array: the
    entries from index [winner] on are replaced by their image under [f]. *)
Fixpoint update_from {A : Type} (winner : nat) (f : A -> A) (arr : list A)
    : list A :=
  match arr with
  | [] => []
  | x :: arr' =>
      match winner with
      | O => f x :: update_from O f arr'
      | S winner' => x :: update_from winner' f arr'
      end
  end.

(** [w16_q || w256_q || wother_q]. *)
Definition some_left (qs : queues) : bool :=
  match w16_q qs, w256_q qs, wother_q qs with
  | [], [], [] => false
  | _, _, _ => true
  end.

(** The number of parameter sets still on the three lists. *)
Definition remaining (qs : queues) : nat :=
  (length (w16_q qs) + length (w256_q qs) + length (wother_q qs))%nat.

Section Selection.

(** [compute_sigs_at_sec_level] of gamma.c, kept abstract in the same way. *)
Variable compute_sigs_at_sec_level : Z -> Z -> Z -> Z -> Z.
Variables (test_sec_level max_s : Z).

(** The overuse value of a parameter set, as the loop computes it. *)
Definition overuse_of (p : parameter_set) : Z :=
  compute_sigs_at_sec_level test_sec_level (h p) (a p) (k p).

(** What one iteration of the [while] loop does with the set [p] taken
    from list [winner]; the boolean tells whether the loop goes on
    ([false] after the final [break]). *)
Definition select_step (winner : nat) (p : parameter_set) (st : selection)
    : selection * bool :=
  let qs := pop winner (sel_queues st) in
  if nth winner (cutoff st) false then
    (mk_selection qs (min_sec_level st) (cutoff st) (print_list st), true)
  else
    let overuse := overuse_of p in
    if overuse <=? nth winner (min_sec_level st) 0 then
      (mk_selection qs (min_sec_level st) (cutoff st) (print_list st), true)
    else
      let do_cutoff := negb (max_s =? 0) && (Z.quot overuse 100 >=? max_s) in
      let msl := update_from winner
                   (fun m => if overuse >? m then overuse else m)
                   (min_sec_level st) in
      let cut := update_from winner (fun c => c || do_cutoff) (cutoff st) in
      (mk_selection qs msl cut (print_list st ++ [p]), negb (nth 0 cut false)).

(** The [while] loop.  Every iteration takes one parameter set off the
    lists, so [remaining] iterations are all the loop can make. *)
Fixpoint select_loop (n : nat) (st : selection) : selection :=
  match n with
  | O => st
  | S n' =>
      if some_left (sel_queues st) then
        match next_best (sel_queues st) with
        | (winner, Some p) =>
            let '(st', go_on) := select_step winner p st in
            if go_on then select_loop n' st' else st'
        | (_, None) => st
        end
      else st
  end.

(** The selection on three sorted lists: the frontier that is printed. *)
Definition select (qs : queues) : queue :=
  print_list
    (select_loop (remaining qs)
       (mk_selection qs [0; 0; 0] [false; false; false] [])).

End Selection.

(** The lists sorted "into the order of decreasing goodness". *)
Definition sort_queues (qs : queues) : queues :=
  mk_queues (my_sort (w16_q qs)) (my_sort (w256_q qs)) (my_sort (wother_q qs)).

(** [do_search], up to the list of the parameter sets it prints.  [None]
    when a checksum-digit loop of the enumeration does not end within
    [fuel] iterations.  The two routines of gamma.c that the search calls
    are arguments of the model: a statement about [do_search] holds
    whatever they return, and is about the runs in which each of their
    calls returns.  The output that follows the selection (the lines of
    the table and, with a label, the overuse curves) is not part of this
    function; its columns and the curve are [percent_of], [m_of] and
    [csv_rows] below. *)
Definition do_search
    (check_sec_level : Z -> Z -> Z -> Z -> Z -> bool)
    (compute_sigs_at_sec_level : Z -> Z -> Z -> Z -> Z)
    (fuel : nat)
    (sec_level num_sig test_sec_level sign_op max_s : Z)
    (d_restrict h_restrict a_restrict : Z) : option queue :=
  match enumerate check_sec_level sec_level num_sig sign_op
          d_restrict h_restrict a_restrict fuel with
  | None => None
  | Some qs =>
      Some (select compute_sigs_at_sec_level test_sec_level max_s
              (sort_queues qs))
  end.


(** ** gamma.c on the reals

    gamma.c computes in [double].  Here its functions are taken over the
    real numbers: [pow], [log], [log2] and [exp] are the exact functions,
    and no operation rounds, underflows, overflows or gives a NaN.  A
    [double] computation differs from this model by the rounding of each
    operation (a relative error of about [2^-53]) and, outside the range
    of the exponent, by an underflow to 0 or an overflow to infinity,
    after which [log2] gives an infinity and the sums a NaN.  The
    statements proved on this model are therefore ones that hold with a
    margin far above the rounding; and where a statement says that a
    value is returned, or how large it is, its hypotheses keep the
    arguments to the ranges the program uses ([T] from 1 to 30, [K] from 1
    to 100, [H] at most 1000), where nothing underflows or overflows. *)

Module Gamma.

Local Open Scope R_scope.

(** [log2]. *)
Definition log2 (x : R) : R := ln x / ln 2.

(** [do_add]: from [log2(a)] and [log2(b)] to [log2(a+b)]. *)
Definition do_add (x y : R) : R :=
  let '(big, little) := if Rgt_dec x y then (x, y) else (y, x) in
  if Rgt_dec big (little + 64) then big
  else
    let temp := 1 + Rpower (1 / 2) (big - little) in
    big + log2 temp.

(** The expected number of signatures per hypertree leaf. *)
Definition lambda_of (m : R) (H : Z) : R :=
  if Rgt_dec m (IZR H) then Rpower 2 (m - IZR H)
  else Rpower (1 / 2) (IZR H - m).

(** The variables the summation loop updates. *)
Record series : Type := mk_series {
  log_a : R;
  prob_not_get_g_hit : R;
  log_sum : R
}.

(** The values before the first iteration. *)
Definition series_start : series := mk_series 0 1 0.

(** The body of the summation loop up to its exit test, for the counter
    value [g]. *)
Definition next_terms (log_lambda prob_not_get_single_hit : R) (K g : Z)
    (st : series) : series :=
  let log_a := log_a st + log_lambda - log2 (IZR g) in
  let prob_not_get_g_hit :=
    prob_not_get_g_hit st * prob_not_get_single_hit in
  let log_b :=
    if Rlt_dec prob_not_get_g_hit (1 / 100000)
    then - IZR K * (prob_not_get_g_hit / ln 2
                    + prob_not_get_g_hit * prob_not_get_g_hit / (2 * ln 2))
    else IZR K * log2 (1 - prob_not_get_g_hit) in
  let log_sum :=
    if (g =? 1)%Z then log_a + log_b
    else do_add (log_sum st) (log_a + log_b) in
  mk_series log_a prob_not_get_g_hit log_sum.

(** The state after [n] iterations of the summation loop, when none of
    them leaves the loop. *)
Fixpoint series_at (log_lambda prob_not_get_single_hit : R) (K : Z) (n : nat)
    : series :=
  match n with
  | O => series_start
  | S n' =>
      next_terms log_lambda prob_not_get_single_hit K (Z.of_nat n)
        (series_at log_lambda prob_not_get_single_hit K n')
  end.

(** The exit test [g >= 10 && log_sum > 20 + log_a]. *)
Definition small_enough (g : Z) (st : series) : bool :=
  (10 <=? g)%Z && if Rgt_dec (log_sum st) (20 + log_a st) then true else false.

(** The loop [for (unsigned g = 1;; g++)].  [None] stands for a run that
    gives no result: one that is still in the loop after [fuel]
    iterations, or one whose 32-bit counter has wrapped around to 0.  In
    the latter case the C code goes on with [log2(0)], minus infinity,
    which makes [log_a] and then [log_sum] infinite and the exit test
    false from there on; the reals have no such values, and no result
    comes out of the loop either way. *)
Fixpoint series_loop (fuel : nat) (log_lambda prob_not_get_single_hit : R)
    (K g : Z) (st : series) : option series :=
  match fuel with
  | O => None
  | S fuel' =>
      let st' := next_terms log_lambda prob_not_get_single_hit K g st in
      if small_enough g st' then Some st'
      else
        let g' := Machine.u32 (g + 1) in
        if (g' =? 0)%Z then None
        else series_loop fuel' log_lambda prob_not_get_single_hit K g' st'
  end.

(** [compute_sec_level], on the reals. *)
Definition compute_sec_level (fuel : nat) (m : R) (H T K : Z) : option R :=
  let lambda := lambda_of m H in
  let log_lambda := log2 lambda in
  let prob_not_get_single_hit := 1 - Rpower (1 / 2) (IZR T) in
  match series_loop fuel log_lambda prob_not_get_single_hit K 1 series_start with
  | Some st => Some (lambda * log2 (exp 1) - log_sum st)
  | None => None
  end.

(** The first loop of [compute_sigs_at_sec_level]:
    [for (lower = 0;; lower++)], with [n] iterations left. *)
Fixpoint scan_lower (fuel n : nat) (sec_level : R) (H T K lower : Z)
    : option Z :=
  match n with
  | O => None
  | S n' =>
      match compute_sec_level fuel (IZR (lower + 1)) H T K with
      | None => None
      | Some r =>
          if Rlt_dec r sec_level then Some lower
          else scan_lower fuel n' sec_level H T K (lower + 1)
      end
  end.

(** The point probed for a value of [fract]. *)
Definition probe (lower fract : Z) : R :=
  IZR lower + IZR fract * (1 / 100) + 5 / 1000.

(** The second loop: [for (fract = 0; fract < 100; fract++)], over the
    values of [fract] still to come. *)
Fixpoint scan_fract (fuel : nat) (sec_level : R) (H T K lower : Z)
    (fracts : list Z) : option Z :=
  match fracts with
  | [] => Some 100%Z
  | fract :: fracts' =>
      match compute_sec_level fuel (probe lower fract) H T K with
      | None => None
      | Some r =>
          if Rlt_dec r sec_level then Some fract
          else scan_fract fuel sec_level H T K lower fracts'
      end
  end.

(** [compute_sigs_at_sec_level], on the reals: [None] when one of the
    loops gives no result within [fuel] iterations. *)
Definition compute_sigs_at_sec_level (fuel : nat) (sec_level : R) (H T K : Z)
    : option Z :=
  match scan_lower fuel fuel sec_level H T K 0 with
  | None => None
  | Some lower =>
      match scan_fract fuel sec_level H T K lower (Zrange 0 100) with
      | None => None
      | Some fract => Some (100 * lower + fract)%Z
      end
  end.

(** The early acceptance of [check_sec_level], tried once [g] exceeds
    [2*lambda]: [p = lambda / (g+1)], [log_max_sum = log2(p) - log2(1-p)],
    and the test [do_add(log_sum, log_max_sum) <= log_target]. *)
Definition tail_bound_met (lambda log_target : R) (g : Z) (st : series)
    : bool :=
  if Rgt_dec (IZR g) (2 * lambda) then
    let p := lambda / IZR (Machine.u32 (g + 1)) in
    let log_max_sum := log2 p - log2 (1 - p) in
    if Rle_dec (do_add (log_sum st) log_max_sum) log_target then true
    else false
  else false.

(** The loop of [check_sec_level], with the three exits in the order of
    the code; [None] as for [series_loop]. *)
Fixpoint check_loop (fuel : nat)
    (lambda log_lambda log_target prob_not_get_single_hit : R)
    (K g : Z) (st : series) : option bool :=
  match fuel with
  | O => None
  | S fuel' =>
      let st' := next_terms log_lambda prob_not_get_single_hit K g st in
      if Rgt_dec (log_sum st') log_target then Some false
      else if tail_bound_met lambda log_target g st' then Some true
      else if small_enough g st' then Some true
      else
        let g' := Machine.u32 (g + 1) in
        if (g' =? 0)%Z then None
        else check_loop fuel' lambda log_lambda log_target
               prob_not_get_single_hit K g' st'
  end.

(** [check_sec_level], on the reals. *)
Definition check_sec_level (fuel : nat) (m : R) (H T K : Z) (sec_level : R)
    : option bool :=
  let lambda := lambda_of m H in
  let log_lambda := log2 lambda in
  let log_target := log2 (exp lambda) - sec_level in
  let prob_not_get_single_hit := 1 - Rpower (1 / 2) (IZR T) in
  check_loop fuel lambda log_lambda log_target prob_not_get_single_hit K 1
    series_start.

End Gamma.

(** ** gamma.c: the terms of the series as rationals

    For a rational [lambda] and a rational miss probability, the terms
    [a], the probability [prob_not_get_g_hit] and the running sum are
    rationals; the loop holds the logarithms of [term_a] and [total].
    [add] is [do_add] without the logarithms, [run] stops with [None]
    when a step would take the Taylor branch of [log_b] or when its
    [test] fails. *)
Module Exact.
Import QArith.
Local Open Scope Q_scope.

Record terms : Type := mk_terms { term_a : Q; miss : Q; total : Q }.

Definition terms_start : terms := mk_terms 1 1 0.

Fixpoint qpow (x : Q) (n : nat) : Q :=
  match n with
  | O => 1
  | S n' => Qred (x * qpow x n')
  end.

Definition two64 : Q := inject_Z (2 ^ 64).

Definition gtb (x y : Q) : bool := negb (Qle_bool x y).

Definition add (u v : Q) : Q :=
  if gtb u v
  then (if gtb u (v * two64) then u else Qred (u + v))
  else (if gtb v (u * two64) then v else Qred (v + u)).

Definition terms_next (lambda q : Q) (K : nat) (g : Z) (s : terms) : terms :=
  let a' := Qred (term_a s * lambda / inject_Z g) in
  let miss' := Qred (miss s * q) in
  let t := Qred (a' * qpow (1 - miss') K) in
  let total' := if (g =? 1)%Z then t else add (total s) t in
  mk_terms a' miss' total'.

Definition direct (s : terms) : bool :=
  Qle_bool (1 # 100000) (miss s) && gtb 1 (miss s).

Definition small_enough (g : Z) (s : terms) : bool :=
  (10 <=? g)%Z && gtb (total s) (inject_Z (2 ^ 20) * term_a s).

Fixpoint run (test : Z -> terms -> bool) (lambda q : Q) (K n : nat)
    : option terms :=
  match n with
  | O => Some terms_start
  | S n' =>
      match run test lambda q K n' with
      | None => None
      | Some s =>
          let s' := terms_next lambda q K (Z.of_nat n) s in
          if direct s' && test (Z.of_nat n) s' then Some s' else None
      end
  end.

(** The exit test of [compute_sec_level] that is expected after each of
    the 29 iterations for [lambda = 8]. *)
Definition estimate_test (g : Z) (s : terms) : bool :=
  Bool.eqb (small_enough g s) (29 <=? g)%Z.

Definition estimate_run : option terms :=
  Eval vm_compute in run estimate_test 8 (7 # 8) 16 29.

Definition estimate_total : Q :=
  match estimate_run with
  | Some s => total s
  | None => 0
  end.

(** A factor above [2 ^ (2 / 100)]. *)
Definition slack : Q := 203 # 200.

Definition check_test (g : Z) (s : terms) : bool :=
  Qle_bool (total s * slack) estimate_total &&
  (if (g <? 17)%Z then negb (small_enough g s)
   else Qle_bool (add (total s) (4 # 5) * slack) estimate_total).

End Exact.

(** ** Predicates used in the statements *)

(** Signature size not decreasing from [x] to [y]. *)
Definition le_size (x y : parameter_set) : Prop := sig_size x <= sig_size y.

(** Every parameter set still on one of the three lists. *)
Definition all_queued (qs : queues) : queue :=
  w16_q qs ++ w256_q qs ++ wother_q qs.

(** The three lists are each in order of non-decreasing signature size. *)
Definition sorted_by_size (qs : queues) : Prop :=
  StronglySorted le_size (w16_q qs) /\
  StronglySorted le_size (w256_q qs) /\
  StronglySorted le_size (wother_q qs).

(** Every parameter set sits on the list of its Winternitz class. *)
Definition well_classed (qs : queues) : Prop :=
  forall c, (c < 3)%nat ->
    Forall (fun p => class_of_w (w p) = c) (queue_of c qs).

(** The invariant of the selection loop behind the order of the frontier:
    the lists stay sorted, the print list is sorted, and nothing still
    queued is smaller than a set already printed. *)
Definition size_invariant (st : selection) : Prop :=
  sorted_by_size (sel_queues st) /\
  StronglySorted le_size (print_list st) /\
  Forall (fun x => Forall (le_size x) (all_queued (sel_queues st)))
         (print_list st).

(** [e1] is at least as good as [e2]: of an equal or easier class, with a
    signature at most as large and an overuse value at least as large
    ([ov] gives the overuse value). *)
Definition at_least_as_good (ov : parameter_set -> Z) (e1 e2 : parameter_set)
    : Prop :=
  (class_of_w (w e1) <= class_of_w (w e2))%nat /\
  sig_size e1 <= sig_size e2 /\
  ov e2 <= ov e1.

(** The invariant of the selection loop behind the dominance filter: the
    threshold of a class bounds the overuse value of every printed set of
    that class or of an easier one, and a printed set beats the overuse
    value of every set of an equal or easier class printed before it. *)
Definition threshold_invariant (ov : parameter_set -> Z) (st : selection)
    : Prop :=
  length (min_sec_level st) = 3%nat /\
  well_classed (sel_queues st) /\
  (forall e j, In e (print_list st) ->
     (class_of_w (w e) <= j)%nat -> (j < 3)%nat ->
     ov e <= nth j (min_sec_level st) 0) /\
  ForallOrdPairs
    (fun e1 e2 => (class_of_w (w e1) <= class_of_w (w e2))%nat -> ov e1 < ov e2)
    (print_list st).

(** The state of the summation loop holds the logarithms of the rational
    terms. *)
Definition agree_a (s : Exact.terms) (st : Gamma.series) : Prop :=
  (0 < Q2R (Exact.term_a s))%R /\
  Gamma.log_a st = Gamma.log2 (Q2R (Exact.term_a s)) /\
  Gamma.prob_not_get_g_hit st = Q2R (Exact.miss s).

Definition agree_sum (s : Exact.terms) (st : Gamma.series) : Prop :=
  (0 < Q2R (Exact.total s))%R /\
  Gamma.log_sum st = Gamma.log2 (Q2R (Exact.total s)).

(** ** search.c: [divru], [ilog2], [commify] *)

(** [divru]: [(a+b-1)/b] on [unsigned] values.  Its callers pass 8 for
    [b]. *)
Definition divru (a b : Z) : Z := Machine.u32 (a + b - 1) / b.

(** The loop [for (i=0; n>1; i++, n >>= 1)] of [ilog2]; [None] stands for
    a run still in the loop after [fuel] iterations. *)
Fixpoint ilog2_loop (fuel : nat) (i n : Z) : option Z :=
  match fuel with
  | O => None
  | S fuel' =>
      if n >? 1 then ilog2_loop fuel' (i + 1) (Z.shiftr n 1) else Some i
  end.

Definition ilog2 (fuel : nat) (n : Z) : option Z := ilog2_loop fuel 0 n.

(** C strings.  A [string] stands for the characters before the
    terminating NUL; [peek] is the character a pointer to the string
    points at. *)
Module Cstring.

Import Ascii String.

Definition code (c : ascii) : Z := Z.of_nat (nat_of_ascii c).

(** The character with a given code (in 0..255). *)
Definition char_of (z : Z) : ascii := ascii_of_nat (Z.to_nat z).

Definition peek (s : string) : ascii :=
  match s with
  | EmptyString => zero
  | String c _ => c
  end.

Definition is_nul (c : ascii) : bool := code c =? 0.

(** [isdigit] in the C locale. *)
Definition isdigit (c : ascii) : bool := (48 <=? code c) && (code c <=? 57).

Definition comma : ascii := ","%char.

(** The characters before the first NUL: the text a C function sees. *)
Fixpoint text (s : string) : string :=
  match s with
  | EmptyString => EmptyString
  | String c s' => if is_nul c then EmptyString else String c (text s')
  end.

Fixpoint all_digits (s : string) : bool :=
  match s with
  | EmptyString => true
  | String c s' => isdigit c && all_digits s'
  end.

(** The number that the decimal digits [s] denote when they follow
    digits of value [acc]. *)
Fixpoint decimal_from (acc : Z) (s : string) : Z :=
  match s with
  | EmptyString => acc
  | String c s' => decimal_from (10 * acc + (code c - 48)) s'
  end.

Definition decimal_value (s : string) : Z := decimal_from 0 s.

(** A text without its commas. *)
Fixpoint strip_commas (s : string) : string :=
  match s with
  | EmptyString => EmptyString
  | String c s' =>
      if Ascii.eqb c comma then strip_commas s' else String c (strip_commas s')
  end.

(** A sequence of groups, each a comma and three digits. *)
Fixpoint comma_groups (s : string) : bool :=
  match s with
  | EmptyString => true
  | String c0 (String c1 (String c2 (String c3 rest))) =>
      Ascii.eqb c0 comma && isdigit c1 && isdigit c2 && isdigit c3
      && comma_groups rest
  | _ => false
  end.

(** [(n%10) + '0']. *)
Definition digit_char (n : Z) : ascii := char_of (n mod 10 + 48).

End Cstring.

(** The first loop of [commify], [while (n >= 1000)]: three digits and a
    comma are stored in front of what [buffer] holds from index [z] on.
    The result is the value of [n] and the text after the loop. *)
Fixpoint commify_groups (fuel : nat) (n : Z) (buffer : String.string)
    : option (Z * String.string) :=
  match fuel with
  | O => None
  | S fuel' =>
      if n >=? 1000 then
        let c0 := Cstring.digit_char n in
        let n := n / 10 in
        let c1 := Cstring.digit_char n in
        let n := n / 10 in
        let c2 := Cstring.digit_char n in
        let n := n / 10 in
        commify_groups fuel' n
          (String.String Cstring.comma
             (String.String c2 (String.String c1 (String.String c0 buffer))))
      else Some (n, buffer)
  end.

(** The second loop, [while (n)]. *)
Fixpoint commify_digits (fuel : nat) (n : Z) (buffer : String.string)
    : option String.string :=
  match fuel with
  | O => None
  | S fuel' =>
      if n =? 0 then Some buffer
      else commify_digits fuel' (n / 10)
             (String.String (Cstring.digit_char n) buffer)
  end.

(** [commify]: the text from [&buffer[z]] on.  The buffer has 100
    characters; the text is taken to fit (it has at most 13 characters,
    see [commify_length]). *)
Definition commify (fuel : nat) (n : Z) : option String.string :=
  match commify_groups fuel n String.EmptyString with
  | None => None
  | Some (n', buffer) => commify_digits fuel n' buffer
  end.

(** ** main.c *)

Module Main.

Import Ascii String Cstring.

(** Conversion of an [unsigned long] to [int]: the low 32 bits, as a
    signed value. *)
Definition to_int (t : Z) : Z := (t + 2 ^ 31) mod 2 ^ 32 - 2 ^ 31.

Definition u64 (z : Z) : Z := z mod 2 ^ 64.

(** The loop [while ( *param_name )] of [get_int_param]: [Some] of what is
    left of [arg] after the prefix, [None] for the early [return 0]. *)
Fixpoint skip_prefix (arg param_name : string) : option string :=
  match param_name with
  | EmptyString => Some arg
  | String c param_name' =>
      if is_nul c then Some arg
      else if negb (Ascii.eqb (peek arg) c) then None
      else skip_prefix (match arg with
                        | EmptyString => EmptyString
                        | String _ arg' => arg'
                        end) param_name'
  end.

(** [while (isdigit( *arg ))] with the body
    [val = 10*val + *arg++ - '0']. *)
Fixpoint digits_loop (arg : string) (val : Z) : Z * string :=
  match arg with
  | EmptyString => (val, arg)
  | String c arg' =>
      if isdigit c then digits_loop arg' (u64 (10 * val + code c - 48))
      else (val, arg)
  end.

(** [get_int_param].  The [do ... while] loop runs its body once for the
    digit the test before it has found, and then as [digits_loop]. *)
Definition get_int_param (arg param_name : string) : Z :=
  match skip_prefix arg param_name with
  | None => 0
  | Some rest =>
      match rest with
      | EmptyString => 0
      | String c rest' =>
          if negb (isdigit c) then 0
          else
            let '(val, rest'') :=
              digits_loop rest' (u64 (10 * 0 + code c - 48)) in
            if negb (is_nul (peek rest'')) then 0 else val
      end
  end.

(** The variables of [main] that the arguments set. *)
Record settings : Type := mk_settings {
  sec_level : Z;
  num_sig : Z;
  sign_op : Z;
  test_s : Z;
  max_s : Z;
  d : Z;
  h : Z;
  a : Z;
  label : option string
}.

Definition no_settings : settings := mk_settings 0 0 0 0 0 0 0 0 None.

(** [0 == strncmp( arg, "label=", 6 )]: [Some] of [&arg[6]]. *)
Fixpoint after_prefix (arg prefix : string) : option string :=
  match prefix with
  | EmptyString => Some arg
  | String c prefix' =>
      match arg with
      | EmptyString => None
      | String c' arg' =>
          if is_nul c' then None
          else if Ascii.eqb c' c then after_prefix arg' prefix' else None
      end
  end.

(** The chain of tests on one argument; [None] for the last [else]. *)
Definition parse_arg (arg : string) (s : settings) : option settings :=
  let set_label l :=
    mk_settings (sec_level s) (num_sig s) (sign_op s) (test_s s) (max_s s)
      (d s) (h s) (a s) (Some l) in
  if negb (get_int_param arg "s=" =? 0) then
    Some (mk_settings (to_int (get_int_param arg "s=")) (num_sig s) (sign_op s)
            (test_s s) (max_s s) (d s) (h s) (a s) (label s))
  else if negb (get_int_param arg "n=" =? 0) then
    Some (mk_settings (sec_level s) (to_int (get_int_param arg "n=")) (sign_op s)
            (test_s s) (max_s s) (d s) (h s) (a s) (label s))
  else if negb (get_int_param arg "sign=" =? 0) then
    Some (mk_settings (sec_level s) (num_sig s)
            (to_int (get_int_param arg "sign="))
            (test_s s) (max_s s) (d s) (h s) (a s) (label s))
  else if negb (get_int_param arg "tests=" =? 0) then
    Some (mk_settings (sec_level s) (num_sig s) (sign_op s)
            (to_int (get_int_param arg "tests=")) (max_s s) (d s) (h s) (a s)
            (label s))
  else if negb (get_int_param arg "maxs=" =? 0) then
    Some (mk_settings (sec_level s) (num_sig s) (sign_op s) (test_s s)
            (to_int (get_int_param arg "maxs=")) (d s) (h s) (a s) (label s))
  else
    match after_prefix arg "label=" with
    | Some l => Some (set_label l)
    | None =>
        if negb (get_int_param arg "d=" =? 0) then
          Some (mk_settings (sec_level s) (num_sig s) (sign_op s) (test_s s)
                  (max_s s) (to_int (get_int_param arg "d=")) (h s) (a s)
                  (label s))
        else if negb (get_int_param arg "h=" =? 0) then
          Some (mk_settings (sec_level s) (num_sig s) (sign_op s) (test_s s)
                  (max_s s) (d s) (to_int (get_int_param arg "h=")) (a s)
                  (label s))
        else if negb (get_int_param arg "a=" =? 0) then
          Some (mk_settings (sec_level s) (num_sig s) (sign_op s) (test_s s)
                  (max_s s) (d s) (h s) (to_int (get_int_param arg "a="))
                  (label s))
        else None
    end.

(** An argument that one of the tests of the chain accepts. *)
Definition recognised (arg : string) : bool :=
  existsb (fun name => negb (get_int_param arg name =? 0))
    ["s="; "n="; "sign="; "tests="; "maxs="; "d="; "h="; "a="]%string
  || match after_prefix arg "label=" with
     | Some _ => true
     | None => false
     end.

(** The values of an [int]. *)
Definition is_int (z : Z) : Prop := - 2 ^ 31 <= z < 2 ^ 31.

(** The loop [for (i=1; i<argc; i++)] over the arguments after the
    program name. *)
Fixpoint parse_args (args : list string) (s : settings) : option settings :=
  match args with
  | [] => Some s
  | arg :: args' =>
      match parse_arg arg s with
      | None => None
      | Some s' => parse_args args' s'
      end
  end.

(** What [main] does in the end: it prints the usage text, after a
    message or without one, or it calls [do_search] with the arguments
    listed, in the order and with the types of the parameters of
    [do_search] ([num_sig], [test_sec_level] and [sign_op] are
    [unsigned]). *)
Inductive outcome : Type :=
| Usage (message : option string)
| Search (sec_level num_sig test_sec_level sign_op max_s : Z)
         (label : option string) (d_restrict h_restrict a_restrict : Z).

(** The default of the secondary security level.  The subtraction is an
    [int] one; it does not overflow for [sec_level > -2^31 + 31]. *)
Definition default_test_s (sec_level : Z) : Z :=
  let test_s := sec_level - 32 in
  if test_s <? 0 then Z.quot sec_level 2 else test_s.

Definition main (args : list string) : outcome :=
  match parse_args args no_settings with
  | None => Usage None
  | Some s =>
      if sec_level s =? 0 then Usage (Some "security level not specified"%string)
      else if num_sig s =? 0 then
        Usage (Some "number of signatures not specified"%string)
      else if sign_op s =? 0 then
        Usage (Some "max number of hashes per sign operation not specified"%string)
      else
        let test_s :=
          if test_s s =? 0 then default_test_s (sec_level s) else test_s s in
        Search (sec_level s) (Machine.u32 (num_sig s)) (Machine.u32 test_s)
          (Machine.u32 (sign_op s)) (max_s s) (label s) (d s) (h s) (a s)
  end.

End Main.

(** ** Further predicates on the frontier *)

(** [e] has an overuse value that sets [do_cutoff]:
    [max_s && (overuse/100 >= max_s)]. *)
Definition reaches_limit (ov : parameter_set -> Z) (max_s : Z)
    (e : parameter_set) : Prop :=
  max_s <> 0 /\ max_s <= Z.quot (ov e) 100.

(** The sets of [frontier] account for leaving [x] out: [x] has no
    positive overuse value, or a set of the frontier of an equal or easier
    class and with a signature at most as large has an overuse value at
    least as large or has reached the limit [max_s]. *)
Definition accounts_for (ov : parameter_set -> Z) (max_s : Z)
    (frontier : queue) (x : parameter_set) : Prop :=
  ov x <= 0 \/
  exists e, In e frontier /\
    (class_of_w (w e) <= class_of_w (w x))%nat /\
    sig_size e <= sig_size x /\
    (ov x <= ov e \/ reaches_limit ov max_s e).

(** Nothing is listed that was not on the lists, and nothing more often
    than it was there. *)
Definition from_queues (qs0 : queues) (st : selection) : Prop :=
  exists dropped,
    Permutation (print_list st ++ dropped ++ all_queued (sel_queues st))
                (all_queued qs0).

(** The invariant of the selection loop behind the cut-off: a listed set
    that has reached the limit has cut off its class and the harder
    ones, and no set was listed after such a set of an equal or easier
    class. *)
Definition cutoff_invariant (ov : parameter_set -> Z) (max_s : Z)
    (st : selection) : Prop :=
  length (cutoff st) = 3%nat /\
  well_classed (sel_queues st) /\
  (forall e j, In e (print_list st) -> reaches_limit ov max_s e ->
     (class_of_w (w e) <= j)%nat -> (j < 3)%nat ->
     nth j (cutoff st) false = true) /\
  ForallOrdPairs
    (fun e1 e2 => (class_of_w (w e1) <= class_of_w (w e2))%nat ->
                  ~ reaches_limit ov max_s e1)
    (print_list st).

(** The invariant of the selection loop behind what it leaves out: a
    threshold is 0 or the overuse value of a listed set, a class is cut
    off by a listed set, and every set that was on the lists is still
    there, or listed, or accounted for. *)
Definition account_invariant (ov : parameter_set -> Z) (max_s : Z)
    (qs0 : queues) (st : selection) : Prop :=
  size_invariant st /\
  length (min_sec_level st) = 3%nat /\
  length (cutoff st) = 3%nat /\
  well_classed (sel_queues st) /\
  (forall j, (j < 3)%nat ->
     nth j (min_sec_level st) 0 = 0 \/
     exists e, In e (print_list st) /\ (class_of_w (w e) <= j)%nat /\
               nth j (min_sec_level st) 0 <= ov e) /\
  (forall j, (j < 3)%nat -> nth j (cutoff st) false = true ->
     exists e, In e (print_list st) /\ (class_of_w (w e) <= j)%nat /\
               reaches_limit ov max_s e) /\
  (forall x, In x (all_queued qs0) ->
     In x (all_queued (sel_queues st)) \/ In x (print_list st) \/
     accounts_for ov max_s (print_list st) x).

(** ** Ties and the order of the bins *)

(** [my_compare] finds no difference between [x] and [y]. *)
Definition tied (x y : parameter_set) : bool := my_compare x y =? 0.

(** The contents of the bins of [my_sort], the highest bin first. *)
Fixpoint flat (bins : list queue) : queue :=
  match bins with
  | [] => []
  | b :: rest => flat rest ++ b
  end.

(** ** search.c: the table that [do_search] prints *)

Definition UINT_MAX : Z := 2 ^ 32 - 1.

(** [smallest_sig].  The selection loop lowers it by
    [if (p->sig_size < smallest_sig) smallest_sig = p->sig_size] when, and
    only when, it appends [p] to the print list, so its value after the
    loop is this fold over the list. *)
Definition smallest_sig_of (printed : queue) : Z :=
  fold_left (fun smallest p =>
               if sig_size p <? smallest then sig_size p else smallest)
            printed UINT_MAX.

(** The column [100*p->sig_size / smallest_sig], an [unsigned] value. *)
Definition percent_of (smallest_sig : Z) (p : parameter_set) : Z :=
  Machine.u32 (100 * sig_size p) / smallest_sig.

(** The column [m]:
    [divru(p->h - p->h/p->d, 8) + divru(p->h/p->d, 8) + divru(p->a*p->k, 8)].
    The arguments are [int] values, converted to [unsigned]. *)
Definition m_of (p : parameter_set) : Z :=
  Machine.u32
    (divru (Machine.u32 (h p - Z.quot (h p) (d p))) 8
     + divru (Machine.u32 (Z.quot (h p) (d p))) 8
     + divru (Machine.u32 (a p * k p)) 8).

(** The loop that writes the overuse curve of a listed parameter set,
    over the values [xs] of [x] still to come: the lines
    [(fx, y)] written, [None] when a call of [compute_sec_level] gives no
    result. *)
Fixpoint csv_loop (fuel : nat) (sec_level : Z) (p : parameter_set)
    (xs : list Z) : option (list (R * R)) :=
  match xs with
  | [] => Some []
  | x :: xs' =>
      let fx := (IZR x / 100)%R in
      match Gamma.compute_sec_level fuel fx (h p) (a p) (k p) with
      | None => None
      | Some y =>
          let y := if Rgt_dec y (IZR sec_level) then IZR sec_level else y in
          if Rlt_dec y 10 then Some []
          else
            match csv_loop fuel sec_level p xs' with
            | None => None
            | Some rows => Some ((fx, y) :: rows)
            end
      end
  end.

(** [for (x = 100*(num_sig-1); x < 100*(max_s+10); x++)]: [x] and
    [num_sig] are [unsigned], [max_s] is an [int], and the comparison is
    made on [unsigned] values.  The loop is run once per listed parameter
    set, and only when a label was given and the file could be opened. *)
Definition csv_rows (fuel : nat) (sec_level num_sig max_s : Z)
    (p : parameter_set) : option (list (R * R)) :=
  let first := Machine.u32 (100 * (num_sig - 1)) in
  let bound := Machine.u32 (100 * (max_s + 10)) in
  csv_loop fuel sec_level p (Zrange first (Z.to_nat (bound - first))).

(** ** gamma.c: the terms of the summation loop *)

(** [log_b] as an iteration computes it from its value of
    [prob_not_get_g_hit]. *)
Definition log_b_of (K : Z) (q : R) : R :=
  if Rlt_dec q (1 / 100000)
  then (- IZR K * (q / ln 2 + q * q / (2 * ln 2)))%R
  else (IZR K * Gamma.log2 (1 - q))%R.

(** The logarithm [log_a + log_b] of the term that iteration [n] adds to
    the running sum. *)
Definition term_at (log_lambda p1 : R) (K : Z) (n : nat) : R :=
  let st := Gamma.series_at log_lambda p1 K n in
  (Gamma.log_a st + log_b_of K (Gamma.prob_not_get_g_hit st))%R.

(** The factor by which [do_add] can fall short of the sum when it
    returns the larger argument alone. *)
Definition kappa : R := (1 + / 2 ^ 64)%R.

(** * Theorems *)

(** ** Machine arithmetic *)

Lemma Machine_u32_small z : 0 <= z < 2 ^ 32 -> Machine.u32 z = z.
Proof. intros Hz. unfold Machine.u32. apply Z.mod_small. exact Hz. Qed.

Lemma Machine_u32_range z : 0 <= Machine.u32 z < 2 ^ 32.
Proof. unfold Machine.u32. apply Z.mod_pos_bound. reflexivity. Qed.

(** ** Single-precision rounding *)

Lemma round_pos_small z : z < 2 ^ 24 -> Float32.round_pos z = z.
Proof.
  intros Hz. unfold Float32.round_pos.
  destruct (Z.ltb_spec z (2 ^ 24)); [reflexivity|lia].
Qed.

Lemma round_pos_big z : 2 ^ 24 <= z -> 2 ^ 24 <= Float32.round_pos z.
Proof.
  intros Hz. unfold Float32.round_pos.
  destruct (Z.ltb_spec z (2 ^ 24)) as [|_]; [lia|].
  assert (Hlog : 24 <= Z.log2 z) by (apply Z.log2_le_pow2; lia).
  set (e := Z.log2 z - 23).
  assert (He : 1 <= e) by (unfold e; lia).
  assert (Hpow : 2 ^ 23 * 2 ^ e <= z).
  { rewrite <- Z.pow_add_r by lia. replace (23 + e) with (Z.log2 z) by (unfold e; lia).
    apply Z.log2_spec. lia. }
  assert (Hpe : 2 <= 2 ^ e).
  { change 2 with (2 ^ 1) at 1. apply Z.pow_le_mono_r; lia. }
  assert (Hq : 2 ^ 23 <= z / 2 ^ e).
  { apply Z.div_le_lower_bound; lia. }
  cbv zeta.
  destruct (_ <? _); [nia|]. destruct (_ <? _); [nia|]. destruct (Z.even _); nia.
Qed.

Lemma of_Z_small z : - 2 ^ 24 < z < 2 ^ 24 -> Float32.of_Z z = z.
Proof.
  intros Hz. unfold Float32.of_Z. rewrite round_pos_small by lia.
  destruct z; cbn; lia.
Qed.

Lemma of_Z_ge z b : b <= 2 ^ 24 -> - 2 ^ 24 < z -> b <= z -> b <= Float32.of_Z z.
Proof.
  intros Hb Hneg Hz. destruct (Z.lt_ge_cases z (2 ^ 24)) as [Hlt|Hge].
  - rewrite of_Z_small by lia. exact Hz.
  - unfold Float32.of_Z. rewrite Z.sgn_pos by lia. rewrite Z.abs_eq by lia.
    pose proof (round_pos_big z Hge). lia.
Qed.


(** ** The merge sort *)

Section SortFacts.

Lemma my_compare_ge0 x y : (my_compare x y >=? 0) = true <-> best_first x y.
Proof.
  unfold my_compare, best_first.
  repeat match goal with
         | |- context [?u <? ?v] => destruct (Z.ltb_spec u v)
         | |- context [?u >? ?v] => destruct (Z.gtb_spec u v)
         end; cbn; split; intros; try discriminate; try reflexivity; lia.
Qed.

Lemma my_compare_lt0 x y : (my_compare x y >=? 0) = false -> best_first y x.
Proof.
  unfold my_compare, best_first.
  repeat match goal with
         | |- context [?u <? ?v] => destruct (Z.ltb_spec u v)
         | |- context [?u >? ?v] => destruct (Z.gtb_spec u v)
         end; cbn; intros; try discriminate; lia.
Qed.

Lemma best_first_trans x y z : best_first x y -> best_first y z -> best_first x z.
Proof. unfold best_first. lia. Qed.

Lemma best_first_sig_size x y : best_first x y -> sig_size x <= sig_size y.
Proof. unfold best_first. lia. Qed.

Lemma my_merge_cons x p y q :
  my_merge (x :: p) (y :: q) =
  if my_compare x y >=? 0 then x :: my_merge p (y :: q)
  else y :: my_merge (x :: p) q.
Proof. reflexivity. Qed.

Lemma my_merge_perm p q : Permutation (my_merge p q) (p ++ q).
Proof.
  revert q. induction p as [|x p IHp]; intros q.
  - destruct q; reflexivity.
  - induction q as [|y q IHq].
    + cbn. rewrite app_nil_r. reflexivity.
    + rewrite my_merge_cons. destruct (my_compare x y >=? 0).
      * cbn. constructor. apply IHp.
      * rewrite IHq. apply (Permutation_middle (x :: p) q y).
Qed.

Lemma forall_best_first_weaken x y l :
  best_first x y -> Forall (best_first y) l -> Forall (best_first x) l.
Proof.
  intros Hxy Hl. eapply Forall_impl; [|exact Hl].
  intros z Hz. eapply best_first_trans; eassumption.
Qed.

Lemma my_merge_sorted p q :
  StronglySorted best_first p -> StronglySorted best_first q ->
  StronglySorted best_first (my_merge p q).
Proof.
  revert q. induction p as [|x p IHp]; intros q Hp Hq.
  - destruct q; assumption.
  - induction q as [|y q IHq].
    + exact Hp.
    + rewrite my_merge_cons. destruct (my_compare x y >=? 0) eqn:E.
      * apply StronglySorted_inv in Hp. destruct Hp as [Hp Hx].
        constructor.
        -- apply IHp; assumption.
        -- eapply Permutation_Forall; [symmetry; apply my_merge_perm|].
           apply Forall_app. split; [exact Hx|].
           apply my_compare_ge0 in E.
           apply StronglySorted_inv in Hq. destruct Hq as [_ Hy].
           constructor; [exact E|].
           eapply forall_best_first_weaken; eassumption.
      * apply my_compare_lt0 in E.
        apply StronglySorted_inv in Hq. destruct Hq as [Hq Hy].
        constructor.
        -- apply IHq. exact Hq.
        -- eapply Permutation_Forall; [symmetry; apply my_merge_perm|].
           apply Forall_app. split; [|exact Hy].
           apply StronglySorted_inv in Hp. destruct Hp as [_ Hx].
           constructor; [exact E|].
           eapply forall_best_first_weaken; eassumption.
Qed.

Lemma set_bin_length i (q : queue) (bins : list queue) : length (set_bin i q bins) = length bins.
Proof.
  revert i. induction bins as [|b bins IH]; intros [|i]; cbn; try reflexivity.
  rewrite IH. reflexivity.
Qed.

Lemma set_bin_perm i (q : queue) (bins : list queue) :
  (i < length bins)%nat ->
  Permutation (nth i bins [] ++ concat (set_bin i q bins)) (q ++ concat bins).
Proof.
  revert i. induction bins as [|b bins IH]; intros i Hi; cbn in Hi; [lia|].
  destruct i as [|i]; cbn.
  - apply Permutation_app_swap_app.
  - rewrite Permutation_app_swap_app. rewrite IH by lia.
    apply Permutation_app_swap_app.
Qed.

Lemma set_bin_nth i (q : queue) (bins : list queue) :
  (i < length bins)%nat -> nth i (set_bin i q bins) [] = q.
Proof.
  revert i. induction bins as [|b bins IH]; intros i Hi; cbn in Hi; [lia|].
  destruct i as [|i]; cbn; [reflexivity|]. apply IH. lia.
Qed.

Lemma set_bin_Forall (P : queue -> Prop) i (q : queue) (bins : list queue) :
  P q -> Forall P bins -> Forall P (set_bin i q bins).
Proof.
  intros Hq. revert i. induction bins as [|b bins IH]; intros i Hb.
  - destruct i; constructor.
  - apply Forall_cons_iff in Hb. destruct Hb as [Hb Hbins].
    destruct i; cbn; constructor; auto.
Qed.

Lemma ripple_length n i p (bins : list queue) : length (ripple n i p bins) = length bins.
Proof.
  revert i p bins. induction n as [|n IH]; intros i p bins; cbn [ripple].
  - apply set_bin_length.
  - destruct (nth i bins []).
    + apply set_bin_length.
    + rewrite IH. apply set_bin_length.
Qed.

Lemma ripple_perm n i p (bins : list queue) :
  length bins = NUM_BIN -> (i + n = NUM_BIN)%nat ->
  (n = O -> nth (NUM_BIN - 1) bins [] = []) ->
  Permutation (concat (ripple n i p bins)) (p ++ concat bins).
Proof.
  revert i p bins. induction n as [|n IH]; intros i p bins Hlen Hin Hlast;
    cbn [ripple].
  - rewrite <- (set_bin_perm (NUM_BIN - 1) p bins) by (rewrite Hlen; unfold NUM_BIN; lia).
    rewrite Hlast by reflexivity. reflexivity.
  - destruct (nth i bins []) as [|x b] eqn:E.
    + rewrite <- (set_bin_perm i p bins) by lia. rewrite E. reflexivity.
    + rewrite IH.
      * rewrite my_merge_perm. rewrite <- app_assoc.
        rewrite Permutation_app_swap_app. apply Permutation_app_head.
        rewrite <- E. rewrite set_bin_perm by lia. reflexivity.
      * rewrite set_bin_length. exact Hlen.
      * lia.
      * intros ->. replace (NUM_BIN - 1)%nat with i by lia.
        apply set_bin_nth. lia.
Qed.

Lemma ripple_sorted n i p (bins : list queue) :
  StronglySorted best_first p -> Forall (StronglySorted best_first) bins ->
  Forall (StronglySorted best_first) (ripple n i p bins).
Proof.
  revert i p bins. induction n as [|n IH]; intros i p bins Hp Hbins;
    cbn [ripple].
  - apply set_bin_Forall; assumption.
  - destruct (nth i bins []) as [|x b] eqn:E.
    + apply set_bin_Forall; assumption.
    + apply IH.
      * apply my_merge_sorted; [|exact Hp].
        rewrite <- E.
        destruct (Nat.lt_ge_cases i (length bins)) as [Hi|Hi].
        -- rewrite Forall_forall in Hbins. apply Hbins. apply nth_In. exact Hi.
        -- rewrite nth_overflow in E by exact Hi. discriminate.
      * apply set_bin_Forall; [constructor|exact Hbins].
Qed.

Lemma fill_bins_spec lst (bins : list queue) :
  length bins = NUM_BIN -> Forall (StronglySorted best_first) bins ->
  let bins' := fill_bins lst bins in
  length bins' = NUM_BIN /\
  Forall (StronglySorted best_first) bins' /\
  Permutation (concat bins') (lst ++ concat bins).
Proof.
  revert bins. induction lst as [|p lst IH]; intros bins Hlen Hs; cbn.
  - auto.
  - destruct (IH (ripple NUM_BIN 0 [p] bins)) as (H1 & H2 & H3).
    + rewrite ripple_length. exact Hlen.
    + apply ripple_sorted; [|exact Hs]. repeat constructor.
    + repeat split; [exact H1|exact H2|].
      rewrite H3. rewrite ripple_perm; [|exact Hlen|reflexivity|discriminate].
      cbn. symmetry. apply Permutation_middle.
Qed.

Lemma combine_from_perm bins acc :
  Permutation (fold_left (fun p b => my_merge b p) bins acc) (acc ++ concat bins).
Proof.
  revert acc. induction bins as [|b bins IH]; intros acc; cbn.
  - rewrite app_nil_r. reflexivity.
  - rewrite IH. rewrite my_merge_perm. rewrite <- app_assoc.
    apply Permutation_app_swap_app.
Qed.

Lemma combine_from_sorted bins acc :
  StronglySorted best_first acc -> Forall (StronglySorted best_first) bins ->
  StronglySorted best_first (fold_left (fun p b => my_merge b p) bins acc).
Proof.
  revert acc. induction bins as [|b bins IH]; intros acc Hacc Hb; cbn.
  - exact Hacc.
  - apply Forall_cons_iff in Hb. destruct Hb as [Hb Hbins].
    apply IH; [|exact Hbins]. apply my_merge_sorted; assumption.
Qed.

Lemma empty_bins_sorted n : Forall (StronglySorted best_first) (repeat [] n).
Proof. induction n; cbn; constructor; [constructor|assumption]. Qed.

Lemma empty_bins_concat n : concat (repeat (@nil parameter_set) n) = [].
Proof. induction n; cbn; auto. Qed.

Lemma my_sort_perm (lst : queue) : Permutation lst (my_sort lst).
Proof.
  unfold my_sort, combine_bins.
  destruct (fill_bins_spec lst (repeat [] NUM_BIN)) as (Hlen & Hs & Hp).
  - apply repeat_length.
  - apply empty_bins_sorted.
  - rewrite combine_from_perm. cbn [app]. rewrite Hp.
    rewrite empty_bins_concat, app_nil_r. reflexivity.
Qed.

Lemma my_sort_sorted (lst : queue) : StronglySorted best_first (my_sort lst).
Proof.
  unfold my_sort, combine_bins.
  destruct (fill_bins_spec lst (repeat [] NUM_BIN)) as (Hlen & Hs & Hp).
  - apply repeat_length.
  - apply empty_bins_sorted.
  - apply combine_from_sorted; [constructor|exact Hs].
Qed.

(** C8.  For every input list, [my_sort] returns a permutation of the
    input (every element exactly once, whatever the length of the input,
    so also when a carry ripples through all the bins or into the overflow
    bin) that is in best-first order: signature size ascending, then
    signing cost ascending, then verification cost ascending. *)
Theorem my_sort_correct (lst : queue) :
  Permutation lst (my_sort lst) /\ StronglySorted best_first (my_sort lst).
Proof. split; [apply my_sort_perm|apply my_sort_sorted]. Qed.

End SortFacts.

(** ** The selection loop *)

Section SelectionFacts.

Variable compute_sigs_at_sec_level : Z -> Z -> Z -> Z -> Z.
Variables (test_sec_level max_s : Z).

Local Abbreviation step :=
  (select_step compute_sigs_at_sec_level test_sec_level max_s).
Local Abbreviation loop :=
  (select_loop compute_sigs_at_sec_level test_sec_level max_s).
Local Abbreviation overuse :=
  (overuse_of compute_sigs_at_sec_level test_sec_level).

(** A property kept by every iteration holds when the loop ends. *)
Lemma select_loop_invariant (P : selection -> Prop) :
  (forall st winner p,
      P st -> some_left (sel_queues st) = true ->
      next_best (sel_queues st) = (winner, Some p) ->
      P (fst (step winner p st))) ->
  forall n st, P st -> P (loop n st).
Proof.
  intros Hstep. induction n as [|n IH]; intros st Hst; cbn [select_loop].
  - exact Hst.
  - destruct (some_left (sel_queues st)) eqn:Hleft; [|exact Hst].
    destruct (next_best (sel_queues st)) as [winner [p|]] eqn:Hbest; [|exact Hst].
    specialize (Hstep st winner p Hst Hleft Hbest).
    destruct (step winner p st) as [st' go_on]. cbn in Hstep.
    destruct go_on; [apply IH|]; exact Hstep.
Qed.

(** What [select_step] can do: drop the set, or append it to the print
    list and lift the thresholds. *)
Lemma select_step_cases winner p st :
  let st' := fst (step winner p st) in
  sel_queues st' = pop winner (sel_queues st) /\
  ((print_list st' = print_list st /\
    min_sec_level st' = min_sec_level st /\
    cutoff st' = cutoff st /\
    (nth winner (cutoff st) false = true \/
     overuse p <= nth winner (min_sec_level st) 0))
   \/
   (print_list st' = print_list st ++ [p] /\
    nth winner (cutoff st) false = false /\
    nth winner (min_sec_level st) 0 < overuse p /\
    min_sec_level st' =
      update_from winner (fun m => if overuse p >? m then overuse p else m)
        (min_sec_level st))).
Proof.
  unfold select_step.
  destruct (nth winner (cutoff st) false) eqn:Hcut; cbn.
  - split; [reflexivity|]. left. auto.
  - destruct (Z.leb_spec (overuse p) (nth winner (min_sec_level st) 0)); cbn.
    + split; [reflexivity|]. left. auto.
    + split; [reflexivity|]. right. auto.
Qed.

Lemma next_best_head qs winner p :
  next_best qs = (winner, Some p) ->
  (winner < 3)%nat /\
  hd_error (queue_of winner qs) = Some p /\
  (forall c x, (c < winner)%nat -> hd_error (queue_of c qs) = Some x ->
               sig_size p < sig_size x) /\
  (forall c x, hd_error (queue_of c qs) = Some x -> sig_size p <= sig_size x).
Proof.
  destruct qs as [q0 q1 q2]. unfold next_best. cbn [w16_q w256_q wother_q].
  intros Hbest.
  assert (Hq : forall c, queue_of c (mk_queues q0 q1 q2) =
                         match c with O => q0 | S O => q1 | _ => q2 end)
    by reflexivity.
  destruct q0 as [|x0 q0], q1 as [|x1 q1], q2 as [|x2 q2];
    cbn in Hbest;
    repeat match type of Hbest with
           | context [?u <? ?v] => destruct (Z.ltb_spec u v); cbn in Hbest
           end;
    inversion Hbest; subst; clear Hbest;
    (split; [lia|]); (split; [reflexivity|]);
    (split; intros c x; [intros Hc|]; rewrite Hq;
     destruct c as [|[|c]]; cbn; intros Hx; inversion Hx; subst; lia).
Qed.

Lemma sorted_by_size_pop winner qs :
  sorted_by_size qs -> sorted_by_size (pop winner qs).
Proof.
  assert (Htl : forall q, StronglySorted le_size q -> StronglySorted le_size (tl q)).
  { intros [|x q] Hq; [exact Hq|]. apply StronglySorted_inv in Hq. apply Hq. }
  intros (H0 & H1 & H2). unfold sorted_by_size.
  destruct winner as [|[|c]]; cbn [pop w16_q w256_q wother_q];
    repeat split; try apply Htl; assumption.
Qed.

Lemma all_queued_pop winner qs x :
  In x (all_queued (pop winner qs)) -> In x (all_queued qs).
Proof.
  assert (Htl : forall q : queue, In x (tl q) -> In x q).
  { intros [|y q]; cbn; auto. }
  unfold all_queued. destruct winner as [|[|c]]; cbn;
    rewrite !in_app_iff; intuition auto.
Qed.

Lemma in_all_queued qs x :
  In x (all_queued qs) <-> exists c, (c < 3)%nat /\ In x (queue_of c qs).
Proof.
  unfold all_queued. rewrite !in_app_iff. split.
  - intros [H|[H|H]]; [exists 0%nat|exists 1%nat|exists 2%nat]; cbn; auto.
  - intros (c & _ & H). destruct c as [|[|c]]; cbn in H; auto.
Qed.

Lemma sorted_by_size_queue c qs :
  sorted_by_size qs -> StronglySorted le_size (queue_of c qs).
Proof. intros (H0 & H1 & H2). destruct c as [|[|c]]; cbn; assumption. Qed.

(** On sorted lists the set taken by [next_best] is a smallest one. *)
Lemma next_best_smallest qs winner p :
  sorted_by_size qs -> next_best qs = (winner, Some p) ->
  Forall (le_size p) (all_queued qs).
Proof.
  intros Hs Hbest. apply next_best_head in Hbest.
  destruct Hbest as (_ & _ & _ & Hmin).
  apply Forall_forall. intros x Hx. apply in_all_queued in Hx.
  destruct Hx as (c & _ & Hx).
  pose proof (sorted_by_size_queue c qs Hs) as Hc.
  specialize (Hmin c).
  destruct (queue_of c qs) as [|y q]; [contradiction|].
  specialize (Hmin y eq_refl).
  destruct Hx as [<-|Hx]; [exact Hmin|].
  apply StronglySorted_inv in Hc. destruct Hc as [_ Hy].
  rewrite Forall_forall in Hy. specialize (Hy x Hx).
  unfold le_size in *. lia.
Qed.

Lemma strongly_sorted_snoc (l : queue) (p : parameter_set) :
  StronglySorted le_size l -> Forall (fun x => le_size x p) l ->
  StronglySorted le_size (l ++ [p]).
Proof.
  induction l as [|x l IH]; intros Hl Hp; cbn.
  - repeat constructor.
  - apply StronglySorted_inv in Hl. destruct Hl as [Hl Hx].
    apply Forall_cons_iff in Hp. destruct Hp as [Hxp Hp].
    constructor; [auto|]. apply Forall_app. split; [exact Hx|].
    constructor; [exact Hxp|constructor].
Qed.

Lemma size_invariant_step st winner p :
  size_invariant st -> some_left (sel_queues st) = true ->
  next_best (sel_queues st) = (winner, Some p) ->
  size_invariant (fst (step winner p st)).
Proof.
  intros (Hs & Hpl & Hle) _ Hbest.
  pose proof (next_best_smallest _ _ _ Hs Hbest) as Hmin.
  apply next_best_head in Hbest. destruct Hbest as (_ & Hhd & _ & _).
  assert (Hin : In p (all_queued (sel_queues st))).
  { apply in_all_queued. destruct (queue_of winner (sel_queues st)) eqn:E;
      [discriminate|].
    exists (Nat.min winner 2). split; [lia|].
    replace (queue_of (Nat.min winner 2) (sel_queues st))
      with (queue_of winner (sel_queues st))
      by (destruct winner as [|[|[|c]]]; reflexivity).
    rewrite E. inversion Hhd. left. reflexivity. }
  assert (Hweak : forall x, Forall (le_size x) (all_queued (sel_queues st)) ->
            Forall (le_size x) (all_queued (pop winner (sel_queues st)))).
  { intros x Hx. rewrite Forall_forall in *. intros y Hy.
    apply Hx. eapply all_queued_pop. exact Hy. }
  destruct (select_step_cases winner p st) as (Hq & [(Hp & _)|(Hp & _)]);
    unfold size_invariant; rewrite Hq, Hp.
  - split; [apply sorted_by_size_pop; exact Hs|]. split; [exact Hpl|].
    eapply Forall_impl; [|exact Hle]. exact Hweak.
  - split; [apply sorted_by_size_pop; exact Hs|]. split.
    + apply strongly_sorted_snoc; [exact Hpl|].
      eapply Forall_impl; [|exact Hle]. cbn. intros x Hx.
      rewrite Forall_forall in Hx. apply Hx. exact Hin.
    + apply Forall_app. split.
      * eapply Forall_impl; [|exact Hle]. exact Hweak.
      * constructor; [|constructor]. apply Hweak. exact Hmin.
Qed.

Lemma sorted_le_size_of_best_first (q : queue) :
  StronglySorted best_first q -> StronglySorted le_size q.
Proof.
  induction 1 as [|x q Hq IH Hx]; constructor; [exact IH|].
  eapply Forall_impl; [|exact Hx]. intros y. apply best_first_sig_size.
Qed.

Lemma sort_queues_sorted qs : sorted_by_size (sort_queues qs).
Proof.
  unfold sorted_by_size, sort_queues. cbn.
  repeat split; apply sorted_le_size_of_best_first; apply my_sort_sorted.
Qed.

(** The frontier of the selection is in order of signature size. *)
Lemma select_smallest_first (qs : queues) :
  StronglySorted le_size
    (select compute_sigs_at_sec_level test_sec_level max_s (sort_queues qs)).
Proof.
  unfold select.
  apply (select_loop_invariant size_invariant size_invariant_step).
  unfold size_invariant. cbn.
  split; [apply sort_queues_sorted|]. split; constructor.
Qed.

Lemma update_from_length {A : Type} winner (f : A -> A) arr :
  length (update_from winner f arr) = length arr.
Proof.
  revert winner. induction arr as [|x arr IH]; intros [|c]; cbn; auto.
Qed.

Lemma update_from_nth {A : Type} winner (f : A -> A) arr j dflt :
  (j < length arr)%nat ->
  nth j (update_from winner f arr) dflt =
  if (winner <=? j)%nat then f (nth j arr dflt) else nth j arr dflt.
Proof.
  revert winner j. induction arr as [|x arr IH]; intros c j Hj; cbn in Hj;
    [lia|].
  destruct c as [|c], j as [|j]; cbn [update_from nth]; try reflexivity.
  - rewrite IH by lia. reflexivity.
  - rewrite IH by lia. reflexivity.
Qed.

Lemma well_classed_pop winner qs : well_classed qs -> well_classed (pop winner qs).
Proof.
  assert (Htl : forall (P : parameter_set -> Prop) (q : queue),
             Forall P q -> Forall P (tl q)).
  { intros P [|x q] Hq; [exact Hq|]. apply Forall_cons_iff in Hq. apply Hq. }
  intros Hw c Hc. specialize (Hw c Hc).
  destruct winner as [|[|n]], c as [|[|c]]; cbn in *; try apply Htl; exact Hw.
Qed.

Lemma well_classed_sort qs : well_classed qs -> well_classed (sort_queues qs).
Proof.
  intros Hw c Hc. specialize (Hw c Hc).
  destruct c as [|[|c]]; cbn in *;
    (eapply Permutation_Forall; [apply my_sort_perm|exact Hw]).
Qed.

Lemma well_classed_head qs winner p :
  well_classed qs -> (winner < 3)%nat ->
  hd_error (queue_of winner qs) = Some p -> class_of_w (w p) = winner.
Proof.
  intros Hw Hc Hhd. specialize (Hw winner Hc).
  destruct (queue_of winner qs) as [|x q]; [discriminate|].
  inversion Hhd; subst. apply Forall_cons_iff in Hw. apply Hw.
Qed.

Lemma forall_ord_pairs_snoc {A : Type} (R : A -> A -> Prop) l x :
  ForallOrdPairs R l -> Forall (fun y => R y x) l ->
  ForallOrdPairs R (l ++ [x]).
Proof.
  induction 1 as [|y l Hy Hl IH]; intros Hx; cbn.
  - repeat constructor.
  - apply Forall_cons_iff in Hx. destruct Hx as [Hyx Hx].
    constructor; [|auto]. apply Forall_app. split; [exact Hy|].
    constructor; [exact Hyx|constructor].
Qed.

Lemma forall_ord_pairs_weaken {A : Type} (R R' : A -> A -> Prop) l :
  (forall x y, R x y -> R' x y) -> ForallOrdPairs R l -> ForallOrdPairs R' l.
Proof.
  intros HR. induction 1 as [|y l Hy Hl IH]; constructor; [|exact IH].
  eapply Forall_impl; [|exact Hy]. intros z. apply HR.
Qed.

Lemma threshold_invariant_step st winner p :
  threshold_invariant overuse st -> some_left (sel_queues st) = true ->
  next_best (sel_queues st) = (winner, Some p) ->
  threshold_invariant overuse (fst (step winner p st)).
Proof.
  intros (Hlen & Hw & Hbound & Hpairs) _ Hbest.
  apply next_best_head in Hbest. destruct Hbest as (Hc & Hhd & _ & _).
  pose proof (well_classed_head _ _ _ Hw Hc Hhd) as Hclass.
  destruct (select_step_cases winner p st)
    as (Hq & [(Hp & Hm & _)|(Hp & _ & Hgt & Hm)]);
    unfold threshold_invariant; rewrite Hq, Hp, Hm.
  - split; [exact Hlen|]. split; [apply well_classed_pop; exact Hw|].
    split; assumption.
  - split; [rewrite update_from_length; exact Hlen|].
    split; [apply well_classed_pop; exact Hw|]. split.
    + intros e j He Hej Hj. rewrite update_from_nth by lia.
      apply in_app_iff in He. destruct He as [He|[<-|[]]].
      * specialize (Hbound e j He Hej Hj).
        destruct (winner <=? j)%nat; [|exact Hbound].
        destruct (Z.gtb_spec (overuse p) (nth j (min_sec_level st) 0)); lia.
      * rewrite Hclass in Hej.
        destruct (Nat.leb_spec winner j); [|lia].
        destruct (Z.gtb_spec (overuse p) (nth j (min_sec_level st) 0)); lia.
    + apply forall_ord_pairs_snoc; [exact Hpairs|].
      apply Forall_forall. intros e He Hle. rewrite Hclass in Hle.
      specialize (Hbound e winner He Hle Hc). lia.
Qed.

(** The frontier of well-classed lists under the dominance filter. *)
Lemma select_not_dominated (qs : queues) :
  well_classed qs ->
  ForallOrdPairs (fun e1 e2 => ~ at_least_as_good overuse e1 e2)
    (select compute_sigs_at_sec_level test_sec_level max_s (sort_queues qs)).
Proof.
  intros Hw.
  assert (Hinv : threshold_invariant overuse
            (loop (remaining (sort_queues qs))
               (mk_selection (sort_queues qs) [0; 0; 0]
                  [false; false; false] []))).
  { apply (select_loop_invariant _ threshold_invariant_step).
    unfold threshold_invariant. cbn.
    split; [reflexivity|]. split; [apply well_classed_sort; exact Hw|].
    split; [intros e j []|constructor]. }
  destruct Hinv as (_ & _ & _ & Hpairs). unfold select.
  eapply forall_ord_pairs_weaken; [|exact Hpairs]. cbn.
  intros e1 e2 Hlt (Hc & _ & Hov). specialize (Hlt Hc). lia.
Qed.

(** A set at or below the threshold of its class is dropped. *)
Lemma select_step_drops st winner p :
  overuse p <= nth winner (min_sec_level st) 0 ->
  print_list (fst (step winner p st)) = print_list st.
Proof.
  intros Hle.
  destruct (select_step_cases winner p st) as (_ & [(Hp & _)|(_ & _ & Hgt & _)]);
    [exact Hp|lia].
Qed.

(** A set above the threshold of its class, when the class is not cut
    off, is printed and lifts the thresholds from its class on. *)
Lemma select_step_accepts st winner p :
  length (min_sec_level st) = 3%nat ->
  nth winner (cutoff st) false = false ->
  nth winner (min_sec_level st) 0 < overuse p ->
  print_list (fst (step winner p st)) = print_list st ++ [p] /\
  forall j, (j < 3)%nat ->
    nth j (min_sec_level (fst (step winner p st))) 0 =
    if (winner <=? j)%nat
    then Z.max (nth j (min_sec_level st) 0) (overuse p)
    else nth j (min_sec_level st) 0.
Proof.
  intros Hlen Hcut Hgt.
  destruct (select_step_cases winner p st)
    as (_ & [(_ & _ & _ & [Hc|Hle])|(Hp & _ & _ & Hm)]);
    [congruence|lia|].
  split; [exact Hp|]. intros j Hj. rewrite Hm.
  rewrite update_from_nth by lia.
  destruct (winner <=? j)%nat; [|reflexivity].
  destruct (Z.gtb_spec (overuse p) (nth j (min_sec_level st) 0)); lia.
Qed.

End SelectionFacts.

(** ** The enumeration loops *)

Lemma Zrange_S lo n : Zrange lo (S n) = lo :: Zrange (lo + 1) n.
Proof.
  unfold Zrange. cbn [seq map]. f_equal; [lia|].
  rewrite <- seq_shift, map_map. apply map_ext. intros i. lia.
Qed.

Lemma Zrange_In lo n x : In x (Zrange lo n) <-> lo <= x < lo + Z.of_nat n.
Proof.
  unfold Zrange. rewrite in_map_iff. split.
  - intros (i & <- & Hi). apply in_seq in Hi. lia.
  - intros Hx. exists (Z.to_nat (x - lo)). split; [lia|]. apply in_seq. lia.
Qed.

Section EnumerationFacts.

Variable check_sec_level : Z -> Z -> Z -> Z -> Z -> bool.
Variables (sec_level num_sig sign_op : Z).
Variables (d_restrict h_restrict a_restrict : Z).
Variable fuel : nat.

Local Abbreviation enumerated' :=
  (enumerated check_sec_level sec_level num_sig sign_op
     d_restrict h_restrict a_restrict fuel).
Local Abbreviation recorded' := (recorded sec_level).

(** A property of the three lists that every recording keeps. *)
Variable P : queues -> Prop.
Hypothesis P_push :
  forall qs log_w wd h_merkle d a k,
    P qs -> enumerated' log_w wd h_merkle d a k ->
    P (push (class_of_w (Z.shiftl 1 log_w)) (recorded' log_w wd h_merkle d a k) qs).

Lemma k_loop_keeps log_w wd h_merkle d a :
  (forall k, 1 <= k <= 99 ->
     (combined_cost
        (cost_hypertree_of (cost_of_ots wd (Z.shiftl 1 log_w))
           (node_tree_of h_merkle) d) k (cost_fors_tree_of a)
        >? Float32.of_Z sign_op) = false ->
     check_sec_level num_sig (h_merkle * d) a k sec_level = true ->
     enumerated' log_w wd h_merkle d a k) ->
  forall ks qs,
    Forall (fun k => 1 <= k <= 99) ks -> P qs ->
    P (k_loop check_sec_level sec_level num_sig sign_op
         (Z.shiftl 1 log_w) wd h_merkle (h_merkle * d) d a
         (cost_hypertree_of (cost_of_ots wd (Z.shiftl 1 log_w))
            (node_tree_of h_merkle) d)
         (cost_fors_tree_of a) ks qs).
Proof.
  intros Hadm. induction ks as [|k ks IH]; intros qs Hks Hqs; cbn [k_loop].
  - exact Hqs.
  - apply Forall_cons_iff in Hks. destruct Hks as [Hk Hks].
    destruct (combined_cost _ k _ >? _) eqn:Hcost; [exact Hqs|].
    destruct (check_sec_level num_sig (h_merkle * d) a k sec_level) eqn:Hchk;
      cbn [negb].
    + apply IH; [exact Hks|]. apply (P_push qs log_w wd h_merkle d a k Hqs).
      apply Hadm; assumption.
    + apply IH; assumption.
Qed.

Lemma a_loop_keeps log_w wd h_merkle d :
  (forall a k, 1 <= a <= 29 -> (a_restrict = 0 \/ a = Machine.u32 a_restrict) ->
     1 <= k <= 99 ->
     (combined_cost
        (cost_hypertree_of (cost_of_ots wd (Z.shiftl 1 log_w))
           (node_tree_of h_merkle) d) k (cost_fors_tree_of a)
        >? Float32.of_Z sign_op) = false ->
     check_sec_level num_sig (h_merkle * d) a k sec_level = true ->
     enumerated' log_w wd h_merkle d a k) ->
  forall avals qs,
    Forall (fun a => 1 <= a <= 29) avals -> P qs ->
    P (a_loop check_sec_level sec_level num_sig sign_op a_restrict
         (Z.shiftl 1 log_w) wd h_merkle (h_merkle * d) d
         (cost_hypertree_of (cost_of_ots wd (Z.shiftl 1 log_w))
            (node_tree_of h_merkle) d)
         avals qs).
Proof.
  intros Hadm. induction avals as [|a avals IH]; intros qs Ha Hqs;
    cbn [a_loop].
  - exact Hqs.
  - apply Forall_cons_iff in Ha. destruct Ha as [Ha Havals].
    destruct (Z.eqb_spec a_restrict 0) as [Hr|Hr]; cbn [negb andb].
    + apply IH; [exact Havals|]. apply k_loop_keeps; [|apply Forall_forall|exact Hqs].
      * intros k. apply Hadm; auto.
      * intros k Hk. apply Zrange_In in Hk. unfold MAX_K in Hk. lia.
    + destruct (Z.eqb_spec a (Machine.u32 a_restrict)) as [He|He]; cbn [negb].
      * apply IH; [exact Havals|].
        apply k_loop_keeps; [|apply Forall_forall|exact Hqs].
        -- intros k. apply Hadm; auto.
        -- intros k Hk. apply Zrange_In in Hk. unfold MAX_K in Hk. lia.
      * apply IH; assumption.
Qed.

Lemma d_loop_keeps log_w wd h_merkle :
  (forall d a k, 1 <= d <= 29 -> h_merkle * d <= sec_level + 30 ->
     (d_restrict = 0 \/ d = d_restrict) ->
     too_shallow num_sig (h_merkle * d) = false ->
     (cost_hypertree_of (cost_of_ots wd (Z.shiftl 1 log_w))
        (node_tree_of h_merkle) d >=? Float32.of_Z sign_op) = false ->
     1 <= a <= 29 -> (a_restrict = 0 \/ a = Machine.u32 a_restrict) ->
     1 <= k <= 99 ->
     (combined_cost
        (cost_hypertree_of (cost_of_ots wd (Z.shiftl 1 log_w))
           (node_tree_of h_merkle) d) k (cost_fors_tree_of a)
        >? Float32.of_Z sign_op) = false ->
     check_sec_level num_sig (h_merkle * d) a k sec_level = true ->
     enumerated' log_w wd h_merkle d a k) ->
  forall n d0 qs,
    1 <= d0 -> P qs ->
    P (d_loop check_sec_level sec_level num_sig sign_op d_restrict a_restrict
         (Z.shiftl 1 log_w) wd (cost_of_ots wd (Z.shiftl 1 log_w))
         h_merkle (h_merkle * d0) (Zrange d0 n) qs).
Proof.
  intros Hadm. induction n as [|n IH]; intros d0 qs Hd0 Hqs.
  - exact Hqs.
  - rewrite Zrange_S. cbn [d_loop].
    destruct (Z.leb_spec (h_merkle * d0) (sec_level + 30)) as [Hh|Hh];
      cbn [negb]; [|exact Hqs].
    destruct (Z.geb_spec d0 30) as [Hd|Hd]; [exact Hqs|].
    replace (h_merkle * d0 + h_merkle) with (h_merkle * (d0 + 1)) by lia.
    assert (Hrestrict :
      (negb (d_restrict =? 0) && negb (d0 =? d_restrict) = false) ->
      d_restrict = 0 \/ d0 = d_restrict).
    { destruct (Z.eqb_spec d_restrict 0); [auto|].
      destruct (Z.eqb_spec d0 d_restrict); [auto|discriminate]. }
    destruct (negb (d_restrict =? 0) && negb (d0 =? d_restrict)) eqn:Hr.
    { apply IH; [lia|exact Hqs]. }
    destruct (too_shallow num_sig (h_merkle * d0)) eqn:Hprune.
    { apply IH; [lia|exact Hqs]. }
    destruct (cost_hypertree_of _ _ d0 >=? _) eqn:Hcost; [exact Hqs|].
    apply IH; [lia|].
    apply a_loop_keeps; [|apply Forall_forall|exact Hqs].
    + intros a k. apply Hadm; auto. lia.
    + intros a Ha. apply Zrange_In in Ha. lia.
Qed.

Lemma h_merkle_loop_keeps log_w wd :
  2 <= log_w <= 8 ->
  winternitz_digits fuel sec_level (Z.shiftl 1 log_w) log_w = Some wd ->
  forall hs qs,
    Forall (fun h_merkle => 2 <= h_merkle) hs -> P qs ->
    P (h_merkle_loop check_sec_level sec_level num_sig sign_op
         d_restrict h_restrict a_restrict
         (Z.shiftl 1 log_w) wd (cost_of_ots wd (Z.shiftl 1 log_w)) hs qs).
Proof.
  intros Hlw Hwd. induction hs as [|h_merkle hs IH]; intros qs Hhs Hqs;
    cbn [h_merkle_loop].
  - exact Hqs.
  - apply Forall_cons_iff in Hhs. destruct Hhs as [Hh Hhs].
    destruct (Z.leb_spec h_merkle (sec_level + 20)) as [Hle|Hle];
      cbn [andb negb]; [|exact Hqs].
    destruct (Z.ltb_spec h_merkle 32) as [Hlt|Hlt]; cbn [negb]; [|exact Hqs].
    assert (Hrestrict :
      (negb (h_restrict =? 0) && negb (h_merkle =? h_restrict) = false) ->
      h_restrict = 0 \/ h_merkle = h_restrict).
    { destruct (Z.eqb_spec h_restrict 0); [auto|].
      destruct (Z.eqb_spec h_merkle h_restrict); [auto|discriminate]. }
    destruct (negb (h_restrict =? 0) && negb (h_merkle =? h_restrict)) eqn:Hr.
    { apply IH; assumption. }
    specialize (Hrestrict eq_refl).
    apply IH; [exact Hhs|].
    replace h_merkle with (h_merkle * 1) at 2 by lia.
    apply d_loop_keeps; [|lia|exact Hqs].
    intros d a k ? ? ? ? ? ? ? ? ? ?. unfold enumerated.
    repeat split; try assumption; lia.
Qed.

Lemma w_loop_keeps log_ws :
  Forall (fun log_w => 2 <= log_w <= 8) log_ws ->
  forall qs qs',
    P qs ->
    w_loop check_sec_level sec_level num_sig sign_op
      d_restrict h_restrict a_restrict fuel log_ws qs = Some qs' ->
    P qs'.
Proof.
  induction log_ws as [|log_w log_ws IH]; intros Hlws qs qs' Hqs Hrun;
    cbn [w_loop] in Hrun.
  - inversion Hrun; subst. exact Hqs.
  - apply Forall_cons_iff in Hlws. destruct Hlws as [Hlw Hlws].
    destruct (winternitz_digits fuel sec_level (Z.shiftl 1 log_w) log_w)
      as [wd|] eqn:Hwd; [|discriminate].
    eapply IH; [exact Hlws| |exact Hrun].
    apply h_merkle_loop_keeps; [exact Hlw|exact Hwd| |exact Hqs].
    apply Forall_forall. intros x Hx. apply Zrange_In in Hx. lia.
Qed.

(** A property that holds of the empty lists and is kept by every
    recording holds of the lists the enumeration ends with. *)
Lemma enumerate_keeps qs :
  P no_queues ->
  enumerate check_sec_level sec_level num_sig sign_op
    d_restrict h_restrict a_restrict fuel = Some qs ->
  P qs.
Proof.
  intros H0 Hrun. unfold enumerate in Hrun.
  eapply w_loop_keeps; [|exact H0|exact Hrun].
  apply Forall_forall. intros x Hx. apply Zrange_In in Hx. lia.
Qed.

End EnumerationFacts.

Lemma class_of_w_lt3 x : (class_of_w x < 3)%nat.
Proof.
  unfold class_of_w. destruct (x =? 16); [lia|].
  destruct ((x =? 256) || (x =? 4)); lia.
Qed.

(** Every parameter set on the lists was recorded for loop variables that
    satisfy [enumerated]. *)
Lemma enumerate_origin chk sec_level num_sig sign_op dr hr ar fuel qs :
  enumerate chk sec_level num_sig sign_op dr hr ar fuel = Some qs ->
  forall c p, (c < 3)%nat -> In p (queue_of c qs) ->
    exists log_w wd h_merkle d a k,
      enumerated chk sec_level num_sig sign_op dr hr ar fuel log_w wd h_merkle d a k /\
      c = class_of_w (Z.shiftl 1 log_w) /\
      p = recorded sec_level log_w wd h_merkle d a k.
Proof.
  intros Hrun.
  apply (enumerate_keeps chk sec_level num_sig sign_op dr hr ar fuel
           (fun qs => forall c p, (c < 3)%nat -> In p (queue_of c qs) ->
              exists log_w wd h_merkle d a k,
                enumerated chk sec_level num_sig sign_op dr hr ar fuel
                  log_w wd h_merkle d a k /\
                c = class_of_w (Z.shiftl 1 log_w) /\
                p = recorded sec_level log_w wd h_merkle d a k)).
  - intros qs0 log_w wd h_merkle d a k IH Hadm c p Hc Hin.
    assert (Hnew : forall c', c' = class_of_w (Z.shiftl 1 log_w) ->
              exists log_w' wd' h_merkle' d' a' k',
                enumerated chk sec_level num_sig sign_op dr hr ar fuel
                  log_w' wd' h_merkle' d' a' k' /\
                c' = class_of_w (Z.shiftl 1 log_w') /\
                recorded sec_level log_w wd h_merkle d a k =
                recorded sec_level log_w' wd' h_merkle' d' a' k').
    { intros c' Hc'. exists log_w, wd, h_merkle, d, a, k. auto. }
    pose proof (class_of_w_lt3 (Z.shiftl 1 log_w)) as Hlt.
    destruct (class_of_w (Z.shiftl 1 log_w)) as [|[|[|n]]] eqn:Hcls; [| | |lia];
      destruct c as [|[|[|c]]]; try lia; cbn in Hin;
      try (apply IH; [lia|exact Hin]);
      (destruct Hin as [<-|Hin]; [apply Hnew; reflexivity|apply IH; [lia|exact Hin]]).
  - intros c p Hc Hin. destruct c as [|[|c]]; destruct Hin.
  - exact Hrun.
Qed.

Lemma class_of_recorded sec_level log_w wd h_merkle d a k :
  2 <= log_w <= 8 ->
  class_of_w (w (recorded sec_level log_w wd h_merkle d a k)) =
  class_of_w (Z.shiftl 1 log_w).
Proof.
  intros Hlw.
  assert (Hcases : log_w = 2 \/ log_w = 3 \/ log_w = 4 \/ log_w = 5 \/
                   log_w = 6 \/ log_w = 7 \/ log_w = 8) by lia.
  repeat (destruct Hcases as [->|Hcases]; [reflexivity|]). subst. reflexivity.
Qed.

(** The enumeration puts every parameter set on the list of its class. *)
Lemma enumerate_well_classed chk sec_level num_sig sign_op dr hr ar fuel qs :
  enumerate chk sec_level num_sig sign_op dr hr ar fuel = Some qs ->
  well_classed qs.
Proof.
  intros Hrun c Hc. apply Forall_forall. intros p Hin.
  destruct (enumerate_origin _ _ _ _ _ _ _ _ _ Hrun c p Hc Hin)
    as (log_w & wd & h_merkle & d & a & k & Hadm & Hcls & ->).
  rewrite class_of_recorded by apply Hadm. symmetry. exact Hcls.
Qed.

(** ** Exactness of the recorded costs *)

Lemma node_tree_pow2 hm : 2 <= hm <= 31 -> node_tree_of hm = 2 ^ hm.
Proof.
  intros Hhm. unfold node_tree_of. rewrite Z.shiftl_1_l.
  apply Machine_u32_small. split; [apply Z.pow_nonneg; lia|].
  apply Z.pow_lt_mono_r; lia.
Qed.

Lemma cost_hypertree_exact cost_ots hm d :
  2 <= hm <= 31 -> 1 <= d <= 29 ->
  cost_hypertree_of cost_ots (node_tree_of hm) d < 2 ^ 23 ->
  cost_hypertree_of cost_ots (node_tree_of hm) d =
  d * (Machine.u32 (cost_ots + 1) * 2 ^ hm - 1).
Proof.
  intros Hhm Hd. rewrite node_tree_pow2 by exact Hhm.
  unfold cost_hypertree_of, Float32.mul, Float32.sub.
  pose proof (Machine_u32_range (cost_ots + 1)) as Hc.
  set (c1 := Machine.u32 (cost_ots + 1)) in *.
  assert (Hnt : 4 <= 2 ^ hm).
  { change 4 with (2 ^ 2). apply Z.pow_le_mono_r; lia. }
  set (nt := 2 ^ hm) in *.
  rewrite (of_Z_small d) by lia. rewrite (of_Z_small 1) by lia.
  intros Hlt.
  destruct (Z.eq_dec c1 0) as [H0|H0].
  - rewrite H0 in *. rewrite (of_Z_small 0) in * by lia.
    rewrite Z.mul_0_l in *. rewrite (of_Z_small 0) in * by lia.
    rewrite (of_Z_small (0 - 1)) in * by lia. rewrite of_Z_small by lia. lia.
  - assert (H1 : 1 <= Float32.of_Z c1) by (apply of_Z_ge; lia).
    assert (H2 : 4 <= Float32.of_Z nt) by (apply of_Z_ge; lia).
    destruct (Z.lt_ge_cases (Float32.of_Z c1 * Float32.of_Z nt) (2 ^ 24))
      as [Hsmall|Hbig].
    + assert (Hc1 : c1 < 2 ^ 24).
      { destruct (Z.lt_ge_cases c1 (2 ^ 24)) as [|Hge]; [assumption|].
        assert (2 ^ 24 <= Float32.of_Z c1) by (apply of_Z_ge; lia). nia. }
      assert (Hnt1 : nt < 2 ^ 24).
      { destruct (Z.lt_ge_cases nt (2 ^ 24)) as [|Hge]; [assumption|].
        assert (2 ^ 24 <= Float32.of_Z nt) by (apply of_Z_ge; lia). nia. }
      rewrite (of_Z_small c1) in * by lia. rewrite (of_Z_small nt) in * by lia.
      rewrite (of_Z_small (c1 * nt)) in * by nia.
      rewrite (of_Z_small (c1 * nt - 1)) in * by nia.
      destruct (Z.lt_ge_cases (d * (c1 * nt - 1)) (2 ^ 24)) as [Hs|Hb].
      * rewrite of_Z_small by nia. reflexivity.
      * assert (2 ^ 24 <= Float32.of_Z (d * (c1 * nt - 1)))
          by (apply of_Z_ge; lia).
        lia.
    + exfalso.
      assert (Hm : 2 ^ 24 <= Float32.of_Z (Float32.of_Z c1 * Float32.of_Z nt))
        by (apply of_Z_ge; lia).
      set (m1 := Float32.of_Z (Float32.of_Z c1 * Float32.of_Z nt)) in *.
      assert (Hs : 2 ^ 24 - 1 <= Float32.of_Z (m1 - 1)) by (apply of_Z_ge; lia).
      set (s1 := Float32.of_Z (m1 - 1)) in *.
      assert (Hr : 2 ^ 24 - 1 <= Float32.of_Z (d * s1)) by (apply of_Z_ge; nia).
      lia.
Qed.

Lemma cost_fors_tree_exact a : 1 <= a <= 29 -> cost_fors_tree_of a = 3 * 2 ^ a - 1.
Proof.
  intros Ha. unfold cost_fors_tree_of. rewrite Z.shiftl_1_l.
  apply Machine_u32_small.
  assert (2 ^ 1 <= 2 ^ a) by (apply Z.pow_le_mono_r; lia).
  assert (2 ^ a <= 2 ^ 29) by (apply Z.pow_le_mono_r; lia).
  lia.
Qed.

Lemma fors_cost_no_wrap a k :
  1 <= a <= 29 -> 1 <= k <= 99 ->
  Machine.u32 (k * cost_fors_tree_of a) < 2 ^ 24 ->
  Machine.u32 (k * cost_fors_tree_of a) = k * cost_fors_tree_of a.
Proof.
  intros Ha Hk.
  assert (Hall :
    forallb (fun a => forallb (fun k =>
       implb (Machine.u32 (k * cost_fors_tree_of a) <? 2 ^ 24)
             (k * cost_fors_tree_of a <? 2 ^ 32)) (Zrange 1 99)) (Zrange 1 29)
    = true) by (vm_compute; reflexivity).
  rewrite forallb_forall in Hall.
  specialize (Hall a ltac:(apply Zrange_In; lia)).
  rewrite forallb_forall in Hall.
  specialize (Hall k ltac:(apply Zrange_In; lia)).
  intros Hlt. apply Machine_u32_small.
  destruct (Z.ltb_spec (Machine.u32 (k * cost_fors_tree_of a)) (2 ^ 24)); [|lia].
  cbn in Hall. apply Z.ltb_lt in Hall.
  rewrite cost_fors_tree_exact in * by exact Ha.
  assert (2 ^ 1 <= 2 ^ a) by (apply Z.pow_le_mono_r; lia). nia.
Qed.

Lemma recorded_costs_exact chk sec_level num_sig sign_op dr hr ar fuel
    log_w wd h_merkle d a k :
  0 <= sign_op < 2 ^ 23 ->
  enumerated chk sec_level num_sig sign_op dr hr ar fuel log_w wd h_merkle d a k ->
  let cost_ots := cost_of_ots wd (Z.shiftl 1 log_w) in
  let cost_hypertree := cost_hypertree_of cost_ots (node_tree_of h_merkle) d in
  let cost_fors_tree := cost_fors_tree_of a in
  cost_hypertree = d * (Machine.u32 (cost_ots + 1) * 2 ^ h_merkle - 1) /\
  cost_fors_tree = 3 * 2 ^ a - 1 /\
  sig_time (recorded sec_level log_w wd h_merkle d a k) =
    3 + cost_hypertree + k * cost_fors_tree /\
  cost_hypertree + k * cost_fors_tree <= sign_op.
Proof.
  intros Hop (_ & (Hhm & _) & (Hd & _ & _ & _ & Hch) & (Ha & _) & (Hk & Hcomb & _)).
  intros cost_ots cost_hypertree cost_fors_tree.
  fold cost_ots in Hch, Hcomb. fold cost_hypertree in Hch, Hcomb.
  fold cost_fors_tree in Hcomb.
  rewrite of_Z_small in Hch, Hcomb by lia.
  assert (Hch' : cost_hypertree < sign_op).
  { destruct (Z.geb_spec cost_hypertree sign_op); [discriminate|assumption]. }
  assert (Hexact : cost_hypertree =
                   d * (Machine.u32 (cost_ots + 1) * 2 ^ h_merkle - 1)).
  { apply cost_hypertree_exact; [exact Hhm|exact Hd|]. fold cost_hypertree. lia. }
  pose proof (Machine_u32_range (cost_ots + 1)) as Hc1.
  assert (Hpow : 0 < 2 ^ h_merkle) by (apply Z.pow_pos_nonneg; lia).
  assert (Hlow : - 29 <= cost_hypertree) by nia.
  unfold combined_cost, Float32.add in Hcomb.
  pose proof (Machine_u32_range (k * cost_fors_tree)) as Hkc.
  set (kc := Machine.u32 (k * cost_fors_tree)) in *.
  assert (Hle : (Float32.of_Z (cost_hypertree + Float32.of_Z kc)) <= sign_op).
  { destruct (Z.gtb_spec (Float32.of_Z (cost_hypertree + Float32.of_Z kc)) sign_op);
      [discriminate|assumption]. }
  assert (Hkc_small : kc < 2 ^ 24).
  { destruct (Z.lt_ge_cases kc (2 ^ 24)) as [|Hge]; [assumption|exfalso].
    assert (2 ^ 24 <= Float32.of_Z kc) by (apply of_Z_ge; lia).
    assert (2 ^ 24 - 29 <= Float32.of_Z (cost_hypertree + Float32.of_Z kc))
      by (apply of_Z_ge; lia).
    lia. }
  rewrite (of_Z_small kc) in Hle by lia.
  assert (Hsum : cost_hypertree + kc < 2 ^ 24).
  { destruct (Z.lt_ge_cases (cost_hypertree + kc) (2 ^ 24)) as [|Hge];
      [assumption|exfalso].
    assert (2 ^ 24 <= Float32.of_Z (cost_hypertree + kc)) by (apply of_Z_ge; lia).
    lia. }
  rewrite of_Z_small in Hle by lia.
  assert (Hnowrap : kc = k * cost_fors_tree).
  { apply fors_cost_no_wrap; [exact Ha|exact Hk|exact Hkc_small]. }
  split; [exact Hexact|]. split; [apply cost_fors_tree_exact; exact Ha|].
  split; [|lia].
  unfold recorded, new_parameter_set. cbn [sig_time].
  fold cost_ots. fold cost_hypertree. fold cost_fors_tree. fold kc.
  unfold Float32.add. rewrite (of_Z_small 3) by lia.
  rewrite (of_Z_small kc) by lia.
  rewrite (of_Z_small (3 + cost_hypertree)) by lia.
  rewrite of_Z_small by lia. lia.
Qed.

(** ** Termination of the enumeration *)

Lemma checksum_loop_more fuel w max_sum checksum_d prod r n :
  checksum_loop fuel w max_sum checksum_d prod = Some r ->
  checksum_loop (fuel + n) w max_sum checksum_d prod = Some r.
Proof.
  revert checksum_d prod. induction fuel as [|fuel IH]; intros c p Hrun;
    cbn [checksum_loop Nat.add] in *; [discriminate|].
  destruct (p <? max_sum); [apply IH|]; exact Hrun.
Qed.

(** Once [prod] has wrapped around to 0 below a positive [max_sum] it
    stays there: the C loop does not end, and the model gives [None]
    whatever the fuel. *)
Lemma checksum_loop_stuck fuel w max_sum checksum_d :
  0 < max_sum -> checksum_loop fuel w max_sum checksum_d 0 = None.
Proof.
  intros Hmax. revert checksum_d. induction fuel as [|fuel IH]; intros c;
    cbn [checksum_loop]; [reflexivity|].
  destruct (Z.ltb_spec 0 max_sum); [|lia]. apply IH.
Qed.

(** One more iteration of the checksum loop on a constant [prod]: either
    the loop ends here, or [prod] is multiplied. *)
Ltac checksum_iteration max_sum unfold_loop :=
  rewrite unfold_loop;
  match goal with
  | |- context [?p <? max_sum] =>
      destruct (Z.ltb_spec p max_sum); [|eexists; reflexivity]
  end;
  match goal with
  | |- context [Machine.u32 ?e] =>
      let v := eval vm_compute in (Machine.u32 e) in
      change (Machine.u32 e) with v
  end.

Lemma checksum_loop_ends log_w max_sum :
  2 <= log_w <= 8 -> max_sum <= 2 ^ 24 ->
  exists checksum_d,
    checksum_loop 13 (Z.shiftl 1 log_w) max_sum 1 (Z.shiftl 1 log_w)
    = Some checksum_d.
Proof.
  intros Hlw Hmax.
  assert (Hcases : log_w = 2 \/ log_w = 3 \/ log_w = 4 \/ log_w = 5 \/
                   log_w = 6 \/ log_w = 7 \/ log_w = 8) by lia.
  assert (Hstep : forall fuel w c p,
            checksum_loop (S fuel) w max_sum c p =
            if p <? max_sum
            then checksum_loop fuel w max_sum (c + 1) (Machine.u32 (p * w))
            else Some c) by reflexivity.
  destruct Hcases as [->|[->|[->|[->|[->|[->| ->]]]]]];
    match goal with
    | |- context [Z.shiftl 1 ?n] =>
        let v := eval vm_compute in (Z.shiftl 1 n) in
        change (Z.shiftl 1 n) with v
    end;
    repeat checksum_iteration max_sum Hstep; lia.
Qed.

Lemma hash_digits_bound sec_level log_w :
  0 < sec_level <= 65536 -> 2 <= log_w <= 8 ->
  0 <= (Z.shiftl 1 log_w - 1) * hash_digits sec_level log_w < 2 ^ 24.
Proof.
  intros Hs Hlw. unfold hash_digits.
  rewrite Machine_u32_small by lia.
  assert (Hd : 0 <= (sec_level + log_w - 1) / log_w <= 65543).
  { split; [apply Z.div_pos; lia|].
    transitivity (sec_level + log_w - 1); [|lia].
    apply Z.div_le_upper_bound; nia. }
  rewrite Z.shiftl_1_l.
  assert (2 ^ 1 <= 2 ^ log_w <= 2 ^ 8)
    by (split; apply Z.pow_le_mono_r; lia).
  nia.
Qed.

Lemma winternitz_digits_total fuel sec_level log_w :
  0 < sec_level <= 65536 -> 2 <= log_w <= 8 -> (13 <= fuel)%nat ->
  exists wd, winternitz_digits fuel sec_level (Z.shiftl 1 log_w) log_w = Some wd.
Proof.
  intros Hs Hlw Hfuel. unfold winternitz_digits.
  pose proof (hash_digits_bound sec_level log_w Hs Hlw) as Hb.
  destruct (checksum_loop_ends log_w
              (Machine.u32 ((Z.shiftl 1 log_w - 1) * hash_digits sec_level log_w))
              Hlw) as (c & Hc).
  { rewrite Machine_u32_small by lia. lia. }
  replace fuel with (13 + (fuel - 13))%nat by lia.
  rewrite (checksum_loop_more _ _ _ _ _ _ _ Hc). eexists. reflexivity.
Qed.

Lemma w_loop_total chk sec_level num_sig sign_op dr hr ar fuel log_ws :
  0 < sec_level <= 65536 -> (13 <= fuel)%nat ->
  Forall (fun log_w => 2 <= log_w <= 8) log_ws ->
  forall qs, exists qs',
    w_loop chk sec_level num_sig sign_op dr hr ar fuel log_ws qs = Some qs'.
Proof.
  intros Hs Hfuel. induction log_ws as [|log_w log_ws IH]; intros Hlws qs;
    cbn [w_loop].
  - eexists. reflexivity.
  - apply Forall_cons_iff in Hlws. destruct Hlws as [Hlw Hlws].
    destruct (winternitz_digits_total fuel sec_level log_w Hs Hlw Hfuel)
      as (wd & ->).
    apply IH. exact Hlws.
Qed.

(** For security levels up to 65536 the enumeration ends: every
    checksum-digit loop does. *)
Lemma enumerate_total chk sec_level num_sig sign_op dr hr ar fuel :
  0 < sec_level <= 65536 -> (13 <= fuel)%nat ->
  exists qs, enumerate chk sec_level num_sig sign_op dr hr ar fuel = Some qs.
Proof.
  intros Hs Hfuel. apply w_loop_total; [exact Hs|exact Hfuel|].
  apply Forall_forall. intros x Hx. apply Zrange_In in Hx. lia.
Qed.

(** ** The pruning test *)

Lemma too_shallow_wraps num_sig h :
  1 <= num_sig <= 4 -> 0 <= h < 2 ^ 32 - 4 -> too_shallow num_sig h = true.
Proof.
  intros Hn Hh. unfold too_shallow, Machine.u32.
  rewrite (Z.mod_small h) by lia.
  replace (num_sig - 5) with (2 ^ 32 + (num_sig - 5) + (-1) * 2 ^ 32) by lia.
  rewrite Z.mod_add by lia. rewrite Z.mod_small by lia.
  apply Z.ltb_lt. lia.
Qed.

Lemma too_shallow_plain num_sig h :
  5 <= num_sig < 2 ^ 32 -> 0 <= h < 2 ^ 32 ->
  too_shallow num_sig h = (h <? num_sig - 5).
Proof.
  intros Hn Hh. unfold too_shallow.
  rewrite !Machine_u32_small by lia. reflexivity.
Qed.

Lemma select_nothing ov test_sec_level max_s :
  select ov test_sec_level max_s (sort_queues no_queues) = [].
Proof. reflexivity. Qed.

(** C10.  When [num_sig] is between 1 and 4, [num_sig - 5] wraps around
    in unsigned arithmetic to a value above every hypertree height the
    loops can reach, so the test [h < num_sig - 5] sends every candidate
    to [continue]: the enumeration records no parameter set and the
    frontier is empty (and for security levels up to 65536 the search does
    end with that result).  From [num_sig = 5] on nothing wraps and the
    test is the plain comparison of [h] with [num_sig - 5]. *)
Theorem small_num_sig_prunes_everything
    chk ov fuel sec_level num_sig test_sec_level sign_op max_s dr hr ar :
  1 <= num_sig <= 4 ->
    (Machine.u32 (num_sig - 5) = 2 ^ 32 + (num_sig - 5) /\
     (forall h_merkle d, 2 <= h_merkle <= 31 -> 1 <= d <= 29 ->
        too_shallow num_sig (h_merkle * d) = true) /\
     (forall qs, enumerate chk sec_level num_sig sign_op dr hr ar fuel = Some qs ->
        qs = no_queues) /\
     (forall frontier,
        do_search chk ov fuel sec_level num_sig test_sec_level sign_op max_s
          dr hr ar = Some frontier ->
        frontier = []) /\
     (0 < sec_level <= 65536 -> (13 <= fuel)%nat ->
        do_search chk ov fuel sec_level num_sig test_sec_level sign_op max_s
          dr hr ar = Some [])) /\
  (forall n h, 5 <= n < 2 ^ 32 -> 0 <= h < 2 ^ 32 ->
     Machine.u32 (n - 5) = n - 5 /\
     too_shallow n h = (h <? n - 5)).
Proof.
  intros Hn. split.
  - assert (Hshallow : forall h_merkle d, 2 <= h_merkle <= 31 -> 1 <= d <= 29 ->
              too_shallow num_sig (h_merkle * d) = true).
    { intros h_merkle d Hh Hd. apply too_shallow_wraps; [exact Hn|]. nia. }
    assert (Hempty : forall qs,
              enumerate chk sec_level num_sig sign_op dr hr ar fuel = Some qs ->
              qs = no_queues).
    { intros qs Hrun.
      apply (enumerate_keeps chk sec_level num_sig sign_op dr hr ar fuel
               (fun qs => qs = no_queues)); [|reflexivity|exact Hrun].
      intros qs0 log_w wd h_merkle d a k _ Hadm. exfalso.
      destruct Hadm as (_ & (Hh & _) & (Hd & _ & _ & Hprune & _) & _).
      rewrite Hshallow in Hprune by assumption. discriminate. }
    assert (Hfrontier : forall frontier,
              do_search chk ov fuel sec_level num_sig test_sec_level sign_op
                max_s dr hr ar = Some frontier ->
              frontier = []).
    { intros frontier. unfold do_search.
      destruct (enumerate chk sec_level num_sig sign_op dr hr ar fuel)
        as [qs|] eqn:Hrun; [|discriminate].
      rewrite (Hempty qs eq_refl). rewrite select_nothing. congruence. }
    split; [|split; [exact Hshallow|split; [exact Hempty|split; [exact Hfrontier|]]]].
    + unfold Machine.u32.
      replace (num_sig - 5) with (2 ^ 32 + (num_sig - 5) + (-1) * 2 ^ 32) at 1 by lia.
      rewrite Z.mod_add by lia. apply Z.mod_small. lia.
    + intros Hs Hfuel.
      destruct (enumerate_total chk sec_level num_sig sign_op dr hr ar fuel Hs Hfuel)
        as (qs & Hrun).
      unfold do_search. rewrite Hrun. rewrite (Hempty qs Hrun).
      rewrite select_nothing. reflexivity.
  - intros n h Hn' Hh. split; [apply Machine_u32_small; lia|].
    apply too_shallow_plain; assumption.
Qed.

(** An instance: the search of the example with [n=3]. *)
Lemma small_num_sig_prunes_everything_witness :
  do_search (fun _ _ _ _ _ => true) (fun _ _ _ _ => 100) 32
    128 3 112 100000 30 0 0 0 = Some [] /\
  too_shallow 20 10 = (10 <? 20 - 5).
Proof.
  destruct (small_num_sig_prunes_everything (fun _ _ _ _ _ => true)
              (fun _ _ _ _ => 100) 32 128 3 112 100000 30 0 0 0)
    as ((_ & _ & _ & _ & Hsearch) & Hplain); [lia|].
  split.
  - apply Hsearch; [lia|apply Nat.leb_le; reflexivity].
  - apply (Hplain 20 10); lia.
Defined.

(** ** What the enumeration records *)

Lemma checksum_loop_bounds fuel w max_sum checksum_d prod r :
  checksum_loop fuel w max_sum checksum_d prod = Some r ->
  checksum_d <= r < checksum_d + Z.of_nat fuel.
Proof.
  revert checksum_d prod. induction fuel as [|fuel IH]; intros c p Hrun;
    cbn [checksum_loop] in Hrun; [discriminate|].
  destruct (p <? max_sum).
  - apply IH in Hrun. lia.
  - inversion Hrun; subst. lia.
Qed.

Lemma winternitz_digits_bound fuel sec_level log_w wd :
  0 < sec_level <= 32768 -> 2 <= log_w <= 8 ->
  winternitz_digits fuel sec_level (Z.shiftl 1 log_w) log_w = Some wd ->
  0 <= wd <= 16400.
Proof.
  intros Hs Hlw. unfold winternitz_digits.
  set (max_sum := Machine.u32 _).
  destruct (checksum_loop fuel _ max_sum 1 _) as [c|] eqn:Hc; [|discriminate].
  intros Hwd. inversion Hwd; subst wd; clear Hwd.
  assert (Hcb : 1 <= c <= 14).
  { destruct (Nat.le_gt_cases fuel 13) as [Hf|Hf].
    - apply checksum_loop_bounds in Hc. lia.
    - destruct (checksum_loop_ends log_w max_sum Hlw) as (c' & Hc').
      + pose proof (hash_digits_bound sec_level log_w ltac:(lia) Hlw).
        unfold max_sum. rewrite Machine_u32_small by lia. lia.
      + pose proof (checksum_loop_more _ _ _ _ _ _ (fuel - 13) Hc') as Hmore.
        replace (13 + (fuel - 13))%nat with fuel in Hmore by lia.
        rewrite Hmore in Hc. assert (Heq : c' = c) by congruence.
        apply checksum_loop_bounds in Hc'. lia. }
  assert (Hd : 0 <= hash_digits sec_level log_w <= 16385).
  { unfold hash_digits. rewrite Machine_u32_small by lia. split.
    - apply Z.div_pos; lia.
    - apply Z.div_le_upper_bound; lia. }
  rewrite Machine_u32_small by lia. lia.
Qed.





(** ** The budget test and the recorded signing cost *)

Section BudgetFacts.

Variable chk : Z -> Z -> Z -> Z -> Z -> bool.
Variables (sec_level num_sig sign_op dr hr ar : Z).

(** Pushing on another list leaves [w16_q] alone. *)
Lemma w16_q_push_other cls p qs :
  cls <> 0%nat -> w16_q (push cls p qs) = w16_q qs.
Proof. destruct cls as [|[|n]]; [congruence| |]; reflexivity. Qed.

Lemma w16_q_push_cong cls p qs qs' :
  w16_q qs = w16_q qs' -> w16_q (push cls p qs) = w16_q (push cls p qs').
Proof. intros H. destruct cls as [|[|n]]; cbn; congruence. Qed.

(** The loops treat [w16_q] independently of the two other lists. *)
Lemma k_loop_w16_cong w wd h_merkle h d a ch cft ks qs qs' :
  w16_q qs = w16_q qs' ->
  w16_q (k_loop chk sec_level num_sig sign_op w wd h_merkle h d a ch cft ks qs) =
  w16_q (k_loop chk sec_level num_sig sign_op w wd h_merkle h d a ch cft ks qs').
Proof.
  revert qs qs'. induction ks as [|k ks IH]; intros qs qs' Hq; cbn [k_loop].
  - exact Hq.
  - destruct (_ >? _); [exact Hq|].
    destruct (negb _); apply IH; [exact Hq|].
    apply w16_q_push_cong. exact Hq.
Qed.

Lemma a_loop_w16_cong w wd h_merkle h d ch avals qs qs' :
  w16_q qs = w16_q qs' ->
  w16_q (a_loop chk sec_level num_sig sign_op ar w wd h_merkle h d ch avals qs) =
  w16_q (a_loop chk sec_level num_sig sign_op ar w wd h_merkle h d ch avals qs').
Proof.
  revert qs qs'. induction avals as [|a avals IH]; intros qs qs' Hq;
    cbn [a_loop].
  - exact Hq.
  - destruct (_ && _); apply IH; [exact Hq|].
    apply k_loop_w16_cong. exact Hq.
Qed.

Lemma d_loop_w16_cong w wd cost_ots h_merkle ds h qs qs' :
  w16_q qs = w16_q qs' ->
  w16_q (d_loop chk sec_level num_sig sign_op dr ar w wd cost_ots h_merkle h ds qs) =
  w16_q (d_loop chk sec_level num_sig sign_op dr ar w wd cost_ots h_merkle h ds qs').
Proof.
  revert h qs qs'. induction ds as [|d ds IH]; intros h qs qs' Hq; cbn [d_loop].
  - exact Hq.
  - destruct (negb _); [exact Hq|]. destruct (_ >=? _); [exact Hq|].
    destruct (_ && _); [apply IH; exact Hq|].
    destruct (too_shallow _ _); [apply IH; exact Hq|].
    cbv zeta. destruct (_ >=? _); [exact Hq|].
    apply IH. apply a_loop_w16_cong. exact Hq.
Qed.

Lemma h_merkle_loop_w16_cong w wd cost_ots hs qs qs' :
  w16_q qs = w16_q qs' ->
  w16_q (h_merkle_loop chk sec_level num_sig sign_op dr hr ar w wd cost_ots hs qs) =
  w16_q (h_merkle_loop chk sec_level num_sig sign_op dr hr ar w wd cost_ots hs qs').
Proof.
  revert qs qs'. induction hs as [|h_merkle hs IH]; intros qs qs' Hq;
    cbn [h_merkle_loop].
  - exact Hq.
  - destruct (negb _); [exact Hq|].
    destruct (_ && _); apply IH; [exact Hq|].
    apply d_loop_w16_cong. exact Hq.
Qed.

(** For a Winternitz parameter of another class the loops leave [w16_q]
    as it is. *)
Lemma k_loop_w16_other w wd h_merkle h d a ch cft ks qs :
  class_of_w w <> 0%nat ->
  w16_q (k_loop chk sec_level num_sig sign_op w wd h_merkle h d a ch cft ks qs) =
  w16_q qs.
Proof.
  intros Hw. revert qs. induction ks as [|k ks IH]; intros qs; cbn [k_loop].
  - reflexivity.
  - destruct (_ >? _); [reflexivity|].
    destruct (negb _); rewrite IH; [reflexivity|].
    apply w16_q_push_other. exact Hw.
Qed.

Lemma a_loop_w16_other w wd h_merkle h d ch avals qs :
  class_of_w w <> 0%nat ->
  w16_q (a_loop chk sec_level num_sig sign_op ar w wd h_merkle h d ch avals qs) =
  w16_q qs.
Proof.
  intros Hw. revert qs. induction avals as [|a avals IH]; intros qs;
    cbn [a_loop].
  - reflexivity.
  - destruct (_ && _); rewrite IH; [reflexivity|].
    apply k_loop_w16_other. exact Hw.
Qed.

Lemma d_loop_w16_other w wd cost_ots h_merkle ds h qs :
  class_of_w w <> 0%nat ->
  w16_q (d_loop chk sec_level num_sig sign_op dr ar w wd cost_ots h_merkle h ds qs) =
  w16_q qs.
Proof.
  intros Hw. revert h qs. induction ds as [|d ds IH]; intros h qs; cbn [d_loop].
  - reflexivity.
  - destruct (negb _); [reflexivity|]. destruct (_ >=? _); [reflexivity|].
    destruct (_ && _); [apply IH|].
    destruct (too_shallow _ _); [apply IH|].
    cbv zeta. destruct (_ >=? _); [reflexivity|].
    rewrite IH. apply a_loop_w16_other. exact Hw.
Qed.

Lemma h_merkle_loop_w16_other w wd cost_ots hs qs :
  class_of_w w <> 0%nat ->
  w16_q (h_merkle_loop chk sec_level num_sig sign_op dr hr ar w wd cost_ots hs qs) =
  w16_q qs.
Proof.
  intros Hw. revert qs. induction hs as [|h_merkle hs IH]; intros qs;
    cbn [h_merkle_loop].
  - reflexivity.
  - destruct (negb _); [reflexivity|].
    destruct (_ && _); rewrite IH; [reflexivity|].
    apply d_loop_w16_other. exact Hw.
Qed.

End BudgetFacts.

(** At security level 128 the seven Winternitz parameters have 68, 46,
    35, 28, 24, 21 and 18 digits, and the enumeration is the merkle-height
    loop run for each of them in turn. *)
Lemma enumerate_128_unfold chk num_sig sign_op dr hr ar :
  enumerate chk 128 num_sig sign_op dr hr ar 32 =
  Some
    (fold_left
       (fun qs '(w, wd) =>
          h_merkle_loop chk 128 num_sig sign_op dr hr ar w wd (cost_of_ots wd w)
            (Zrange 2 30) qs)
       [(4, 68); (8, 46); (16, 35); (32, 28); (64, 24); (128, 21); (256, 18)]
       no_queues).
Proof.
  unfold enumerate.
  change (Zrange 2 7) with [2; 3; 4; 5; 6; 7; 8].
  cbn [w_loop fold_left].
  change (winternitz_digits 32 128 (Z.shiftl 1 2) 2) with (Some 68).
  change (winternitz_digits 32 128 (Z.shiftl 1 3) 3) with (Some 46).
  change (winternitz_digits 32 128 (Z.shiftl 1 4) 4) with (Some 35).
  change (winternitz_digits 32 128 (Z.shiftl 1 5) 5) with (Some 28).
  change (winternitz_digits 32 128 (Z.shiftl 1 6) 6) with (Some 24).
  change (winternitz_digits 32 128 (Z.shiftl 1 7) 7) with (Some 21).
  change (winternitz_digits 32 128 (Z.shiftl 1 8) 8) with (Some 18).
  reflexivity.
Qed.

(** The search [s=128 n=20 sign=2112497 d=7 h=9 a=12]: of the tuples with
    [w=16] the budget test lets [k = 1 .. 8] through, and when the
    security check fails for [k <= 7] and passes for [k = 8] the list
    [w16_q] ends up with the one record for [k = 8]. *)
(** The contents of an equation between two [Some], without the
    computation that [injection] would start on large terms. *)
Lemma some_eq {A : Type} (x y : A) : Some x = Some y -> x = y.
Proof. intros H. inversion H. reflexivity. Qed.

Lemma over_budget_w16_q chk qs :
  (forall k, 1 <= k <= 7 -> chk 20 63 12 k 128 = false) ->
  chk 20 63 12 8 128 = true ->
  enumerate chk 128 20 2112497 7 9 12 32 = Some qs ->
  w16_q qs = [recorded 128 4 35 9 7 12 8].
Proof.
  intros Hfail Hpass Hrun.
  rewrite enumerate_128_unfold in Hrun.
  cbn [fold_left] in Hrun.
  apply some_eq in Hrun. subst qs.
  rewrite (h_merkle_loop_w16_other chk 128 20 2112497 7 9 12 256) by (vm_compute; discriminate).
  rewrite (h_merkle_loop_w16_other chk 128 20 2112497 7 9 12 128) by (vm_compute; discriminate).
  rewrite (h_merkle_loop_w16_other chk 128 20 2112497 7 9 12 64) by (vm_compute; discriminate).
  rewrite (h_merkle_loop_w16_other chk 128 20 2112497 7 9 12 32) by (vm_compute; discriminate).
  rewrite (h_merkle_loop_w16_cong chk 128 20 2112497 7 9 12 16 _ _ _ _ no_queues).
  2: { rewrite !h_merkle_loop_w16_other by (vm_compute; discriminate).
       reflexivity. }
  vm_compute.
  rewrite (Hfail 1), (Hfail 2), (Hfail 3), (Hfail 4), (Hfail 5), (Hfail 6),
    (Hfail 7), Hpass by lia.
  reflexivity.
Qed.

Section BudgetSelection.

Variable compute_sigs_at_sec_level : Z -> Z -> Z -> Z -> Z.
Variables (test_sec_level max_s : Z).

Local Abbreviation step :=
  (select_step compute_sigs_at_sec_level test_sec_level max_s).
Local Abbreviation loop :=
  (select_loop compute_sigs_at_sec_level test_sec_level max_s).
Local Abbreviation overuse :=
  (overuse_of compute_sigs_at_sec_level test_sec_level).

(** What is on the print list stays there. *)
Lemma print_list_kept p n st :
  In p (print_list st) -> In p (print_list (loop n st)).
Proof.
  apply (select_loop_invariant compute_sigs_at_sec_level test_sec_level max_s
           (fun st => In p (print_list st))).
  intros st0 winner q Hin _ _.
  destruct (select_step_cases compute_sigs_at_sec_level test_sec_level max_s
              winner q st0) as (_ & [(Hp & _)|(Hp & _)]); rewrite Hp.
  - exact Hin.
  - apply in_app_iff. left. exact Hin.
Qed.

Lemma next_best_some qs :
  some_left qs = true -> exists winner p, next_best qs = (winner, Some p).
Proof.
  destruct qs as [q0 q1 q2]. unfold some_left, next_best.
  cbn [w16_q w256_q wother_q].
  destruct q0 as [|x0 q0], q1 as [|x1 q1], q2 as [|x2 q2]; cbn;
    try discriminate; intros _;
    repeat match goal with
           | |- context [?u <? ?v] => destruct (u <? v); cbn
           end; eauto.
Qed.

Lemma update_from_nth_0 {A : Type} winner (f : A -> A) arr dflt :
  nth 0 (update_from (S winner) f arr) dflt = nth 0 arr dflt.
Proof. destruct arr; reflexivity. Qed.

Lemma remaining_pop winner qs p :
  hd_error (queue_of winner qs) = Some p ->
  S (remaining (pop winner qs)) = remaining qs.
Proof.
  destruct qs as [q0 q1 q2]. unfold remaining.
  destruct winner as [|[|n]]; cbn;
    [destruct q0|destruct q1|destruct q2]; cbn; intros H;
    try discriminate; lia.
Qed.

(** As long as no set of [w16_q] has been printed, the thresholds of that
    class stay as they are; a lone set on [w16_q] with an overuse value
    above the threshold is therefore printed, whatever the other lists
    hold. *)
Lemma lone_w16_printed p n st :
  w16_q (sel_queues st) = [p] ->
  nth 0 (cutoff st) false = false ->
  nth 0 (min_sec_level st) 0 < overuse p ->
  (remaining (sel_queues st) <= n)%nat ->
  In p (print_list (loop n st)).
Proof.
  revert st. induction n as [|n IH]; intros st Hq Hcut Hmsl Hn.
  - unfold remaining in Hn. rewrite Hq in Hn. cbn in Hn. lia.
  - cbn [select_loop].
    assert (Hleft : some_left (sel_queues st) = true).
    { unfold some_left. rewrite Hq. reflexivity. }
    rewrite Hleft.
    destruct (next_best_some _ Hleft) as (winner & q & Hbest). rewrite Hbest.
    destruct (next_best_head _ _ _ Hbest) as (_ & Hhd & _ & _).
    pose proof (remaining_pop _ _ _ Hhd) as Hrem.
    destruct winner as [|winner].
    + cbn in Hhd. rewrite Hq in Hhd. inversion Hhd; subst q.
      unfold select_step. rewrite Hcut.
      destruct (Z.leb_spec (overuse p) (nth 0 (min_sec_level st) 0)); [lia|].
      match goal with
      | |- context [if ?b then _ else _] => destruct b
      end; [apply print_list_kept|]; cbn [print_list];
        apply in_app_iff; right; left; reflexivity.
    + assert (Hq' : w16_q (pop (S winner) (sel_queues st)) = [p]).
      { destruct winner; exact Hq. }
      unfold select_step.
      destruct (nth (S winner) (cutoff st) false).
      { apply IH; cbn [sel_queues min_sec_level cutoff]; try assumption. lia. }
      destruct (overuse q <=? nth (S winner) (min_sec_level st) 0).
      { apply IH; cbn [sel_queues min_sec_level cutoff]; try assumption. lia. }
      rewrite update_from_nth_0, Hcut. cbn [negb].
      apply IH; cbn [sel_queues min_sec_level cutoff];
        rewrite ?update_from_nth_0; try assumption. lia.
Qed.

(** The number of sets on the lists is all the fuel the loop can use:
    with more, the result is the same. *)
Lemma select_loop_enough n st :
  (remaining (sel_queues st) <= n)%nat ->
  loop n st = loop (remaining (sel_queues st)) st.
Proof.
  revert st. induction n as [|n IH]; intros st Hn.
  - replace (remaining (sel_queues st)) with 0%nat by lia. reflexivity.
  - destruct (some_left (sel_queues st)) eqn:Hleft.
    + destruct (next_best_some _ Hleft) as (winner & q & Hbest).
      destruct (next_best_head _ _ _ Hbest) as (_ & Hhd & _ & _).
      pose proof (remaining_pop _ _ _ Hhd) as Hrem.
      rewrite <- Hrem. cbn [select_loop]. rewrite Hleft, Hbest.
      destruct (select_step_cases compute_sigs_at_sec_level test_sec_level
                  max_s winner q st) as (Hq & _).
      destruct (step winner q st) as [st' go_on]. cbn [fst] in Hq.
      destruct go_on; [|reflexivity].
      rewrite <- Hq. apply IH. rewrite Hq. lia.
    + assert (Hzero : remaining (sel_queues st) = 0%nat).
      { unfold some_left, remaining in *.
        destruct (w16_q (sel_queues st)), (w256_q (sel_queues st)),
          (wother_q (sel_queues st)); try discriminate; reflexivity. }
      rewrite Hzero. cbn [select_loop]. rewrite Hleft. reflexivity.
Qed.

End BudgetSelection.

(** C4.  The search [s=128 n=20 sign=2112497 tests=112 d=7 h=9 a=12]
    prints a parameter set whose signing cost is above the budget: when
    [check_sec_level] rejects [(h=63, a=12, k)] for [k <= 7] and accepts it
    for [k=8], and [compute_sigs_at_sec_level] gives that set a positive
    overuse value, the frontier contains the set [w=16, k=8], whose
    hypertree and FORS trees cost exactly the budget, 2112497 hashes, and
    whose recorded signing cost is 2112500. *)
Theorem frontier_entry_over_budget
    (chk : Z -> Z -> Z -> Z -> Z -> bool) (ov : Z -> Z -> Z -> Z -> Z) :
  (forall k, 1 <= k <= 7 -> chk 20 63 12 k 128 = false) ->
  chk 20 63 12 8 128 = true ->
  0 < ov 112 63 12 8 ->
  exists frontier p,
    do_search chk ov 32 128 20 112 2112497 0 7 9 12 = Some frontier /\
    In p frontier /\
    (h p, d p, a p, k p, w p) = (63, 7, 12, 8, 16) /\
    combined_cost (cost_hypertree_of (cost_of_ots 35 16) (node_tree_of 9) 7)
      8 (cost_fors_tree_of 12) = 2112497 /\
    sig_time p = 2112500 /\
    2112497 < sig_time p.
Proof.
  intros Hfail Hpass Hov.
  destruct (enumerate_total chk 128 20 2112497 7 9 12 32) as (qs & Hrun);
    [lia|apply Nat.leb_le; reflexivity|].
  pose proof (over_budget_w16_q chk qs Hfail Hpass Hrun) as Hq.
  exists (select ov 112 0 (sort_queues qs)), (recorded 128 4 35 9 7 12 8).
  split; [unfold do_search; rewrite Hrun; reflexivity|].
  split; [|repeat split; reflexivity].
  unfold select. apply lone_w16_printed.
  - cbn [sel_queues sort_queues w16_q]. rewrite Hq. reflexivity.
  - reflexivity.
  - exact Hov.
  - cbn [sel_queues]. lia.
Qed.

(** An instance: a security check that accepts from [k=8] on and an
    overuse value of 100 for every set. *)
Lemma frontier_entry_over_budget_witness :
  exists frontier p,
    do_search (fun _ _ _ k _ => 8 <=? k) (fun _ _ _ _ => 100)
      32 128 20 112 2112497 0 7 9 12 = Some frontier /\
    In p frontier /\ 2112497 < sig_time p.
Proof.
  destruct (frontier_entry_over_budget
              (fun _ _ _ k _ => 8 <=? k) (fun _ _ _ _ => 100))
    as (frontier & p & Hrun & Hin & _ & _ & _ & Hlt).
  - intros k Hk. apply Z.leb_gt. lia.
  - reflexivity.
  - lia.
  - exists frontier, p. auto.
Defined.

(** ** The order of the frontier *)

(** C6.  The frontier that [do_search] prints is in
    smallest-signature-first order: of any two of its entries the later
    one never has the smaller signature (and this holds of the selection
    on any three lists once they are sorted).  And whenever the loop takes
    the head of a later-checked list while an easier list still has a
    head, the signature of the set taken is strictly smaller than that of
    the easier head. *)
Theorem frontier_smallest_first
    (ov : Z -> Z -> Z -> Z -> Z) (test_sec_level max_s : Z) :
  (forall chk fuel sec_level num_sig sign_op dr hr ar frontier,
      do_search chk ov fuel sec_level num_sig test_sec_level sign_op max_s
        dr hr ar = Some frontier ->
      StronglySorted le_size frontier) /\
  (forall qs,
      StronglySorted le_size (select ov test_sec_level max_s (sort_queues qs))) /\
  (forall (qs : queues) (winner : nat) (p : parameter_set),
      next_best qs = (winner, Some p) ->
      hd_error (queue_of winner qs) = Some p /\
      forall c x, (c < winner)%nat -> hd_error (queue_of c qs) = Some x ->
                  sig_size p < sig_size x).
Proof.
  split; [|split].
  - intros chk fuel sec_level num_sig sign_op dr hr ar frontier.
    unfold do_search.
    destruct (enumerate chk sec_level num_sig sign_op dr hr ar fuel)
      as [qs|]; [|discriminate].
    intros Hfr. apply some_eq in Hfr. subst frontier.
    apply select_smallest_first.
  - apply select_smallest_first.
  - intros qs winner p Hbest. apply next_best_head in Hbest.
    destruct Hbest as (_ & Hhd & Hlt & _). split; assumption.
Qed.

(** An instance: a search restricted to [d=7], [h'=9], [a=12] with
    room for sets with [w=4] and [w=8], and lists whose best head is on
    the second one. *)
Lemma frontier_smallest_first_witness :
  let chk := fun _ _ _ _ _ : Z => true in
  let ov := fun _ _ _ k : Z => 100 * k in
  let p1 := mk_parameter_set 5 1 1 1 16 100 10 10 in
  let p2 := mk_parameter_set 4 1 1 1 4 90 10 10 in
  (exists frontier,
     do_search chk ov 32 128 20 112 1310000 0 7 9 12 = Some frontier /\
     (2 <= length frontier)%nat /\
     StronglySorted le_size frontier) /\
  next_best (mk_queues [p1] [p2] []) = (1%nat, Some p2) /\
  sig_size p2 < sig_size p1.
Proof.
  intros chk ov p1 p2.
  destruct (frontier_smallest_first ov 112 0) as (Hsearch & _ & Hbest).
  split; [|split].
  - eexists. split; [vm_compute; reflexivity|].
    split; [apply Nat.leb_le; reflexivity|].
    eapply (Hsearch chk 32%nat 128 20 1310000 7 9 12). vm_compute. reflexivity.
  - reflexivity.
  - destruct (Hbest (mk_queues [p1] [p2] []) 1%nat p2 eq_refl) as (_ & Hlt).
    apply (Hlt 0%nat p1); [lia|reflexivity].
Defined.

(** ** The dominance filter *)

(** C7.  In every iteration of the selection loop a set whose overuse
    value does not strictly exceed the threshold recorded for its class is
    dropped; a set that is accepted lifts the threshold of its own class
    to its overuse value and the threshold of every harder class to at
    least that value, leaving the easier classes alone; consequently no
    entry of the frontier that [do_search] prints comes after an entry of
    an equal or easier class whose signature is at most as large and whose
    overuse value is at least as large (and this holds of the selection
    on any lists that hold each set under its own class). *)
Theorem frontier_not_dominated
    (ov : Z -> Z -> Z -> Z -> Z) (test_sec_level max_s : Z) :
  (forall st winner p,
      overuse_of ov test_sec_level p <= nth winner (min_sec_level st) 0 ->
      print_list (fst (select_step ov test_sec_level max_s winner p st)) =
      print_list st) /\
  (forall st winner p,
      length (min_sec_level st) = 3%nat ->
      nth winner (cutoff st) false = false ->
      nth winner (min_sec_level st) 0 < overuse_of ov test_sec_level p ->
      let st' := fst (select_step ov test_sec_level max_s winner p st) in
      print_list st' = print_list st ++ [p] /\
      forall j, (j < 3)%nat ->
        nth j (min_sec_level st') 0 =
        if (winner <=? j)%nat
        then Z.max (nth j (min_sec_level st) 0) (overuse_of ov test_sec_level p)
        else nth j (min_sec_level st) 0) /\
  (forall qs, well_classed qs ->
      ForallOrdPairs
        (fun e1 e2 => ~ at_least_as_good (overuse_of ov test_sec_level) e1 e2)
        (select ov test_sec_level max_s (sort_queues qs))) /\
  (forall chk fuel sec_level num_sig sign_op dr hr ar frontier,
      do_search chk ov fuel sec_level num_sig test_sec_level sign_op max_s
        dr hr ar = Some frontier ->
      ForallOrdPairs
        (fun e1 e2 => ~ at_least_as_good (overuse_of ov test_sec_level) e1 e2)
        frontier).
Proof.
  split; [|split; [|split]].
  - apply select_step_drops.
  - intros st winner p Hlen Hcut Hgt st'. apply select_step_accepts; assumption.
  - apply select_not_dominated.
  - intros chk fuel sec_level num_sig sign_op dr hr ar frontier.
    unfold do_search.
    destruct (enumerate chk sec_level num_sig sign_op dr hr ar fuel)
      as [qs|] eqn:Hrun; [|discriminate].
    intros Hfr. apply some_eq in Hfr. subst frontier.
    apply select_not_dominated. eapply enumerate_well_classed. exact Hrun.
Qed.

(** An instance: a set of size 100 and overuse 500 and a set of size 150
    and overuse 400 on the list [w16_q], a set of size 90 and overuse 600
    on the list [wother_q].  The frontier is the third set followed by the
    first; the second is dropped. *)
Lemma frontier_not_dominated_witness :
  let ov := fun _ h _ _ : Z => 100 * h in
  let p1 := mk_parameter_set 5 1 1 1 16 100 10 10 in
  let p2 := mk_parameter_set 4 1 1 1 16 150 10 10 in
  let p3 := mk_parameter_set 6 1 1 1 8 90 10 10 in
  let qs := mk_queues [p2; p1] [] [p3] in
  well_classed qs /\
  select ov 112 0 (sort_queues qs) = [p3; p1] /\
  ForallOrdPairs (fun e1 e2 => ~ at_least_as_good (overuse_of ov 112) e1 e2)
    [p3; p1].
Proof.
  intros ov p1 p2 p3 qs.
  assert (Hw : well_classed qs).
  { intros c Hc. destruct c as [|[|[|c]]]; [| | |lia]; repeat constructor. }
  split; [exact Hw|]. split; [reflexivity|].
  destruct (frontier_not_dominated ov 112 0) as (_ & _ & Hsel & _).
  exact (Hsel qs Hw).
Defined.

(** ** gamma.c: facts about the logarithms *)

Section GammaFacts.

Import Gamma.
Local Open Scope R_scope.

Lemma ln2_pos : 0 < ln 2.
Proof. pose proof ln_lt_2. lra. Qed.

Lemma ln_le_mono x y : 0 < x -> x <= y -> ln x <= ln y.
Proof.
  intros Hx [Hlt | ->]; [|lra]. left. apply ln_increasing; assumption.
Qed.

Lemma ln_nonpos x : x <= 1 -> ln x <= 0.
Proof.
  intros Hx. destruct (Rlt_dec 0 x) as [Hpos|Hneg].
  - rewrite <- ln_1. apply ln_le_mono; assumption.
  - unfold ln. destruct (Rlt_dec 0 x); [contradiction|lra].
Qed.

Lemma log2_nonpos x : x <= 1 -> log2 x <= 0.
Proof.
  intros Hx. unfold log2. pose proof ln2_pos. pose proof (ln_nonpos x Hx).
  apply Rmult_le_reg_r with (ln 2); [assumption|].
  unfold Rdiv. rewrite Rmult_assoc, Rinv_l by lra. lra.
Qed.

Lemma log2_le_mono x y : 0 < x -> x <= y -> log2 x <= log2 y.
Proof.
  intros Hx Hxy. unfold log2. pose proof ln2_pos.
  apply Rmult_le_compat_r; [left; apply Rinv_0_lt_compat; assumption|].
  apply ln_le_mono; assumption.
Qed.

Lemma log2_Rpower_2 x : log2 (Rpower 2 x) = x.
Proof.
  unfold log2. rewrite ln_Rpower. pose proof ln2_pos. field. lra.
Qed.

Lemma ln_half : ln (1 / 2) = - ln 2.
Proof. unfold Rdiv. rewrite Rmult_1_l. apply ln_Rinv. lra. Qed.

Lemma log2_Rpower_half x : log2 (Rpower (1 / 2) x) = - x.
Proof.
  unfold log2. rewrite ln_Rpower, ln_half. pose proof ln2_pos. field. lra.
Qed.

Lemma Rpower_pos x y : 0 < Rpower x y.
Proof. unfold Rpower. apply exp_pos. Qed.

Lemma Rpower_half_le_1 x : 0 <= x -> Rpower (1 / 2) x <= 1.
Proof.
  intros Hx. unfold Rpower. rewrite ln_half. rewrite <- exp_0.
  destruct Hx as [Hx | <-].
  - left. apply exp_increasing. pose proof ln2_pos. nra.
  - right. f_equal. ring.
Qed.

(** The logarithm of the expected number of signatures per leaf is
    [m - H], as the comment in the code says. *)
Lemma log2_lambda m H : log2 (lambda_of m H) = m - IZR H.
Proof.
  unfold lambda_of. destruct (Rgt_dec m (IZR H)).
  - apply log2_Rpower_2.
  - rewrite log2_Rpower_half. ring.
Qed.

(** [do_add] gives at least its first argument and at most one more
    than the larger argument. *)
Lemma do_add_ge_l x y : x <= do_add x y.
Proof.
  unfold do_add.
  assert (Hlog : forall t, 0 <= log2 (1 + Rpower (1 / 2) t)).
  { intros t. unfold log2. pose proof ln2_pos. pose proof (Rpower_pos (1 / 2) t).
    apply Rmult_le_pos; [|left; apply Rinv_0_lt_compat; assumption].
    rewrite <- ln_1. apply ln_le_mono; lra. }
  destruct (Rgt_dec x y) as [Hgt|Hle].
  - destruct (Rgt_dec x (y + 64)); [lra|]. specialize (Hlog (x - y)). lra.
  - destruct (Rgt_dec y (x + 64)); [lra|]. specialize (Hlog (y - x)). lra.
Qed.

Lemma do_add_le x y : do_add x y <= Rmax x y + 1.
Proof.
  unfold do_add.
  assert (Hlog : forall t, 0 <= t -> log2 (1 + Rpower (1 / 2) t) <= 1).
  { intros t Ht. pose proof (Rpower_half_le_1 t Ht). pose proof (Rpower_pos (1 / 2) t).
    assert (H2 : log2 2 = 1) by (unfold log2; pose proof ln2_pos; field; lra).
    apply Rle_trans with (log2 2); [apply log2_le_mono; lra|lra]. }
  destruct (Rgt_dec x y) as [Hgt|Hle].
  - rewrite Rmax_left by lra.
    destruct (Rgt_dec x (y + 64)); [lra|]. specialize (Hlog (x - y)). lra.
  - rewrite Rmax_right by lra.
    destruct (Rgt_dec y (x + 64)); [lra|]. specialize (Hlog (y - x)). lra.
Qed.

(** ** gamma.c: the summation loop *)

Lemma log2_two_pow_32 : log2 (IZR (2 ^ 32)) = 32.
Proof.
  change (2 ^ 32)%Z with (2 ^ Z.of_nat 32)%Z. rewrite <- pow_IZR.
  unfold log2. rewrite ln_pow by lra. pose proof ln2_pos.
  change (INR 32) with (IZR (Z.of_nat 32)) || rewrite INR_IZR_INZ.
  cbn [Z.of_nat Pos.of_succ_nat Pos.succ]. field. lra.
Qed.

(** The contribution [log_b] of an iteration is never positive, so the
    running sum after it is at most [log_a] when it is the first term and
    at most one above the larger of the old sum and [log_a] otherwise. *)
Lemma next_terms_log_sum_le log_lambda p1 K g st :
  (0 <= K)%Z -> 0 <= prob_not_get_g_hit st * p1 ->
  let st' := next_terms log_lambda p1 K g st in
  (g = 1%Z -> log_sum st' <= log_a st') /\
  (g <> 1%Z -> log_sum st' <= Rmax (log_sum st) (log_a st') + 1).
Proof.
  intros HK Hp. unfold next_terms. cbn [log_sum log_a].
  set (la := log_a st + log_lambda - log2 (IZR g)).
  set (p := prob_not_get_g_hit st * p1) in *.
  set (lb := if Rlt_dec p (1 / 100000) then _ else _).
  assert (Hlb : lb <= 0).
  { unfold lb. pose proof ln2_pos as Hln. apply IZR_le in HK.
    destruct (Rlt_dec p (1 / 100000)).
    - assert (0 <= p / ln 2 + p * p / (2 * ln 2)).
      { apply Rplus_le_le_0_compat.
        - apply Rmult_le_pos; [lra|]. left. apply Rinv_0_lt_compat. lra.
        - apply Rmult_le_pos; [nra|]. left. apply Rinv_0_lt_compat. lra. }
      nra.
    - pose proof (log2_nonpos (1 - p) ltac:(lra)). nra. }
  split.
  - intros ->. cbn. lra.
  - intros Hg. destruct (Z.eqb_spec g 1) as [|_]; [contradiction|].
    pose proof (do_add_le (log_sum st) (la + lb)) as Hadd.
    eapply Rle_trans; [exact Hadd|].
    apply Rplus_le_compat_r. apply Rmax_lub.
    + apply Rmax_l.
    + eapply Rle_trans; [|apply Rmax_r]. lra.
Qed.

(** With at least [2^33] expected signatures per leaf the running sum
    stays within one of [log_a] as long as the counter has not wrapped. *)
Lemma heavy_overuse_step log_lambda p1 K g st :
  (0 <= K)%Z -> 0 <= p1 -> 33 <= log_lambda ->
  (1 <= g < 2 ^ 32)%Z -> 0 <= prob_not_get_g_hit st ->
  (g = 1%Z \/ log_sum st <= log_a st + 1) ->
  let st' := next_terms log_lambda p1 K g st in
  0 <= prob_not_get_g_hit st' /\
  log_sum st' <= log_a st' + 1 /\
  small_enough g st' = false.
Proof.
  intros HK Hp1 Hll Hg Hp Hinv st'.
  assert (Hp' : 0 <= prob_not_get_g_hit st * p1) by (apply Rmult_le_pos; assumption).
  destruct (next_terms_log_sum_le log_lambda p1 K g st HK Hp') as (Hfirst & Hlater).
  fold st' in Hfirst, Hlater.
  assert (Hla : log_a st' = log_a st + log_lambda - log2 (IZR g)) by reflexivity.
  assert (Hlg : log2 (IZR g) <= 32).
  { rewrite <- log2_two_pow_32. apply log2_le_mono.
    - apply IZR_lt. lia.
    - apply IZR_le. lia. }
  assert (Hsum : log_sum st' <= log_a st' + 1).
  { destruct (Z.eq_dec g 1) as [Hg1|Hg1].
    - specialize (Hfirst Hg1). lra.
    - specialize (Hlater Hg1). destruct Hinv as [|Hinv]; [contradiction|].
      eapply Rle_trans; [exact Hlater|]. apply Rplus_le_compat_r.
      apply Rmax_lub; lra. }
  split; [exact Hp'|]. split; [exact Hsum|].
  unfold small_enough.
  destruct (Rgt_dec (log_sum st') (20 + log_a st')); [lra|].
  apply andb_false_r.
Qed.

Lemma series_loop_heavy_overuse log_lambda p1 K :
  (0 <= K)%Z -> 0 <= p1 -> 33 <= log_lambda ->
  forall fuel g st,
    (1 <= g < 2 ^ 32)%Z -> 0 <= prob_not_get_g_hit st ->
    (g = 1%Z \/ log_sum st <= log_a st + 1) ->
    series_loop fuel log_lambda p1 K g st = None.
Proof.
  intros HK Hp1 Hll. induction fuel as [|fuel IH]; intros g st Hg Hp Hinv;
    cbn [series_loop]; [reflexivity|].
  destruct (heavy_overuse_step log_lambda p1 K g st HK Hp1 Hll Hg Hp Hinv)
    as (Hp' & Hsum & ->).
  destruct (Z.eq_dec (g + 1) (2 ^ 32)) as [Hwrap|Hwrap].
  - rewrite Hwrap. reflexivity.
  - rewrite Machine_u32_small by lia.
    destruct (Z.eqb_spec (g + 1) 0); [lia|].
    apply IH; [lia|exact Hp'|right; exact Hsum].
Qed.

Lemma single_hit_nonneg T : (0 <= T)%Z -> 0 <= 1 - Rpower (1 / 2) (IZR T).
Proof.
  intros HT. apply IZR_le in HT. pose proof (Rpower_half_le_1 (IZR T) HT). lra.
Qed.

(** C9.  With at least [2^33] expected signatures per leaf, that is from
    [m = H + 33] on and so at [m = H + 40], the exit test of the
    summation loop fails at every value the counter [g] takes before it
    wraps, from 1 to [2^32 - 1]: the running sum never gets [2^20] times
    above the leading term, and the loop gives no result. *)
Theorem summation_loop_never_exits (m : R) (H T K : Z) :
  (0 <= T)%Z -> (0 <= K)%Z -> IZR H + 33 <= m ->
  let log_lambda := log2 (lambda_of m H) in
  let p1 := 1 - Rpower (1 / 2) (IZR T) in
  (forall n, (1 <= Z.of_nat n < 2 ^ 32)%Z ->
     small_enough (Z.of_nat n) (series_at log_lambda p1 K n) = false) /\
  (forall fuel, series_loop fuel log_lambda p1 K 1 series_start = None).
Proof.
  intros HT HK Hm log_lambda p1.
  assert (Hll : 33 <= log_lambda) by (unfold log_lambda; rewrite log2_lambda; lra).
  assert (Hp1 : 0 <= p1) by (apply single_hit_nonneg; exact HT).
  split.
  - assert (Hinv : forall n, (Z.of_nat n < 2 ^ 32)%Z ->
              0 <= prob_not_get_g_hit (series_at log_lambda p1 K n) /\
              (n = O \/
               (log_sum (series_at log_lambda p1 K n)
                  <= log_a (series_at log_lambda p1 K n) + 1 /\
                small_enough (Z.of_nat n) (series_at log_lambda p1 K n) = false))).
    { induction n as [|n IH]; intros Hn.
      - split; [cbn; lra|left; reflexivity].
      - destruct IH as (Hp & Hprev); [lia|].
        destruct (heavy_overuse_step log_lambda p1 K (Z.of_nat (S n))
                    (series_at log_lambda p1 K n) HK Hp1 Hll ltac:(lia) Hp)
          as (Hp' & Hsum & Hsmall).
        + destruct Hprev as [->|(Hprev & _)]; [left; reflexivity|right; exact Hprev].
        + split; [exact Hp'|]. right. split; [exact Hsum|exact Hsmall]. }
    intros n Hn. destruct (Hinv n ltac:(lia)) as (_ & [->|(_ & Hsmall)]);
      [cbn in Hn; lia|exact Hsmall].
  - intros fuel. apply series_loop_heavy_overuse; try assumption.
    + lia.
    + cbn. lra.
    + left. reflexivity.
Qed.

(** An instance: [2^103] signatures on a hypertree of height 63 with 14
    FORS trees of height 12. *)
Lemma summation_loop_never_exits_witness :
  small_enough 10
    (series_at (log2 (lambda_of 103 63)) (1 - Rpower (1 / 2) 12) 14 10) = false /\
  series_loop 1000 (log2 (lambda_of 103 63)) (1 - Rpower (1 / 2) 12) 14 1
    series_start = None.
Proof.
  destruct (summation_loop_never_exits 103 63 12 14) as (Htest & Hloop);
    [lia|lia|lra|].
  split.
  - apply (Htest 10%nat). cbn. lia.
  - apply Hloop.
Defined.

(** C1.  The estimate is not defined on the whole range from [m = 0] to
    [m = H + 40].  From [m = H + 33] on, and so at [m = H + 40],
    [compute_sec_level] gives no value at all: its summation loop does not
    end. *)
Theorem compute_sec_level_no_value (fuel : nat) (m : R) (H T K : Z) :
  (0 <= T)%Z -> (0 <= K)%Z -> IZR H + 33 <= m ->
  compute_sec_level fuel m H T K = None.
Proof.
  intros HT HK Hm. unfold compute_sec_level.
  rewrite series_loop_heavy_overuse; try reflexivity; try assumption.
  - apply single_hit_nonneg. exact HT.
  - rewrite log2_lambda. lra.
  - lia.
  - cbn. lra.
  - left. reflexivity.
Qed.

(** An instance: [m = H + 40] for the hypertree of height 63. *)
Lemma compute_sec_level_no_value_witness :
  compute_sec_level 1000 103 63 12 14 = None.
Proof.
  apply compute_sec_level_no_value; [lia|lia|lra].
Defined.

(** A result of the summation loop does not depend on the fuel. *)
Lemma series_loop_more fuel n log_lambda p1 K g st r :
  series_loop fuel log_lambda p1 K g st = Some r ->
  series_loop (fuel + n) log_lambda p1 K g st = Some r.
Proof.
  revert g st. induction fuel as [|fuel IH]; intros g st Hrun;
    cbn [series_loop Nat.add] in *; [discriminate|].
  destruct (small_enough g _); [exact Hrun|].
  destruct (Machine.u32 (g + 1) =? 0)%Z; [discriminate|].
  apply IH. exact Hrun.
Qed.

Lemma compute_sec_level_more fuel n m H T K v :
  compute_sec_level fuel m H T K = Some v ->
  compute_sec_level (fuel + n) m H T K = Some v.
Proof.
  unfold compute_sec_level.
  destruct (series_loop fuel _ _ K 1 series_start) as [st|] eqn:Hrun;
    [|discriminate].
  rewrite (series_loop_more _ n _ _ _ _ _ _ Hrun). auto.
Qed.

(** ** gamma.c: the first term of the sum *)

Lemma do_add_ge_sum log_lambda p1 K g st :
  g <> 1%Z -> log_sum st <= log_sum (next_terms log_lambda p1 K g st).
Proof.
  intros Hg. unfold next_terms. cbn [log_sum].
  destruct (Z.eqb_spec g 1) as [|_]; [contradiction|]. apply do_add_ge_l.
Qed.

Lemma log2_1 : log2 1 = 0.
Proof. unfold log2. rewrite ln_1. unfold Rdiv. ring. Qed.

Lemma log2_mult x y : 0 < x -> 0 < y -> log2 x + log2 y = log2 (x * y).
Proof.
  intros Hx Hy. unfold log2. rewrite ln_mult by assumption.
  pose proof ln2_pos. field. lra.
Qed.

Lemma log2_exp_1 : log2 (exp 1) <= 2.
Proof.
  unfold log2. rewrite ln_exp. pose proof ln_lt_2 as H2.
  apply Rmult_le_reg_r with (ln 2); [lra|].
  unfold Rdiv. rewrite Rmult_assoc, Rinv_l by lra. lra.
Qed.

Lemma Rpower_half_le_half x : 1 <= x -> Rpower (1 / 2) x <= 1 / 2.
Proof.
  intros Hx. replace (1 / 2) with (Rpower (1 / 2) 1) at 2
    by (apply Rpower_1; lra).
  unfold Rpower. rewrite ln_half. pose proof ln2_pos.
  destruct Hx as [Hx | <-]; [|lra].
  left. apply exp_increasing. nra.
Qed.

Lemma first_term log_lambda T K :
  (1 <= T)%Z ->
  log_sum (next_terms log_lambda (1 - Rpower (1 / 2) (IZR T)) K 1 series_start)
  = log_lambda - IZR (K * T).
Proof.
  intros HT. unfold next_terms, series_start.
  cbn [log_a log_sum prob_not_get_g_hit Z.eqb Pos.eqb].
  rewrite Rmult_1_l.
  pose proof (Rpower_half_le_half (IZR T) ltac:(apply IZR_le; lia)) as Hhalf.
  destruct (Rlt_dec (1 - Rpower (1 / 2) (IZR T)) (1 / 100000)) as [Hsmall|_];
    [lra|].
  replace (1 - (1 - Rpower (1 / 2) (IZR T)))
    with (Rpower (1 / 2) (IZR T)) by ring.
  rewrite log2_Rpower_half, log2_1, mult_IZR. ring.
Qed.

(** ** gamma.c: the scan for the number of signatures *)

Lemma scan_lower_spec fuel sec_level H T K n lower0 lower :
  scan_lower fuel n sec_level H T K lower0 = Some lower ->
  (lower0 <= lower)%Z /\
  (exists r, compute_sec_level fuel (IZR (lower + 1)) H T K = Some r /\
             r < sec_level) /\
  (forall j, (lower0 <= j < lower)%Z ->
     exists r, compute_sec_level fuel (IZR (j + 1)) H T K = Some r /\
               ~ r < sec_level).
Proof.
  revert lower0. induction n as [|n IH]; intros lower0 Hrun;
    cbn [scan_lower] in Hrun; [discriminate|].
  destruct (compute_sec_level fuel (IZR (lower0 + 1)) H T K) as [r|] eqn:Hr;
    [|discriminate].
  destruct (Rlt_dec r sec_level) as [Hlt|Hge].
  - apply some_eq in Hrun. subst lower.
    split; [lia|]. split; [exists r; auto|]. intros j Hj. lia.
  - destruct (IH _ Hrun) as (Hle & Hend & Hbefore).
    split; [lia|]. split; [exact Hend|].
    intros j Hj. destruct (Z.eq_dec j lower0) as [->|Hne].
    + exists r. auto.
    + apply Hbefore. lia.
Qed.

Lemma scan_fract_spec fuel sec_level H T K lower n fract0 fract :
  (fract0 + Z.of_nat n = 100)%Z ->
  scan_fract fuel sec_level H T K lower (Zrange fract0 n) = Some fract ->
  (fract0 <= fract <= 100)%Z /\
  ((fract < 100)%Z ->
     exists r, compute_sec_level fuel (probe lower fract) H T K = Some r /\
               r < sec_level) /\
  (forall f, (fract0 <= f < fract)%Z ->
     exists r, compute_sec_level fuel (probe lower f) H T K = Some r /\
               ~ r < sec_level).
Proof.
  revert fract0. induction n as [|n IH]; intros fract0 Hlen Hrun.
  - cbn in Hrun. apply some_eq in Hrun. subst fract.
    split; [lia|]. split; [lia|]. intros f Hf. lia.
  - rewrite Zrange_S in Hrun. cbn [scan_fract] in Hrun.
    destruct (compute_sec_level fuel (probe lower fract0) H T K) as [r|] eqn:Hr;
      [|discriminate].
    destruct (Rlt_dec r sec_level) as [Hlt|Hge].
    + apply some_eq in Hrun. subst fract.
      split; [lia|]. split; [intros _; exists r; auto|]. intros f Hf. lia.
    + destruct (IH (fract0 + 1)%Z ltac:(lia) Hrun) as (Hle & Hend & Hbefore).
      split; [lia|]. split; [exact Hend|].
      intros f Hf. destruct (Z.eq_dec f fract0) as [->|Hne].
      * exists r. auto.
      * apply Hbefore. lia.
Qed.

End GammaFacts.

(** ** gamma.c: the early exit of [check_sec_level] *)

Section CheckFacts.

Import Gamma.
Import QArith Qreals.
Local Open Scope R_scope.

Lemma Q2R_red x : Q2R (Qred x) = Q2R x.
Proof. apply Qeq_eqR, Qred_correct. Qed.

Lemma Q2R_inject z : Q2R (inject_Z z) = IZR z.
Proof. unfold Q2R, inject_Z. cbn [Qnum Qden]. rewrite Rinv_1. ring. Qed.

Lemma Q2R_qpow x n : Q2R (Exact.qpow x n) = Q2R x ^ n.
Proof.
  induction n as [|n IH]; cbn [Exact.qpow pow].
  - change 1%Q with (inject_Z 1). apply Q2R_inject.
  - rewrite Q2R_red, Q2R_mult, IH. reflexivity.
Qed.

Lemma gtb_true x y : Exact.gtb x y = true -> Q2R y < Q2R x.
Proof.
  unfold Exact.gtb. intros H. apply negb_true_iff in H.
  apply Qlt_Rlt, Qnot_le_lt. intros Hle.
  apply Qle_bool_iff in Hle. congruence.
Qed.

Lemma gtb_false x y : Exact.gtb x y = false -> Q2R x <= Q2R y.
Proof.
  unfold Exact.gtb. intros H. apply negb_false_iff in H.
  apply Qle_Rle, Qle_bool_iff, H.
Qed.

Lemma log2_lt_mono x y : 0 < x -> x < y -> log2 x < log2 y.
Proof.
  intros Hx Hxy. unfold log2. pose proof ln2_pos.
  apply Rmult_lt_compat_r; [apply Rinv_0_lt_compat; assumption|].
  apply ln_increasing; assumption.
Qed.

Lemma log2_div x y : 0 < x -> 0 < y -> log2 (x / y) = log2 x - log2 y.
Proof.
  intros Hx Hy. unfold log2.
  replace (ln (x / y)) with (ln x - ln y).
  - pose proof ln2_pos. field. lra.
  - unfold Rdiv. rewrite ln_mult, ln_Rinv
      by (try assumption; apply Rinv_0_lt_compat; assumption).
    ring.
Qed.

Lemma log2_pow x n : 0 < x -> INR n * log2 x = log2 (x ^ n).
Proof.
  intros Hx. unfold log2. rewrite ln_pow by assumption.
  pose proof ln2_pos. field. lra.
Qed.

Lemma log2_two_pow n : log2 (2 ^ n) = INR n.
Proof.
  unfold log2. rewrite ln_pow by lra. pose proof ln2_pos. field. lra.
Qed.

Lemma log2_sum u l :
  0 < u -> 0 < l ->
  log2 u + log2 (1 + Rpower (1 / 2) (log2 u - log2 l)) = log2 (u + l).
Proof.
  intros Hu Hl.
  assert (Hp : Rpower (1 / 2) (log2 u - log2 l) = l / u).
  { unfold Rpower. rewrite ln_half. unfold log2. pose proof ln2_pos.
    replace ((ln u / ln 2 - ln l / ln 2) * - ln 2) with (ln l + - ln u)
      by (field; lra).
    rewrite exp_plus, exp_Ropp, !exp_ln by assumption. reflexivity. }
  rewrite Hp.
  assert (0 < l / u) by (apply Rdiv_lt_0_compat; assumption).
  rewrite log2_mult by lra. f_equal. field. lra.
Qed.

Lemma Q2R_two64 : Q2R Exact.two64 = 2 ^ 64.
Proof.
  unfold Exact.two64. rewrite Q2R_inject.
  change (2 ^ 64)%Z with (2 ^ Z.of_nat 64)%Z. rewrite <- pow_IZR. reflexivity.
Qed.

(** [do_add] on the logarithms of two positive rationals. *)
Lemma do_add_exact u v :
  0 < Q2R u -> 0 < Q2R v ->
  0 < Q2R (Exact.add u v) /\
  do_add (log2 (Q2R u)) (log2 (Q2R v)) = log2 (Q2R (Exact.add u v)).
Proof.
  intros Hu Hv. unfold do_add, Exact.add.
  assert (H64 : forall x, 0 < Q2R x ->
            log2 (Q2R (x * Exact.two64)) = log2 (Q2R x) + 64).
  { intros x Hx. rewrite Q2R_mult, Q2R_two64.
    rewrite <- log2_mult by (try assumption; apply pow_lt; lra).
    rewrite log2_two_pow. rewrite INR_IZR_INZ. reflexivity. }
  assert (Hpos64 : forall x, 0 < Q2R x -> 0 < Q2R (x * Exact.two64)).
  { intros x Hx. rewrite Q2R_mult, Q2R_two64.
    apply Rmult_lt_0_compat; [assumption|apply pow_lt; lra]. }
  destruct (Exact.gtb u v) eqn:Huv.
  - apply gtb_true in Huv.
    pose proof (log2_lt_mono _ _ Hv Huv).
    destruct (Rgt_dec (log2 (Q2R u)) (log2 (Q2R v))) as [_|Hn]; [|lra].
    destruct (Exact.gtb u (v * Exact.two64)) eqn:Hfar.
    + apply gtb_true in Hfar.
      pose proof (log2_lt_mono _ _ (Hpos64 v Hv) Hfar) as Hl.
      rewrite H64 in Hl by assumption.
      destruct (Rgt_dec (log2 (Q2R u)) (log2 (Q2R v) + 64)) as [_|Hn]; [|lra].
      split; [assumption|reflexivity].
    + apply gtb_false in Hfar.
      pose proof (log2_le_mono _ _ Hu Hfar) as Hl.
      rewrite H64 in Hl by assumption.
      destruct (Rgt_dec (log2 (Q2R u)) (log2 (Q2R v) + 64)) as [Hy|_]; [lra|].
      rewrite Q2R_red, Q2R_plus. split; [lra|].
      apply log2_sum; assumption.
  - apply gtb_false in Huv.
    pose proof (log2_le_mono _ _ Hu Huv).
    destruct (Rgt_dec (log2 (Q2R u)) (log2 (Q2R v))) as [Hy|_]; [lra|].
    destruct (Exact.gtb v (u * Exact.two64)) eqn:Hfar.
    + apply gtb_true in Hfar.
      pose proof (log2_lt_mono _ _ (Hpos64 u Hu) Hfar) as Hl.
      rewrite H64 in Hl by assumption.
      destruct (Rgt_dec (log2 (Q2R v)) (log2 (Q2R u) + 64)) as [_|Hn]; [|lra].
      split; [assumption|reflexivity].
    + apply gtb_false in Hfar.
      pose proof (log2_le_mono _ _ Hv Hfar) as Hl.
      rewrite H64 in Hl by assumption.
      destruct (Rgt_dec (log2 (Q2R v)) (log2 (Q2R u) + 64)) as [Hy|_]; [lra|].
      rewrite Q2R_red, Q2R_plus. split; [lra|].
      apply log2_sum; assumption.
Qed.


Lemma terms_next_agree lambda q K g s st :
  0 < Q2R lambda -> (1 <= g)%Z ->
  agree_a s st -> (g = 1%Z \/ agree_sum s st) ->
  Exact.direct (Exact.terms_next lambda q K g s) = true ->
  agree_a (Exact.terms_next lambda q K g s)
          (next_terms (log2 (Q2R lambda)) (Q2R q) (Z.of_nat K) g st) /\
  agree_sum (Exact.terms_next lambda q K g s)
            (next_terms (log2 (Q2R lambda)) (Q2R q) (Z.of_nat K) g st).
Proof.
  intros Hlam Hg (Ha & Hla & Hp) Hsum Hdirect.
  unfold Exact.direct in Hdirect. apply andb_prop in Hdirect.
  destruct Hdirect as [Hlow Hhigh].
  apply Qle_bool_iff, Qle_Rle in Hlow. apply gtb_true in Hhigh.
  unfold Exact.terms_next in *. cbn [Exact.term_a Exact.miss Exact.total] in *.
  set (a' := Qred (Exact.term_a s * lambda / inject_Z g)) in *.
  set (miss' := Qred (Exact.miss s * q)) in *.
  set (t := Qred (a' * Exact.qpow (1 - miss') K)).
  assert (Hg' : 0 < IZR g) by (apply IZR_lt; lia).
  assert (Ea : Q2R a' = Q2R (Exact.term_a s) * Q2R lambda / IZR g).
  { unfold a'. rewrite Q2R_red, Q2R_div, Q2R_mult, Q2R_inject; [reflexivity|].
    unfold Qeq, inject_Z. cbn [Qnum Qden]. lia. }
  assert (Em : Q2R miss' = Q2R (Exact.miss s) * Q2R q).
  { unfold miss'. rewrite Q2R_red, Q2R_mult. reflexivity. }
  assert (E1 : Q2R 1 = 1).
  { change 1%Q with (inject_Z 1). apply Q2R_inject. }
  assert (Elow : Q2R (1 # 100000) = 1 / 100000).
  { unfold Q2R. cbn [Qnum Qden]. lra. }
  rewrite E1 in Hhigh. rewrite Elow in Hlow.
  assert (Ha' : 0 < Q2R a').
  { rewrite Ea. apply Rdiv_lt_0_compat; [|assumption].
    apply Rmult_lt_0_compat; assumption. }
  assert (Et : Q2R t = Q2R a' * (1 - Q2R miss') ^ K).
  { unfold t. rewrite Q2R_red, Q2R_mult, Q2R_qpow, Q2R_minus, E1.
    reflexivity. }
  assert (Ht : 0 < Q2R t).
  { rewrite Et. apply Rmult_lt_0_compat; [assumption|]. apply pow_lt. lra. }
  unfold next_terms. cbn [log_a prob_not_get_g_hit log_sum].
  rewrite Hla, Hp, <- Em.
  assert (Hloga : log2 (Q2R (Exact.term_a s)) + log2 (Q2R lambda)
                  - log2 (IZR g) = log2 (Q2R a')).
  { rewrite Ea, log2_div, <- log2_mult; try assumption; [reflexivity|].
    apply Rmult_lt_0_compat; assumption. }
  rewrite Hloga.
  destruct (Rlt_dec (Q2R miss') (1 / 100000)) as [Hy|_]; [lra|].
  assert (Hlogt : log2 (Q2R a') + IZR (Z.of_nat K) * log2 (1 - Q2R miss')
                  = log2 (Q2R t)).
  { rewrite <- INR_IZR_INZ, log2_pow by lra.
    rewrite log2_mult by (try assumption; apply pow_lt; lra).
    rewrite Et. reflexivity. }
  rewrite Hlogt.
  split; [unfold agree_a; cbn [Exact.term_a Exact.miss]; auto|].
  unfold agree_sum. cbn [Exact.total].
  destruct (Z.eqb_spec g 1) as [->|Hne].
  - cbn [Z.eqb Pos.eqb]. fold t. split; [assumption|reflexivity].
  - destruct Hsum as [|(HS & Hls)]; [contradiction|].
    fold t. rewrite Hls.
    destruct (do_add_exact (Exact.total s) t HS Ht) as [Hpos Heq].
    split; assumption.
Qed.

(** A successful rational run follows the loop step by step, and its
    test held after each step. *)
Lemma run_sound test lambda q K n s :
  0 < Q2R lambda ->
  Exact.run test lambda q K n = Some s ->
  agree_a s (series_at (log2 (Q2R lambda)) (Q2R q) (Z.of_nat K) n) /\
  (n <> O ->
   agree_sum s (series_at (log2 (Q2R lambda)) (Q2R q) (Z.of_nat K) n)) /\
  (forall j, (1 <= j <= n)%nat ->
     exists sj,
       agree_a sj (series_at (log2 (Q2R lambda)) (Q2R q) (Z.of_nat K) j) /\
       agree_sum sj (series_at (log2 (Q2R lambda)) (Q2R q) (Z.of_nat K) j) /\
       test (Z.of_nat j) sj = true).
Proof.
  intros Hlam. revert s. induction n as [|n IH]; intros s Hrun.
  - cbn [Exact.run] in Hrun. injection Hrun as <-.
    split; [|split; [congruence|intros j Hj; lia]].
    unfold agree_a. cbn. unfold Q2R. cbn. rewrite Rmult_1_l, Rinv_1, log2_1. lra.
  - cbn [Exact.run] in Hrun.
    destruct (Exact.run test lambda q K n) as [s0|] eqn:Hprev;
      [|discriminate].
    destruct (IH s0 eq_refl) as (Ha & Hs & Hall).
    destruct (Exact.direct _ && test _ _) eqn:Hok; [|discriminate].
    injection Hrun as <-. apply andb_prop in Hok. destruct Hok as [Hd Ht].
    assert (Hfirst : Z.of_nat (S n) = 1%Z \/
              agree_sum s0 (series_at (log2 (Q2R lambda)) (Q2R q)
                              (Z.of_nat K) n)).
    { destruct n as [|n]; [left; reflexivity|right; apply Hs; congruence]. }
    destruct (terms_next_agree lambda q K (Z.of_nat (S n)) s0 _
                Hlam ltac:(lia) Ha Hfirst Hd) as [Ha' Hs'].
    change (series_at (log2 (Q2R lambda)) (Q2R q) (Z.of_nat K) (S n))
      with (next_terms (log2 (Q2R lambda)) (Q2R q) (Z.of_nat K)
              (Z.of_nat (S n))
              (series_at (log2 (Q2R lambda)) (Q2R q) (Z.of_nat K) n)).
    split; [assumption|]. split; [intros _; assumption|].
    intros j Hj. destruct (Nat.eq_dec j (S n)) as [->|Hne].
    + eexists. split; [exact Ha'|]. split; [exact Hs'|exact Ht].
    + apply Hall. lia.
Qed.


Lemma log2_scaled n (x : Q) :
  0 < Q2R x -> log2 (Q2R (inject_Z (2 ^ Z.of_nat n) * x)) = INR n + log2 (Q2R x).
Proof.
  intros Hx. rewrite Q2R_mult, Q2R_inject, <- pow_IZR.
  rewrite <- log2_mult by (try assumption; apply pow_lt; lra).
  rewrite log2_two_pow. reflexivity.
Qed.

Lemma small_enough_agree g s st :
  agree_a s st -> agree_sum s st ->
  small_enough g st = Exact.small_enough g s.
Proof.
  intros (Ha & Hla & _) (Hs & Hls).
  unfold small_enough, Exact.small_enough. f_equal.
  rewrite Hla, Hls.
  assert (E : log2 (Q2R (inject_Z (2 ^ 20) * Exact.term_a s))
              = 20 + log2 (Q2R (Exact.term_a s))).
  { change (2 ^ 20)%Z with (2 ^ Z.of_nat 20)%Z.
    rewrite log2_scaled by assumption. rewrite INR_IZR_INZ. reflexivity. }
  assert (Hpos : 0 < Q2R (inject_Z (2 ^ 20) * Exact.term_a s)).
  { rewrite Q2R_mult, Q2R_inject. apply Rmult_lt_0_compat; [|assumption].
    apply IZR_lt. reflexivity. }
  rewrite <- E.
  destruct (Exact.gtb _ _) eqn:Hgt.
  - apply gtb_true in Hgt. pose proof (log2_lt_mono _ _ Hpos Hgt).
    destruct (Rgt_dec _ _); [reflexivity|lra].
  - apply gtb_false in Hgt. pose proof (log2_le_mono _ _ Hs Hgt).
    destruct (Rgt_dec _ _); [lra|reflexivity].
Qed.

Lemma series_loop_runs log_lambda p1 K n :
  (Z.of_nat n < 2 ^ 32)%Z ->
  (forall j, (1 <= j < n)%nat ->
     small_enough (Z.of_nat j) (series_at log_lambda p1 K j) = false) ->
  small_enough (Z.of_nat n) (series_at log_lambda p1 K n) = true ->
  forall i j, (j + i = n)%nat -> (1 <= i)%nat ->
    series_loop i log_lambda p1 K (Z.of_nat (S j)) (series_at log_lambda p1 K j)
    = Some (series_at log_lambda p1 K n).
Proof.
  intros Hn Hbefore Hlast. intros i. induction i as [|i IH]; intros j Hji Hi; [lia|].
  cbn [series_loop].
  change (next_terms log_lambda p1 K (Z.of_nat (S j))
            (series_at log_lambda p1 K j))
    with (series_at log_lambda p1 K (S j)).
  destruct i as [|i].
  - replace (S j) with n by lia. rewrite Hlast. reflexivity.
  - rewrite Hbefore by lia.
    rewrite Machine_u32_small by lia.
    destruct (Z.eqb_spec (Z.of_nat (S j) + 1) 0) as [|_]; [lia|].
    replace (Z.of_nat (S j) + 1)%Z with (Z.of_nat (S (S j))) by lia.
    apply IH; lia.
Qed.

Lemma check_loop_runs lambda log_lambda log_target p1 K n :
  (Z.of_nat n < 2 ^ 32)%Z ->
  (forall j, (1 <= j <= n)%nat ->
     log_sum (series_at log_lambda p1 K j) <= log_target) ->
  (forall j, (1 <= j < n)%nat ->
     tail_bound_met lambda log_target (Z.of_nat j)
       (series_at log_lambda p1 K j) = false /\
     small_enough (Z.of_nat j) (series_at log_lambda p1 K j) = false) ->
  tail_bound_met lambda log_target (Z.of_nat n)
    (series_at log_lambda p1 K n) = true ->
  forall i j, (j + i = n)%nat -> (1 <= i)%nat ->
    check_loop i lambda log_lambda log_target p1 K (Z.of_nat (S j))
      (series_at log_lambda p1 K j) = Some true.
Proof.
  intros Hn Hbelow Hbefore Hlast.
  intros i. induction i as [|i IH]; intros j Hji Hi; [lia|].
  cbn [check_loop].
  change (next_terms log_lambda p1 K (Z.of_nat (S j))
            (series_at log_lambda p1 K j))
    with (series_at log_lambda p1 K (S j)).
  pose proof (Hbelow (S j) ltac:(lia)) as Hle.
  destruct (Rgt_dec _ log_target) as [Hgt|_]; [lra|].
  destruct i as [|i].
  - replace (S j) with n by lia. rewrite Hlast. reflexivity.
  - destruct (Hbefore (S j) ltac:(lia)) as [-> ->].
    rewrite Machine_u32_small by lia.
    destruct (Z.eqb_spec (Z.of_nat (S j) + 1) 0) as [|_]; [lia|].
    replace (Z.of_nat (S j) + 1)%Z with (Z.of_nat (S (S j))) by lia.
    apply IH; lia.
Qed.


Lemma estimate_run_eq :
  Exact.run Exact.estimate_test 8 (7 # 8) 16 29 = Exact.estimate_run.
Proof. vm_compute. reflexivity. Qed.

Lemma check_run_some :
  exists s, Exact.run Exact.check_test 8 (7 # 8) 16 17 = Some s.
Proof.
  assert (H : match Exact.run Exact.check_test 8 (7 # 8) 16 17 with
              | Some _ => true
              | None => false
              end = true) by (vm_compute; reflexivity).
  destruct (Exact.run _ _ _ _ _) as [s|]; [exists s; reflexivity|discriminate].
Qed.

Lemma slack_covers : 2 / 100 <= log2 (Q2R Exact.slack).
Proof.
  assert (Hs : 0 < Q2R Exact.slack).
  { unfold Exact.slack, Q2R. cbn [Qnum Qden]. lra. }
  assert (H2 : 2 <= Q2R Exact.slack ^ 50).
  { rewrite <- Q2R_qpow.
    replace 2 with (Q2R 2) by (change 2%Q with (inject_Z 2); apply Q2R_inject).
    apply Qle_Rle, Qle_bool_iff. vm_compute. reflexivity. }
  assert (H : log2 2 <= log2 (Q2R Exact.slack ^ 50))
    by (apply log2_le_mono; lra).
  rewrite <- log2_pow in H by assumption.
  replace (log2 2) with 1 in H
    by (unfold log2; pose proof ln2_pos; field; lra).
  rewrite INR_IZR_INZ in H. cbn [Z.of_nat Pos.of_succ_nat Pos.succ] in H. lra.
Qed.


Lemma Q2R_8 : Q2R 8 = 8.
Proof. change 8%Q with (inject_Z 8). apply Q2R_inject. Qed.

(** [compute_sec_level(13, 10, 3, 16)] leaves its loop after 29
    iterations. *)
Lemma estimate_value :
  exists st,
    series_loop 29 (log2 (Q2R 8)) (Q2R (7 # 8)) 16 1 series_start = Some st /\
    0 < Q2R Exact.estimate_total /\
    log_sum st = log2 (Q2R Exact.estimate_total).
Proof.
  assert (Hrun : exists s, Exact.estimate_run = Some s /\
                           Exact.total s = Exact.estimate_total).
  { unfold Exact.estimate_total, Exact.estimate_run.
    eexists. split; reflexivity. }
  destruct Hrun as (s & Hrun & Htotal). rewrite <- estimate_run_eq in Hrun.
  assert (H8 : 0 < Q2R 8) by (rewrite Q2R_8; lra).
  destruct (run_sound _ _ _ _ _ _ H8 Hrun) as (Ha & Hs & Hall).
  destruct (Hs ltac:(discriminate)) as [Hpos Hsum].
  rewrite Htotal in Hpos, Hsum.
  assert (Htest : forall j, (1 <= j <= 29)%nat ->
            small_enough (Z.of_nat j)
              (series_at (log2 (Q2R 8)) (Q2R (7 # 8)) (Z.of_nat 16) j)
            = (29 <=? Z.of_nat j)%Z).
  { intros j Hj. destruct (Hall j Hj) as (sj & Haj & Hsj & Ht).
    rewrite (small_enough_agree _ _ _ Haj Hsj).
    unfold Exact.estimate_test in Ht. apply eqb_prop in Ht. exact Ht. }
  exists (series_at (log2 (Q2R 8)) (Q2R (7 # 8)) (Z.of_nat 16) 29).
  split; [|split; assumption].
  apply (series_loop_runs (log2 (Q2R 8)) (Q2R (7 # 8)) (Z.of_nat 16) 29)
    with (i := 29%nat) (j := 0%nat); try lia.
  - intros j Hj. rewrite Htest by lia.
    destruct (Z.leb_spec 29 (Z.of_nat j)); [lia|reflexivity].
  - rewrite Htest by lia. reflexivity.
Qed.

(** [check_sec_level(13, 10, 3, 16, sec_level)] returns 1 in its 17th
    iteration for a target this close to the sum of the whole series. *)
Lemma check_value log_target :
  log2 (Q2R Exact.estimate_total) - 2 / 100 <= log_target ->
  check_loop 17 8 (log2 (Q2R 8)) log_target (Q2R (7 # 8)) 16 1 series_start
  = Some true.
Proof.
  intros Htarget. destruct check_run_some as [s Hrun].
  assert (H8 : 0 < Q2R 8) by (rewrite Q2R_8; lra).
  destruct (run_sound _ _ _ _ _ _ H8 Hrun) as (_ & _ & Hall).
  pose proof slack_covers as Hslack.
  assert (Hs : 0 < Q2R Exact.slack).
  { unfold Exact.slack, Q2R. cbn [Qnum Qden]. lra. }
  assert (Hbelow : forall x, 0 < Q2R x ->
            Qle_bool (x * Exact.slack) Exact.estimate_total = true ->
            log2 (Q2R x) <= log_target).
  { intros x Hx Hle. apply Qle_bool_iff, Qle_Rle in Hle.
    rewrite Q2R_mult in Hle.
    assert (0 < Q2R x * Q2R Exact.slack)
      by (apply Rmult_lt_0_compat; assumption).
    pose proof (log2_le_mono _ _ H Hle) as Hl.
    rewrite <- log2_mult in Hl by assumption. lra. }
  apply (check_loop_runs 8 (log2 (Q2R 8)) log_target (Q2R (7 # 8))
           (Z.of_nat 16) 17) with (i := 17%nat) (j := 0%nat); try lia.
  - intros j Hj. destruct (Hall j Hj) as (sj & _ & (Hpos & ->) & Ht).
    unfold Exact.check_test in Ht. apply andb_prop in Ht.
    apply Hbelow; [assumption|apply Ht].
  - intros j Hj. destruct (Hall j ltac:(lia)) as (sj & Haj & Hsj & Ht).
    split.
    + unfold tail_bound_met.
      assert (IZR (Z.of_nat j) <= 16) by (apply IZR_le; lia).
      destruct (Rgt_dec _ _); [lra|reflexivity].
    + rewrite (small_enough_agree _ _ _ Haj Hsj).
      unfold Exact.check_test in Ht. apply andb_prop in Ht.
      destruct Ht as [_ Ht].
      destruct (Z.ltb_spec (Z.of_nat j) 17); [|lia].
      apply negb_true_iff in Ht. exact Ht.
  - destruct (Hall 17%nat ltac:(lia)) as (sj & Haj & (Hpos & Hsum) & Ht).
    unfold Exact.check_test in Ht. apply andb_prop in Ht.
    destruct Ht as [_ Ht]. cbn [Z.of_nat Pos.of_succ_nat Pos.succ Z.ltb
      Z.compare Pos.compare Pos.compare_cont] in Ht.
    unfold tail_bound_met.
    change (Machine.u32 (Z.of_nat 17 + 1)) with 18%Z.
    change (IZR (Z.of_nat 17)) with 17.
    destruct (Rgt_dec 17 (2 * 8)) as [_|Hn]; [|lra].
    assert (E45 : Q2R (4 # 5) = 4 / 5).
    { unfold Q2R. cbn [Qnum Qden]. lra. }
    assert (Emax : log2 (8 / 18) - log2 (1 - 8 / 18) = log2 (Q2R (4 # 5))).
    { rewrite <- log2_div by lra. rewrite E45. f_equal. lra. }
    rewrite Emax, Hsum.
    destruct (do_add_exact (Exact.total sj) (4 # 5) Hpos ltac:(lra))
      as [Hpos' ->].
    pose proof (Hbelow _ Hpos' Ht).
    destruct (Rle_dec _ _); [reflexivity|lra].
Qed.

Lemma lambda_of_13_10 : lambda_of 13 10 = 8.
Proof.
  unfold lambda_of. destruct (Rgt_dec 13 10) as [_|Hn]; [|lra].
  replace (13 - 10) with (INR 3) by (cbn [INR]; lra).
  rewrite Rpower_pow by lra. cbn [pow]. lra.
Qed.

Lemma single_miss_3 : 1 - Rpower (1 / 2) 3 = Q2R (7 # 8).
Proof.
  replace 3 with (INR 3) by (cbn [INR]; lra).
  rewrite Rpower_pow by lra. unfold Q2R. cbn [pow Qnum Qden]. lra.
Qed.

(** C2: the early exit of [check_sec_level] accepts targets that the
    estimate of [compute_sec_level] misses by more than 0.01 bits.  For
    m = 13, H = 10, T = 3 and K = 16, [compute_sec_level] returns a value
    [r] after 29 iterations, and [check_sec_level] returns 1 in its 17th
    iteration for every target in the range from [r + 0.01] (excluded) to
    [r + 0.02]. *)
Theorem check_sec_level_accepts_missed_target :
  exists r,
    compute_sec_level 29 13 10 3 16 = Some r /\
    forall sec_level,
      r + 1 / 100 < sec_level <= r + 2 / 100 ->
      check_sec_level 17 13 10 3 16 sec_level = Some true.
Proof.
  destruct estimate_value as (st & Hrun & Hpos & Hsum).
  exists (8 * log2 (exp 1) - log2 (Q2R Exact.estimate_total)). split.
  - unfold compute_sec_level. cbv zeta.
    rewrite lambda_of_13_10, single_miss_3.
    replace (log2 8) with (log2 (Q2R 8)) by (rewrite Q2R_8; reflexivity).
    rewrite Hrun, Hsum. reflexivity.
  - intros sec_level Hsec. unfold check_sec_level. cbv zeta.
    rewrite lambda_of_13_10, single_miss_3.
    replace (log2 8) with (log2 (Q2R 8)) by (rewrite Q2R_8; reflexivity).
    apply check_value.
    assert (E : log2 (exp 8) = 8 * log2 (exp 1)).
    { unfold log2. rewrite !ln_exp. pose proof ln2_pos. field. lra. }
    rewrite E. lra.
Qed.

Lemma check_sec_level_accepts_missed_target_witness :
  exists r,
    compute_sec_level 29 13 10 3 16 = Some r /\
    check_sec_level 17 13 10 3 16 (r + 3 / 200) = Some true.
Proof.
  destruct check_sec_level_accepts_missed_target as (r & Hr & Hall).
  exists r. split; [exact Hr|]. apply Hall. lra.
Defined.

End CheckFacts.

(** ** search.c: [divru] and [ilog2] *)

(** X1: [divru(a, b)] is [a/b] rounded up, as long as [a+b-1] fits the 32
    bits of an [unsigned]: it is the least [q] with [a <= q*b]. *)
Theorem divru_rounds_up (a b : Z) :
  0 < b -> 0 <= a -> a + b - 1 < 2 ^ 32 ->
  a <= divru a b * b /\ (divru a b - 1) * b < a /\
  (forall q, a <= q * b -> divru a b <= q).
Proof.
  intros Hb Ha Hfit. unfold divru. rewrite Machine_u32_small by lia.
  pose proof (Z.div_mod (a + b - 1) b ltac:(lia)) as Hdm.
  pose proof (Z.mod_pos_bound (a + b - 1) b Hb) as Hm.
  set (q0 := (a + b - 1) / b) in *. split; [nia|]. split; [nia|].
  intros q Hq. nia.
Qed.

Lemma divru_rounds_up_witness :
  10 <= divru 10 8 * 8 /\ (divru 10 8 - 1) * 8 < 10 /\
  (forall q, 10 <= q * 8 -> divru 10 8 <= q).
Proof. apply (divru_rounds_up 10 8); lia. Defined.

Lemma ilog2_loop_log2 fuel i n :
  0 <= n -> Z.log2 n < Z.of_nat fuel ->
  ilog2_loop fuel i n = Some (i + Z.log2 n).
Proof.
  revert i n. induction fuel as [|fuel IH]; intros i n Hn Hfuel.
  - pose proof (Z.log2_nonneg n). lia.
  - cbn [ilog2_loop]. destruct (Z.gtb_spec n 1) as [Hgt|Hle].
    + rewrite IH.
      * rewrite Z.log2_shiftr by lia. f_equal.
        assert (1 <= Z.log2 n) by (apply Z.log2_le_pow2; simpl; lia). lia.
      * apply Z.shiftr_nonneg. lia.
      * rewrite Z.log2_shiftr by lia.
        assert (1 <= Z.log2 n) by (apply Z.log2_le_pow2; simpl; lia). lia.
    + assert (Hz : Z.log2 n = 0).
      { assert (n = 0 \/ n = 1) as [->| ->] by lia; reflexivity. }
      rewrite Hz. f_equal. lia.
Qed.

(** X2: [ilog2(n)] is the position of the highest set bit of [n] (0 for
    [n <= 1]): [2^i <= n < 2^(i+1)] for [n >= 1].  It undoes the shift
    [1 << i] by which [do_search] makes [w] from [log_w]. *)
Theorem ilog2_highest_bit (fuel : nat) (n : Z) :
  0 <= n < 2 ^ 32 -> (32 <= fuel)%nat ->
  exists i, ilog2 fuel n = Some i /\ 0 <= i < 32 /\
    (n <= 1 -> i = 0) /\
    (1 <= n -> 2 ^ i <= n < 2 ^ (i + 1)) /\
    (forall j, 0 <= j -> n = Z.shiftl 1 j -> i = j).
Proof.
  intros Hn Hfuel. exists (Z.log2 n).
  assert (Hlog : Z.log2 n < 32).
  { destruct (Z.eq_dec n 0) as [->|Hne]; [reflexivity|].
    apply Z.log2_lt_pow2; lia. }
  pose proof (Z.log2_nonneg n) as Hnn.
  split; [|split; [lia|split; [|split]]].
  - unfold ilog2. rewrite ilog2_loop_log2 by lia. reflexivity.
  - intros Hle. assert (n = 0 \/ n = 1) as [->| ->] by lia; reflexivity.
  - intros Hge. pose proof (Z.log2_spec n ltac:(lia)) as Hs.
    replace (Z.log2 n + 1) with (Z.succ (Z.log2 n)) by lia. exact Hs.
  - intros j Hj ->. rewrite Z.shiftl_1_l. apply Z.log2_pow2. exact Hj.
Qed.

Lemma ilog2_highest_bit_witness :
  exists i, ilog2 32 256 = Some i /\ 2 ^ i <= 256 < 2 ^ (i + 1) /\ i = 8.
Proof.
  destruct (ilog2_highest_bit 32 256) as (i & Hi & Hr & H1 & H2 & H3);
    [lia|lia|].
  exists i. split; [exact Hi|]. split; [apply H2; lia|].
  apply H3; [lia|reflexivity].
Defined.

(** ** main.c: [get_int_param] *)

Section ParamFacts.

Import Ascii String Cstring Main.

Lemma is_nul_digit c : isdigit c = true -> is_nul c = false.
Proof.
  unfold isdigit, is_nul. intros H. apply andb_prop in H.
  destruct H as [H _]. apply Z.leb_le in H. apply Z.eqb_neq. lia.
Qed.

Lemma text_digits ds rest :
  all_digits ds = true -> text (ds ++ rest)%string = (ds ++ text rest)%string.
Proof.
  induction ds as [|c ds IH]; intros H; [reflexivity|].
  cbn [all_digits] in H. apply andb_prop in H. destruct H as [Hc Hds].
  cbn [append text]. rewrite (is_nul_digit c Hc), IH by assumption.
  reflexivity.
Qed.

Lemma skip_prefix_text name : forall arg rest,
  skip_prefix arg name = Some rest ->
  text arg = (text name ++ text rest)%string.
Proof.
  induction name as [|c name IH]; intros arg rest H; cbn [skip_prefix] in H.
  - injection H as <-. reflexivity.
  - cbn [text]. destruct (is_nul c) eqn:Hc.
    + injection H as <-. reflexivity.
    + destruct (Ascii.eqb (peek arg) c) eqn:Heq; [|discriminate].
      apply Ascii.eqb_eq in Heq. cbn [negb] in H.
      destruct arg as [|c' arg'].
      * cbn [peek] in Heq. subst c. discriminate.
      * cbn [peek] in Heq. subst c'. cbn [text append]. rewrite Hc.
        f_equal. apply IH. exact H.
Qed.

Lemma skip_prefix_found name : forall arg r,
  text arg = (text name ++ r)%string ->
  exists rest, skip_prefix arg name = Some rest /\ text rest = r.
Proof.
  induction name as [|c name IH]; intros arg r H; cbn [skip_prefix].
  - exists arg. split; [reflexivity|exact H].
  - cbn [text] in H. destruct (is_nul c) eqn:Hc.
    + exists arg. split; [reflexivity|exact H].
    + destruct arg as [|c' arg']; [discriminate|].
      cbn [text append] in H. destruct (is_nul c') eqn:Hc'; [discriminate|].
      injection H as -> H. cbn [peek]. rewrite Ascii.eqb_refl. cbn [negb].
      apply IH. exact H.
Qed.

Lemma u64_step x c : u64 (10 * u64 x + c - 48) = u64 (10 * x + c - 48).
Proof.
  unfold u64.
  replace (10 * (x mod 2 ^ 64) + c - 48) with (10 * (x mod 2 ^ 64) + (c - 48))
    by lia.
  replace (10 * x + c - 48) with (10 * x + (c - 48)) by lia.
  rewrite Z.add_mod, Z.mul_mod_idemp_r by lia.
  rewrite <- Z.add_mod by lia. reflexivity.
Qed.

Lemma digits_loop_spec s : forall x,
  exists ds rest,
    digits_loop s (u64 x) = (u64 (decimal_from x ds), rest) /\
    s = (ds ++ rest)%string /\ all_digits ds = true /\
    isdigit (peek rest) = false.
Proof.
  induction s as [|c s IH]; intros x.
  - exists EmptyString, EmptyString. repeat split; reflexivity.
  - cbn [digits_loop]. destruct (isdigit c) eqn:Hc.
    + rewrite u64_step.
      destruct (IH (10 * x + code c - 48)) as (ds & rest & Hrun & Hs & Hd & Hp).
      exists (String c ds), rest. cbn [decimal_from all_digits append].
      rewrite Hc. replace (10 * x + (code c - 48)) with (10 * x + code c - 48)
        by lia.
      repeat split; try assumption. f_equal. exact Hs.
    + exists EmptyString, (String c s). repeat split; assumption.
Qed.

Lemma all_digits_app ds t :
  all_digits (ds ++ t)%string = true -> all_digits t = true.
Proof.
  induction ds as [|c ds IH]; intros H; [exact H|].
  cbn [append all_digits] in H. apply andb_prop in H. apply IH, H.
Qed.

Lemma text_peek s : text s <> EmptyString -> peek (text s) = peek s.
Proof.
  destruct s as [|c s]; [intros H; contradiction|].
  cbn [text peek]. destruct (is_nul c); [intros H; contradiction|reflexivity].
Qed.

Lemma text_empty_peek s : text s = EmptyString -> is_nul (peek s) = true.
Proof.
  destruct s as [|c s]; [reflexivity|].
  cbn [text peek]. destruct (is_nul c); [reflexivity|discriminate].
Qed.

Lemma peek_nul_text s : is_nul (peek s) = true -> text s = EmptyString.
Proof.
  destruct s as [|c s]; [reflexivity|].
  cbn [text peek]. intros ->. reflexivity.
Qed.

Lemma append_same_prefix (p s t : string) :
  (p ++ s)%string = (p ++ t)%string -> s = t.
Proof.
  induction p as [|c p IH]; intros H; [exact H|].
  cbn [append] in H. injection H as H. apply IH, H.
Qed.

Lemma append_empty_r (s : string) : (s ++ EmptyString)%string = s.
Proof. induction s as [|c s IH]; [reflexivity|cbn; rewrite IH; reflexivity]. Qed.

(** A run of digits that is followed by a non-digit is determined by the
    text. *)
Lemma digit_run_unique ds1 : forall ds2 t,
  all_digits ds1 = true -> all_digits ds2 = true ->
  ds1 = (ds2 ++ t)%string ->
  (t <> EmptyString -> isdigit (peek t) = false) ->
  t = EmptyString /\ ds1 = ds2.
Proof.
  intros ds2 t H1 H2 E Hp.
  assert (Ht : t = EmptyString).
  { destruct t as [|c t]; [reflexivity|].
    rewrite E in H1. apply all_digits_app in H1.
    cbn [all_digits] in H1. apply andb_prop in H1.
    specialize (Hp ltac:(discriminate)). cbn [peek] in Hp.
    destruct H1 as [H1 _]. congruence. }
  split; [exact Ht|]. subst t. rewrite append_empty_r in E. exact E.
Qed.

Lemma get_int_param_value (arg param_name digits : string) :
  digits <> EmptyString -> all_digits digits = true ->
  text arg = (text param_name ++ digits)%string ->
  get_int_param arg param_name = decimal_value digits mod 2 ^ 64.
Proof.
  intros Hne Hd Harg.
  destruct (skip_prefix_found _ _ _ Harg) as (rest & Hskip & Hrest).
  unfold get_int_param. rewrite Hskip.
  destruct digits as [|c ds]; [contradiction|].
  cbn [all_digits] in Hd. apply andb_prop in Hd. destruct Hd as [Hc Hds].
  destruct rest as [|c' rest']; [discriminate|].
  cbn [text] in Hrest. destruct (is_nul c') eqn:Hc'; [discriminate|].
  injection Hrest as -> Hrest. rewrite Hc. cbn [negb].
  destruct (digits_loop_spec rest' (10 * 0 + code c - 48))
    as (ds2 & rest2 & Hrun & Hs & Hd2 & Hp).
  rewrite Hrun.
  assert (Htext : ds = (ds2 ++ text rest2)%string).
  { rewrite <- Hrest, Hs. apply text_digits. exact Hd2. }
  destruct (digit_run_unique ds ds2 (text rest2) Hds Hd2 Htext) as [Hend ->].
  { intros Hne2. rewrite text_peek by exact Hne2. exact Hp. }
  rewrite (text_empty_peek _ Hend). cbn [negb].
  unfold decimal_value, u64. cbn [decimal_from].
  replace (10 * 0 + code c - 48) with (10 * 0 + (code c - 48)) by lia.
  reflexivity.
Qed.

Lemma get_int_param_form (arg param_name : string) :
  get_int_param arg param_name <> 0 ->
  exists digits,
    digits <> EmptyString /\ all_digits digits = true /\
    text arg = (text param_name ++ digits)%string.
Proof.
  intros Hnz. unfold get_int_param in Hnz.
  destruct (skip_prefix arg param_name) as [rest|] eqn:Hskip;
    [|contradiction].
  destruct rest as [|c rest']; [contradiction|].
  destruct (isdigit c) eqn:Hc; [|contradiction]. cbn [negb] in Hnz.
  destruct (digits_loop_spec rest' (10 * 0 + code c - 48))
    as (ds2 & rest2 & Hrun & Hs & Hd2 & Hp).
  rewrite Hrun in Hnz.
  destruct (is_nul (peek rest2)) eqn:Hend; [|contradiction].
  exists (String c ds2). split; [discriminate|]. split.
  - cbn [all_digits]. rewrite Hc, Hd2. reflexivity.
  - rewrite (skip_prefix_text _ _ _ Hskip). f_equal.
    cbn [text]. rewrite (is_nul_digit c Hc). f_equal.
    rewrite Hs, text_digits by exact Hd2.
    rewrite (peek_nul_text _ Hend). apply append_empty_r.
Qed.

(** X3: [get_int_param(arg, param_name)] is not 0 only for an argument
    that is the parameter name followed by one or more decimal digits and
    nothing else, and for such an argument it is the number the digits
    denote, reduced modulo [2^64].  An argument whose number is 0 (or a
    multiple of [2^64]) is therefore told apart from no match by
    nothing. *)
Theorem get_int_param_spec (arg param_name : string) :
  (forall digits,
     digits <> EmptyString -> all_digits digits = true ->
     text arg = (text param_name ++ digits)%string ->
     get_int_param arg param_name = decimal_value digits mod 2 ^ 64) /\
  (get_int_param arg param_name <> 0 ->
   exists digits,
     digits <> EmptyString /\ all_digits digits = true /\
     text arg = (text param_name ++ digits)%string).
Proof.
  split.
  - apply get_int_param_value.
  - apply get_int_param_form.
Qed.

Lemma get_int_param_spec_witness :
  get_int_param "sign=100000" "sign=" = 100000 /\
  exists digits,
    digits <> EmptyString /\ all_digits digits = true /\
    text "sign=100000" = (text "sign=" ++ digits)%string.
Proof.
  destruct (get_int_param_spec "sign=100000" "sign=") as [Hval Hform].
  split.
  - apply (Hval "100000"%string); [discriminate|reflexivity|reflexivity].
  - apply Hform. vm_compute. discriminate.
Defined.

End ParamFacts.

(** ** search.c: [commify] *)

Section CommifyFacts.

Import Ascii String Cstring Main.

Lemma code_char_of z : 0 <= z < 256 -> code (char_of z) = z.
Proof.
  intros Hz. unfold code, char_of. rewrite nat_ascii_embedding by lia. lia.
Qed.

Lemma code_digit_char n : code (digit_char n) = n mod 10 + 48.
Proof.
  unfold digit_char. pose proof (Z.mod_pos_bound n 10 ltac:(lia)).
  apply code_char_of. lia.
Qed.

Lemma isdigit_digit_char n : isdigit (digit_char n) = true.
Proof.
  unfold isdigit. rewrite code_digit_char.
  pose proof (Z.mod_pos_bound n 10 ltac:(lia)).
  apply andb_true_intro. split; apply Z.leb_le; lia.
Qed.

Lemma digit_not_comma c : isdigit c = true -> Ascii.eqb c comma = false.
Proof.
  intros H. apply Ascii.eqb_neq. intros ->. discriminate.
Qed.

Lemma decimal_from_app s : forall acc t,
  decimal_from acc (s ++ t)%string = decimal_from (decimal_from acc s) t.
Proof.
  induction s as [|c s IH]; intros acc t; [reflexivity|].
  cbn [append decimal_from]. apply IH.
Qed.

Lemma decimal_from_shift s : forall acc,
  decimal_from acc s = acc * 10 ^ Z.of_nat (length s) + decimal_from 0 s.
Proof.
  induction s as [|c s IH]; intros acc.
  - cbn [decimal_from length Z.of_nat]. lia.
  - cbn [decimal_from length]. rewrite IH, (IH (10 * 0 + (code c - 48))).
    rewrite Nat2Z.inj_succ, Z.pow_succ_r by lia. ring.
Qed.

Lemma strip_commas_digits lead : forall t,
  all_digits lead = true ->
  strip_commas (lead ++ t)%string = (lead ++ strip_commas t)%string.
Proof.
  induction lead as [|c lead IH]; intros t H; [reflexivity|].
  cbn [all_digits] in H. apply andb_prop in H. destruct H as [Hc Hl].
  cbn [append strip_commas]. rewrite (digit_not_comma c Hc), IH by exact Hl.
  reflexivity.
Qed.

Lemma all_digits_append s t :
  all_digits s = true -> all_digits t = true ->
  all_digits (s ++ t)%string = true.
Proof.
  induction s as [|c s IH]; intros Hs Ht; [exact Ht|].
  cbn [all_digits] in Hs. apply andb_prop in Hs. destruct Hs as [Hc Hs].
  cbn [append all_digits]. rewrite Hc. cbn [andb]. apply IH; assumption.
Qed.

Lemma append_assoc (s t u : string) :
  ((s ++ t) ++ u)%string = (s ++ (t ++ u))%string.
Proof.
  induction s as [|c s IH]; [reflexivity|]. cbn [append]. rewrite IH.
  reflexivity.
Qed.

Lemma length_append (s t : string) :
  length (s ++ t)%string = (length s + length t)%nat.
Proof.
  induction s as [|c s IH]; [reflexivity|]. cbn [append length].
  rewrite IH. reflexivity.
Qed.

(** The loop [while (n)]: the digits of [n], the first of them not 0. *)
Lemma commify_digits_spec f : forall (k : nat) n buffer,
  (k <= f)%nat -> 0 <= n < 10 ^ Z.of_nat k ->
  exists lead,
    commify_digits (S f) n buffer = Some (lead ++ buffer)%string /\
    all_digits lead = true /\ decimal_from 0 lead = n /\
    (length lead <= k)%nat /\
    (n = 0 -> lead = EmptyString) /\
    (n <> 0 -> code (peek lead) <> 48).
Proof.
  induction f as [|f IH]; intros k n buffer Hk Hn.
  - assert (k = 0%nat) as -> by lia.
    assert (n = 0) as -> by (cbn in Hn; lia).
    exists EmptyString. cbn. repeat split; try reflexivity; lia.
  - cbn [commify_digits]. destruct (Z.eqb_spec n 0) as [->|Hne].
    + exists EmptyString. cbn [append all_digits decimal_from length].
      repeat split; try reflexivity; lia.
    + destruct k as [|k]; [cbn in Hn; lia|].
      assert (Hq : 0 <= n / 10 < 10 ^ Z.of_nat k).
      { rewrite Nat2Z.inj_succ, Z.pow_succ_r in Hn by lia.
        split; [apply Z.div_pos; lia|apply Z.div_lt_upper_bound; lia]. }
      destruct (IH k (n / 10) (String (digit_char n) buffer) ltac:(lia) Hq)
        as (lead & Hrun & Hd & Hv & Hl & H0 & H1).
      exists (lead ++ String (digit_char n) EmptyString)%string.
      rewrite append_assoc. cbn [append]. split; [exact Hrun|].
      split.
      { apply all_digits_append; [exact Hd|]. cbn [all_digits].
        rewrite isdigit_digit_char. reflexivity. }
      split.
      { rewrite decimal_from_app, Hv. cbn [decimal_from].
        rewrite code_digit_char. pose proof (Z.div_mod n 10 ltac:(lia)). lia. }
      split.
      { rewrite length_append. cbn [length]. lia. }
      split; [intros H; contradiction|]. intros _.
      destruct (Z.eq_dec (n / 10) 0) as [Hz|Hnz].
      * rewrite (H0 Hz). cbn [append peek]. rewrite code_digit_char.
        pose proof (Z.div_mod n 10 ltac:(lia)). lia.
      * specialize (H1 Hnz). destruct lead as [|c lead]; [|exact H1].
        cbn [decimal_from] in Hv. congruence.
Qed.

(** The loop [while (n >= 1000)]: groups of a comma and three digits,
    which hold the digits of [n] that the division has taken away. *)
Lemma commify_groups_spec f : forall (k : nat) n buffer,
  (k <= f)%nat -> 0 <= n < 1000 ^ Z.of_nat (S k) ->
  comma_groups buffer = true ->
  exists n' buffer',
    commify_groups (S f) n buffer = Some (n', buffer') /\
    0 <= n' < 1000 /\ (n <> 0 -> n' <> 0) /\
    comma_groups buffer' = true /\
    (n < 1000 -> buffer' = buffer) /\
    (length buffer' <= length buffer + 4 * k)%nat /\
    (length buffer' - length buffer
     = (length (strip_commas buffer') - length (strip_commas buffer)) / 3 * 4
    )%nat /\
    (length (strip_commas buffer) <= length (strip_commas buffer'))%nat /\
    (length buffer <= length buffer')%nat /\
    (all_digits (strip_commas buffer) = true ->
     all_digits (strip_commas buffer') = true) /\
    n' * 10 ^ Z.of_nat (length (strip_commas buffer'))
      + decimal_from 0 (strip_commas buffer')
    = n * 10 ^ Z.of_nat (length (strip_commas buffer))
      + decimal_from 0 (strip_commas buffer).
Proof.
  induction f as [|f IH]; intros k n buffer Hk Hn Hb;
    cbn [commify_groups]; destruct (Z.geb_spec n 1000) as [Hge|Hlt].
  - assert (k = 0%nat) as -> by lia. cbn in Hn. lia.
  - exists n, buffer. rewrite !Nat.sub_diag.
    repeat split; try reflexivity; try lia; try exact Hb. intros H; exact H.
  - destruct k as [|k]; [cbn in Hn; lia|].
    set (c0 := digit_char n). set (c1 := digit_char (n / 10)).
    set (c2 := digit_char (n / 10 / 10)).
    set (buffer1 := String comma (String c2 (String c1 (String c0 buffer)))).
    assert (Hq : 0 <= n / 10 / 10 / 10 < 1000 ^ Z.of_nat (S k)).
    { rewrite (Nat2Z.inj_succ (S k)), Z.pow_succ_r in Hn by lia.
      rewrite !Z.div_div by lia. change (10 * 10 * 10) with 1000.
      split; [apply Z.div_pos; lia|apply Z.div_lt_upper_bound; lia]. }
    assert (Hb1 : comma_groups buffer1 = true).
    { unfold buffer1. cbn [comma_groups]. unfold c0, c1, c2.
      rewrite !isdigit_digit_char, Hb. reflexivity. }
    destruct (IH k (n / 10 / 10 / 10) buffer1 ltac:(lia) Hq Hb1)
      as (n' & buffer' & Hrun & Hr & Hnz & Hg & Hsame & Hlen & Hrat & Hmono
          & Hmono' & Hdig & Hval).
    exists n', buffer'. split; [exact Hrun|]. split; [exact Hr|].
    assert (Hq1 : 1 <= n / 10 / 10 / 10).
    { rewrite !Z.div_div by lia. change (10 * 10 * 10) with 1000.
      apply Z.div_le_lower_bound; lia. }
    split; [intros _; apply Hnz; lia|]. split; [exact Hg|].
    split; [intros Hlt; lia|].
    assert (Hstrip : strip_commas buffer1
                     = String c2 (String c1 (String c0 (strip_commas buffer)))).
    { unfold buffer1. cbn [strip_commas]. rewrite Ascii.eqb_refl.
      unfold c0, c1, c2.
      rewrite !(digit_not_comma _ (isdigit_digit_char _)). reflexivity. }
    rewrite Hstrip in Hrat, Hmono, Hval, Hdig.
    unfold buffer1 in Hlen, Hrat, Hmono'.
    cbn [length] in Hlen, Hrat, Hmono, Hmono'.
    split; [lia|]. split.
    { set (L' := length (strip_commas buffer')) in *.
      set (L := length (strip_commas buffer)) in *.
      replace (L' - L)%nat with ((L' - S (S (S L))) + 1 * 3)%nat by lia.
      rewrite Nat.div_add by lia. lia. }
    split; [lia|]. split; [lia|].
    split.
    { intros Hd. apply Hdig. cbn [all_digits]. unfold c0, c1, c2.
      rewrite !isdigit_digit_char, Hd. reflexivity. }
    rewrite Hval. cbn [length decimal_from]. unfold c0, c1, c2.
    rewrite !code_digit_char.
    rewrite (decimal_from_shift (strip_commas buffer)).
    rewrite !Nat2Z.inj_succ, !Z.pow_succ_r by lia.
    pose proof (Z.div_mod n 10 ltac:(lia)).
    pose proof (Z.div_mod (n / 10) 10 ltac:(lia)).
    pose proof (Z.div_mod (n / 10 / 10) 10 ltac:(lia)).
    set (P := 10 ^ Z.of_nat (length (strip_commas buffer))) in *.
    set (V := decimal_from 0 (strip_commas buffer)) in *.
    nia.
  - exists n, buffer. rewrite !Nat.sub_diag.
    repeat split; try reflexivity; try lia; try exact Hb. intros H; exact H.
Qed.


Lemma decimal_from_nonneg s : forall acc,
  0 <= acc -> all_digits s = true -> 0 <= decimal_from acc s.
Proof.
  induction s as [|c s IH]; intros acc Hacc Hd; [exact Hacc|].
  cbn [all_digits] in Hd. apply andb_prop in Hd. destruct Hd as [Hc Hd].
  cbn [decimal_from]. apply IH; [|exact Hd].
  unfold isdigit in Hc. apply andb_prop in Hc. destruct Hc as [Hc _].
  apply Z.leb_le in Hc. lia.
Qed.

(** The text [commify] builds for an [unsigned] value. *)
Lemma commify_spec (fuel : nat) (n : Z) :
  0 <= n < 2 ^ 32 -> (4 <= fuel)%nat ->
  exists lead groups,
    commify fuel n = Some (lead ++ groups)%string /\
    all_digits lead = true /\ (length lead <= 3)%nat /\
    comma_groups groups = true /\
    all_digits (strip_commas groups) = true /\
    (n = 0 -> lead = EmptyString /\ groups = EmptyString) /\
    (n <> 0 -> lead <> EmptyString /\ code (peek lead) <> 48) /\
    (n < 1000 -> groups = EmptyString) /\
    (length (lead ++ groups)%string <= 13)%nat /\
    decimal_value (strip_commas (lead ++ groups)%string) = n.
Proof.
  intros Hn Hfuel. destruct fuel as [|f]; [lia|].
  destruct (commify_groups_spec f 3 n EmptyString ltac:(lia) ltac:(cbn; lia)
              eq_refl)
    as (n' & buffer' & Hrun & Hr & Hnz & Hg & Hsame & Hlen & Hrat & Hmono
        & Hmono' & Hdig & Hval).
  specialize (Hdig eq_refl).
  cbn [strip_commas length decimal_from Z.of_nat] in Hval, Hrat, Hlen.
  rewrite Nat.sub_0_r in Hrat. rewrite Nat.sub_0_r in Hrat.
  pose proof (decimal_from_nonneg _ 0 ltac:(lia) Hdig) as Hv.
  set (L := length (strip_commas buffer')) in *.
  set (V := decimal_from 0 (strip_commas buffer')) in *.
  assert (Hk : exists k : nat,
            (k <= 3)%nat /\ 0 <= n' < 10 ^ Z.of_nat k /\
            (k + length buffer' <= 13)%nat).
  { destruct (Z.ltb_spec n' 10) as [Hsmall|Hbig].
    - exists 1%nat. cbn. lia.
    - exists 3%nat. split; [lia|]. split; [cbn; lia|].
      destruct (Nat.le_gt_cases 9 L) as [H9|H9].
      + assert (10 ^ 9 <= 10 ^ Z.of_nat L)
          by (apply Z.pow_le_mono_r; lia).
        change (10 ^ 9) with 1000000000 in *.
        change (2 ^ 32) with 4294967296 in *. nia.
      + assert (L / 3 < 3)%nat.
        { apply Nat.Div0.div_lt_upper_bound. lia. }
        lia. }
  destruct Hk as (k & Hk3 & Hnk & Hktot).
  destruct (commify_digits_spec f k n' buffer' ltac:(lia) Hnk)
    as (lead & Hrun' & Hd & Hvl & Hl & H0 & H1).
  exists lead, buffer'. unfold commify. rewrite Hrun.
  split; [exact Hrun'|]. split; [exact Hd|]. split; [lia|].
  split; [exact Hg|]. split; [exact Hdig|].
  split.
  { intros ->. split; [apply H0|apply Hsame]; lia. }
  split.
  { intros Hne. specialize (Hnz Hne). split; [|apply H1; exact Hnz].
    intros ->. cbn [decimal_from] in Hvl. congruence. }
  split; [exact Hsame|]. split; [rewrite length_append; lia|].
  unfold decimal_value. rewrite strip_commas_digits by exact Hd.
  rewrite decimal_from_app, Hvl, decimal_from_shift. fold L V. lia.
Qed.

(** X4: [commify] writes the decimal digits of its argument: with the
    commas taken out, the text is read back by [get_int_param] as the
    number itself.  The text is empty for 0. *)
Theorem commify_round_trip (fuel : nat) (n : Z) :
  0 <= n < 2 ^ 32 -> (4 <= fuel)%nat ->
  exists s,
    commify fuel n = Some s /\
    (s = EmptyString <-> n = 0) /\
    get_int_param (strip_commas s) EmptyString = n.
Proof.
  intros Hn Hfuel.
  destruct (commify_spec fuel n Hn Hfuel)
    as (lead & groups & Hrun & Hd & Hl & Hg & Hgd & H0 & H1 & _ & _ & Hval).
  exists (lead ++ groups)%string. split; [exact Hrun|].
  destruct (Z.eq_dec n 0) as [->|Hne].
  - destruct (H0 eq_refl) as [-> ->]. repeat split; reflexivity.
  - destruct (H1 Hne) as [Hlead _]. split.
    + split; [|intros; contradiction].
      intros E. destruct lead; [contradiction|discriminate].
    + assert (Hall : all_digits (strip_commas (lead ++ groups)%string) = true).
      { rewrite strip_commas_digits by exact Hd.
        apply all_digits_append; assumption. }
      rewrite (get_int_param_value _ EmptyString
                 (strip_commas (lead ++ groups)%string)).
      * rewrite Hval. apply Z.mod_small.
        change (2 ^ 64) with 18446744073709551616.
        change (2 ^ 32) with 4294967296 in Hn. lia.
      * rewrite strip_commas_digits by exact Hd.
        destruct lead; [contradiction|discriminate].
      * exact Hall.
      * cbn [text append].
        rewrite <- (append_empty_r (strip_commas (lead ++ groups)%string)) at 1.
        rewrite text_digits by exact Hall. cbn [text].
        apply append_empty_r.
Qed.

Lemma commify_round_trip_witness :
  commify 4 65536 = Some "65,536"%string /\
  get_int_param (strip_commas "65,536") EmptyString = 65536.
Proof.
  destruct (commify_round_trip 4 65536) as (s & Hs & _ & Hback);
    [lia|lia|].
  assert (E : commify 4 65536 = Some "65,536"%string) by reflexivity.
  split; [exact E|]. rewrite E in Hs. injection Hs as <-. exact Hback.
Defined.

(** X5: the text of [commify] is one to three digits, the first of them
    not 0, followed by groups of a comma and three digits; there is no
    group for a number below 1000.  It has at most 13 characters, far
    fewer than the 100 of the buffer. *)
Theorem commify_format (fuel : nat) (n : Z) :
  0 < n < 2 ^ 32 -> (4 <= fuel)%nat ->
  exists lead groups,
    commify fuel n = Some (lead ++ groups)%string /\
    all_digits lead = true /\ (1 <= length lead <= 3)%nat /\
    code (peek lead) <> 48 /\
    comma_groups groups = true /\
    (n < 1000 -> groups = EmptyString) /\
    (length (lead ++ groups)%string <= 13)%nat.
Proof.
  intros Hn Hfuel.
  destruct (commify_spec fuel n ltac:(lia) Hfuel)
    as (lead & groups & Hrun & Hd & Hl & Hg & _ & _ & H1 & Hsmall & Hlen & _).
  destruct (H1 ltac:(lia)) as [Hne Hfirst].
  exists lead, groups. repeat split; try assumption.
  destruct lead; [contradiction|cbn [length]; lia].
Qed.

Lemma commify_format_witness :
  exists lead groups,
    commify 4 4294967295 = Some (lead ++ groups)%string /\
    (1 <= length lead <= 3)%nat /\ comma_groups groups = true /\
    (length (lead ++ groups)%string <= 13)%nat.
Proof.
  destruct (commify_format 4 4294967295)
    as (lead & groups & Hrun & _ & Hl & _ & Hg & _ & Hlen); [lia|lia|].
  exists lead, groups. repeat split; try assumption; lia.
Defined.

End CommifyFacts.

(** ** main.c: [main] *)

Section MainFacts.

Import Ascii String Cstring Main.

Lemma to_int_range t : is_int (to_int t).
Proof.
  unfold is_int, to_int. pose proof (Z.mod_pos_bound (t + 2 ^ 31) (2 ^ 32)).
  lia.
Qed.

Lemma parse_arg_recognised arg s :
  recognised arg = false <-> parse_arg arg s = None.
Proof.
  unfold recognised, parse_arg. cbn [existsb].
  destruct (get_int_param arg "s=" =? 0); cbn [negb orb];
    [|split; discriminate].
  destruct (get_int_param arg "n=" =? 0); cbn [negb orb];
    [|split; discriminate].
  destruct (get_int_param arg "sign=" =? 0); cbn [negb orb];
    [|split; discriminate].
  destruct (get_int_param arg "tests=" =? 0); cbn [negb orb];
    [|split; discriminate].
  destruct (get_int_param arg "maxs=" =? 0); cbn [negb orb];
    [|split; discriminate].
  destruct (after_prefix arg "label=");
    [destruct (get_int_param arg "d=" =? 0), (get_int_param arg "h=" =? 0),
       (get_int_param arg "a=" =? 0); cbn [negb orb]; split; discriminate|].
  destruct (get_int_param arg "d=" =? 0); cbn [negb orb];
    [|split; discriminate].
  destruct (get_int_param arg "h=" =? 0); cbn [negb orb];
    [|split; discriminate].
  destruct (get_int_param arg "a=" =? 0); cbn [negb orb];
    split; try discriminate; reflexivity.
Qed.

Lemma parse_args_none args : forall s,
  parse_args args s = None <->
  exists arg, In arg args /\ recognised arg = false.
Proof.
  induction args as [|arg args IH]; intros s; cbn [parse_args].
  - split; [discriminate|]. intros (x & [] & _).
  - destruct (parse_arg arg s) as [s'|] eqn:Hp.
    + rewrite IH. split.
      * intros (x & Hin & Hx). exists x. split; [right; exact Hin|exact Hx].
      * intros (x & [->|Hin] & Hx).
        -- apply (parse_arg_recognised x s) in Hx. congruence.
        -- exists x. split; assumption.
    + split; [|reflexivity]. intros _. exists arg.
      split; [left; reflexivity|]. apply (parse_arg_recognised arg s), Hp.
Qed.

(** X6: [main] prints the usage text without a message, and does not
    search, exactly when one of its arguments is accepted by none of the
    tests: neither [label=...] nor one of the eight names followed by a
    number that [get_int_param] returns as non-zero.  So [d=0] is such an
    argument. *)
Theorem main_usage_on_unrecognised (args : list string) :
  main args = Usage None <->
  exists arg, In arg args /\ recognised arg = false.
Proof.
  rewrite <- (parse_args_none args no_settings). unfold main.
  destruct (parse_args args no_settings) as [s|]; [|split; reflexivity].
  split; [|discriminate].
  destruct (sec_level s =? 0); [discriminate|].
  destruct (num_sig s =? 0); [discriminate|].
  destruct (sign_op s =? 0); discriminate.
Qed.

Lemma main_usage_on_unrecognised_witness :
  main ["s=128"; "n=20"; "sign=100000"; "d=0"]%string = Usage None.
Proof.
  apply (main_usage_on_unrecognised ["s=128"; "n=20"; "sign=100000"; "d=0"]%string).
  exists "d=0"%string. split; [cbn; tauto|reflexivity].
Defined.

Lemma parse_arg_kept arg s s' :
  parse_arg arg s = Some s' ->
  (is_int (sec_level s) -> is_int (sec_level s')) /\
  (is_int (num_sig s) -> is_int (num_sig s')) /\
  (is_int (sign_op s) -> is_int (sign_op s')) /\
  (get_int_param arg "tests=" = 0 -> test_s s' = test_s s).
Proof.
  unfold parse_arg. intros H.
  repeat match type of H with
         | (if negb (?x =? 0) then _ else _) = _ =>
             destruct (Z.eqb_spec x 0); cbn [negb] in H
         | match ?x with Some _ => _ | None => _ end = _ => destruct x
         end;
    try discriminate; injection H as <-; cbn [sec_level num_sig sign_op test_s];
    (split; [|split; [|split]]); auto using to_int_range; intros; congruence.
Qed.

Lemma parse_args_kept args : forall s s',
  parse_args args s = Some s' ->
  (is_int (sec_level s) -> is_int (sec_level s')) /\
  (is_int (num_sig s) -> is_int (num_sig s')) /\
  (is_int (sign_op s) -> is_int (sign_op s')) /\
  ((forall arg, In arg args -> get_int_param arg "tests=" = 0) ->
   test_s s' = test_s s).
Proof.
  induction args as [|arg args IH]; intros s s' H; cbn [parse_args] in H.
  - injection H as <-. (split; [|split; [|split]]); auto.
  - destruct (parse_arg arg s) as [s1|] eqn:Hp; [|discriminate].
    destruct (parse_arg_kept _ _ _ Hp) as (A1 & A2 & A3 & A4).
    destruct (IH _ _ H) as (B1 & B2 & B3 & B4).
    (split; [|split; [|split]]); auto. intros Hno.
    rewrite B4, A4; [reflexivity| |]; intros; apply Hno; cbn [In]; auto.
Qed.

Lemma u32_int_nonzero z : is_int z -> z <> 0 -> 0 < Machine.u32 z < 2 ^ 32.
Proof.
  unfold is_int, Machine.u32. intros Hz Hne.
  pose proof (Z.mod_pos_bound z (2 ^ 32) ltac:(lia)).
  assert (z mod 2 ^ 32 <> 0); [|lia].
  intros H0. apply Z.mod_divide in H0; [|lia].
  destruct H0 as [q Hq]. lia.
Qed.

(** X7: when [main] calls [do_search], the three mandatory values are not
    0, and if no argument is a [tests=] one, the secondary security level
    it passes is [sec_level - 32], or half the security level when that
    is below 32. *)
Theorem main_search_arguments (args : list string)
    (sl ns ts so ms : Z) (lbl : option string) (dr hr ar : Z) :
  main args = Search sl ns ts so ms lbl dr hr ar ->
  (sl <> 0 /\ is_int sl) /\ 0 < ns < 2 ^ 32 /\ 0 < so < 2 ^ 32 /\
  ((forall arg, In arg args -> get_int_param arg "tests=" = 0) ->
   (32 <= sl -> ts = sl - 32) /\ (0 < sl < 32 -> ts = sl / 2)).
Proof.
  unfold main. intros H.
  destruct (parse_args args no_settings) as [s|] eqn:Hp; [|discriminate].
  destruct (parse_args_kept _ _ _ Hp) as (A1 & A2 & A3 & A4).
  assert (Hz : is_int 0) by (unfold is_int; lia).
  specialize (A1 Hz). specialize (A2 Hz). specialize (A3 Hz).
  destruct (Z.eqb_spec (sec_level s) 0) as [|H1]; [discriminate|].
  destruct (Z.eqb_spec (num_sig s) 0) as [|H2]; [discriminate|].
  destruct (Z.eqb_spec (sign_op s) 0) as [|H3]; [discriminate|].
  injection H as <- <- <- <- _ _ _ _ _.
  split; [split; assumption|].
  split; [apply u32_int_nonzero; assumption|].
  split; [apply u32_int_nonzero; assumption|].
  intros Hno. rewrite (A4 Hno). cbn [test_s no_settings Z.eqb].
  unfold default_test_s. unfold is_int in A1. split.
  - intros Hge. destruct (Z.ltb_spec (sec_level s - 32) 0); [lia|].
    apply Machine_u32_small. lia.
  - intros Hlt. destruct (Z.ltb_spec (sec_level s - 32) 0); [|lia].
    rewrite Z.quot_div_nonneg by lia. apply Machine_u32_small.
    split; [apply Z.div_pos; lia|].
    apply Z.div_lt_upper_bound; lia.
Qed.

Lemma main_search_arguments_witness :
  main ["s=128"; "n=20"; "sign=100000"]%string
  = Search 128 20 96 100000 0 None 0 0 0 /\
  96 = 128 - 32.
Proof.
  assert (E : main ["s=128"; "n=20"; "sign=100000"]%string
              = Search 128 20 96 100000 0 None 0 0 0) by reflexivity.
  split; [exact E|].
  destruct (main_search_arguments _ _ _ _ _ _ _ _ _ _ E) as (_ & _ & _ & Hts).
  apply Hts; [|lia].
  intros arg [<-|[<-|[<-|[]]]]; reflexivity.
Defined.

End MainFacts.

(** ** search.c: the Winternitz digits *)

Lemma shiftl_1_pow2 n : 0 <= n -> Z.shiftl 1 n = 2 ^ n.
Proof. intros Hn. rewrite Z.shiftl_1_l. reflexivity. Qed.

(** The checksum-digit loop stops at the first power of [w] that is not
    below [max_sum]. *)
Lemma checksum_loop_least fuel w max_sum : forall c prod r,
  2 <= w <= 256 -> max_sum <= 2 ^ 24 -> 1 <= c -> prod = w ^ c ->
  checksum_loop fuel w max_sum c prod = Some r ->
  c <= r /\ max_sum <= w ^ r /\ (r = c \/ w ^ (r - 1) < max_sum).
Proof.
  induction fuel as [|fuel IH]; intros c prod r Hw Hmax Hc Hprod Hrun;
    cbn [checksum_loop] in Hrun; [discriminate|].
  destruct (Z.ltb_spec prod max_sum) as [Hlt|Hge].
  - assert (Hpos : 0 < prod) by (subst prod; apply Z.pow_pos_nonneg; lia).
    rewrite Machine_u32_small in Hrun by nia.
    assert (Hnext : prod * w = w ^ (c + 1)).
    { rewrite Z.pow_add_r by lia. rewrite Z.pow_1_r. congruence. }
    destruct (IH (c + 1) (prod * w) r Hw Hmax ltac:(lia) Hnext Hrun)
      as (Hr & Hcover & Hleast).
    split; [lia|]. split; [exact Hcover|]. right.
    destruct Hleast as [->|Hleast]; [|exact Hleast].
    replace (c + 1 - 1) with c by lia. congruence.
  - injection Hrun as <-. split; [lia|]. split; [lia|]. left. reflexivity.
Qed.

(** The largest checksum fits 24 bits up to a security level of 526344. *)
Lemma max_sum_bound sec_level log_w :
  0 < sec_level <= 526344 -> 2 <= log_w <= 8 ->
  0 <= (Z.shiftl 1 log_w - 1) * hash_digits sec_level log_w <= 2 ^ 24.
Proof.
  intros Hs Hw. unfold hash_digits.
  rewrite Machine_u32_small by lia.
  assert (Hq : 0 <= (sec_level + log_w - 1) / log_w)
    by (apply Z.div_pos; lia).
  assert (log_w = 2 \/ log_w = 3 \/ log_w = 4 \/ log_w = 5 \/ log_w = 6 \/
          log_w = 7 \/ log_w = 8) as Hcase by lia.
  destruct Hcase as [->|[->|[->|[->|[->|[->| ->]]]]]];
    match goal with
    | |- context [Z.shiftl 1 ?n - 1] =>
        let v := eval vm_compute in (Z.shiftl 1 n - 1) in
        change (Z.shiftl 1 n - 1) with v
    end;
    match goal with
    | |- context [?x / ?y] => pose proof (Z.mul_div_le x y ltac:(lia))
    end;
    change (2 ^ 24) with 16777216; lia.
Qed.

(** X8: the Winternitz digits of a parameter set.  [hash_d] digits of
    [log_w] bits are the fewest that hold the [sec_level] bits of the
    hash, and [checksum_d] is the least number of digits, at least one,
    with [w^checksum_d >= (w-1)*hash_d], the largest checksum. *)
Theorem winternitz_digits_cover (fuel : nat) (sec_level log_w wd : Z) :
  0 < sec_level <= 526344 -> 2 <= log_w <= 8 ->
  winternitz_digits fuel sec_level (Z.shiftl 1 log_w) log_w = Some wd ->
  let w := 2 ^ log_w in
  exists hash_d checksum_d,
    wd = hash_d + checksum_d /\
    (hash_d - 1) * log_w < sec_level <= hash_d * log_w /\
    1 <= checksum_d /\
    (w - 1) * hash_d <= w ^ checksum_d /\
    (checksum_d = 1 \/ w ^ (checksum_d - 1) < (w - 1) * hash_d).
Proof.
  intros Hs Hw Hrun w. unfold winternitz_digits in Hrun.
  pose proof (max_sum_bound sec_level log_w Hs Hw) as Hmax.
  rewrite shiftl_1_pow2 in * by lia. fold w in Hrun, Hmax.
  rewrite (Machine_u32_small ((w - 1) * _)) in Hrun
    by (change (2 ^ 32) with 4294967296; change (2 ^ 24) with 16777216 in Hmax;
        lia).
  destruct (checksum_loop fuel w _ 1 w) as [checksum_d|] eqn:Hloop;
    [|discriminate].
  injection Hrun as <-.
  assert (Hw' : 2 <= w <= 256).
  { unfold w. split.
    - change 2 with (2 ^ 1) at 1. apply Z.pow_le_mono_r; lia.
    - change 256 with (2 ^ 8). apply Z.pow_le_mono_r; lia. }
  assert (Hw1 : w = w ^ 1) by (rewrite Z.pow_1_r; reflexivity).
  destruct (checksum_loop_least fuel w _ 1 w checksum_d Hw' (proj2 Hmax)
              (Z.le_refl 1) Hw1 Hloop)
    as (Hc & Hcover & Hleast).
  assert (Hhash : (hash_digits sec_level log_w - 1) * log_w < sec_level
                  <= hash_digits sec_level log_w * log_w).
  { unfold hash_digits. rewrite Machine_u32_small by lia.
    pose proof (Z.div_mod (sec_level + log_w - 1) log_w ltac:(lia)) as Hdm.
    pose proof (Z.mod_pos_bound (sec_level + log_w - 1) log_w ltac:(lia)).
    nia. }
  assert (Hsmall : checksum_d <= 25).
  { destruct Hleast as [->|Hleast]; [lia|].
    destruct (Z.le_gt_cases checksum_d 25) as [|Hbig]; [assumption|].
    assert (2 ^ 24 <= w ^ (checksum_d - 1)).
    { apply Z.le_trans with (2 ^ (checksum_d - 1)).
      - apply Z.pow_le_mono_r; lia.
      - apply Z.pow_le_mono_l. lia. }
    lia. }
  exists (hash_digits sec_level log_w), checksum_d.
  split.
  { apply Machine_u32_small.
    assert (0 <= hash_digits sec_level log_w <= 2 ^ 24) by nia.
    change (2 ^ 24) with 16777216 in *. change (2 ^ 32) with 4294967296. lia. }
  split; [exact Hhash|]. split; [exact Hc|]. split; assumption.
Qed.

Lemma winternitz_digits_cover_witness :
  winternitz_digits 13 128 (Z.shiftl 1 4) 4 = Some 35 /\
  exists hash_d checksum_d,
    35 = hash_d + checksum_d /\
    (hash_d - 1) * 4 < 128 <= hash_d * 4 /\
    (2 ^ 4 - 1) * hash_d <= (2 ^ 4) ^ checksum_d.
Proof.
  split; [reflexivity|].
  destruct (winternitz_digits_cover 13 128 4 35) as (hd & cd & H1 & H2 & _ & H3 & _);
    [lia|lia|reflexivity|].
  exists hd, cd. repeat split; try assumption; lia.
Defined.

(** ** search.c: which security levels the enumeration ends for *)

Lemma winternitz_digits_ends fuel sec_level log_w :
  0 < sec_level <= 526344 -> 2 <= log_w <= 8 -> (13 <= fuel)%nat ->
  exists wd, winternitz_digits fuel sec_level (Z.shiftl 1 log_w) log_w = Some wd.
Proof.
  intros Hs Hlw Hfuel. unfold winternitz_digits.
  pose proof (max_sum_bound sec_level log_w Hs Hlw) as Hb.
  destruct (checksum_loop_ends log_w
              (Machine.u32 ((Z.shiftl 1 log_w - 1) * hash_digits sec_level log_w))
              Hlw) as (c & Hc).
  { rewrite Machine_u32_small; [lia|].
    change (2 ^ 24) with 16777216 in Hb. change (2 ^ 32) with 4294967296. lia. }
  replace fuel with (13 + (fuel - 13))%nat by lia.
  rewrite (checksum_loop_more _ _ _ _ _ _ _ Hc). eexists. reflexivity.
Qed.

Lemma w_loop_ends chk sec_level num_sig sign_op dr hr ar fuel log_ws :
  0 < sec_level <= 526344 -> (13 <= fuel)%nat ->
  Forall (fun log_w => 2 <= log_w <= 8) log_ws ->
  forall qs, exists qs',
    w_loop chk sec_level num_sig sign_op dr hr ar fuel log_ws qs = Some qs'.
Proof.
  intros Hs Hfuel. induction log_ws as [|log_w log_ws IH]; intros Hlws qs;
    cbn [w_loop].
  - eexists. reflexivity.
  - apply Forall_cons_iff in Hlws. destruct Hlws as [Hlw Hlws].
    destruct (winternitz_digits_ends fuel sec_level log_w Hs Hlw Hfuel)
      as (wd & ->).
    apply IH. exact Hlws.
Qed.

(** For [w = 256] and a security level above 526344 the product [prod]
    of the checksum-digit loop goes 256, 65536, 2^24 and then, reduced to
    32 bits, 0, where it stays, below [max_sum]. *)
Lemma winternitz_digits_256_stuck fuel sec_level :
  526345 <= sec_level <= 2 ^ 27 ->
  winternitz_digits fuel sec_level (Z.shiftl 1 8) 8 = None.
Proof.
  intros Hs. unfold winternitz_digits, hash_digits.
  change (2 ^ 27) with 134217728 in Hs.
  rewrite (Machine_u32_small (sec_level + 8 - 1))
    by (change (2 ^ 32) with 4294967296; lia).
  change (Z.shiftl 1 8) with 256. change (256 - 1) with 255.
  set (hash_d := (sec_level + 8 - 1) / 8).
  assert (Hd : 65794 <= hash_d <= 16777217).
  { unfold hash_d. split.
    - apply Z.div_le_lower_bound; lia.
    - apply Z.div_le_upper_bound; lia. }
  rewrite (Machine_u32_small (255 * hash_d))
    by (change (2 ^ 32) with 4294967296; lia).
  assert (Hnone : checksum_loop fuel 256 (255 * hash_d) 1 256 = None).
  { destruct fuel as [|fuel]; [reflexivity|]. cbn [checksum_loop].
    destruct (Z.ltb_spec 256 (255 * hash_d)); [|lia].
    change (Machine.u32 (256 * 256)) with 65536.
    destruct fuel as [|fuel]; [reflexivity|]. cbn [checksum_loop].
    destruct (Z.ltb_spec 65536 (255 * hash_d)); [|lia].
    change (Machine.u32 (65536 * 256)) with 16777216.
    destruct fuel as [|fuel]; [reflexivity|]. cbn [checksum_loop].
    destruct (Z.ltb_spec 16777216 (255 * hash_d)); [|lia].
    change (Machine.u32 (16777216 * 256)) with 0.
    apply checksum_loop_stuck. lia. }
  rewrite Hnone. reflexivity.
Qed.

Lemma w_loop_stuck chk sec_level num_sig sign_op dr hr ar fuel log_w log_ws :
  In log_w log_ws ->
  winternitz_digits fuel sec_level (Z.shiftl 1 log_w) log_w = None ->
  forall qs,
    w_loop chk sec_level num_sig sign_op dr hr ar fuel log_ws qs = None.
Proof.
  intros Hin Hnone. induction log_ws as [|x log_ws IH]; intros qs;
    [contradiction|].
  cbn [w_loop]. destruct Hin as [->|Hin].
  - rewrite Hnone. reflexivity.
  - destruct (winternitz_digits fuel sec_level (Z.shiftl 1 x) x);
      [apply IH; exact Hin|reflexivity].
Qed.

(** X9: the enumeration loops of [do_search] (search.c, the [for] loop
    over [w] with the loops for the Winternitz digits, [h_merkle], [d],
    [a] and [k] inside it) come to an end for every security level up
    to 526344, whatever [check_sec_level] returns at its calls.  From
    526345 on (at least up to [2^27]) they never end, so that [do_search]
    does not return: for [w = 256] the largest checksum exceeds [2^24],
    and the checksum-digit loop multiplies [prod] by 256 until it wraps
    around to 0 and stays below [max_sum] for ever.  The statement is
    about these loops alone; what follows them in [do_search] calls
    gamma.c again. *)
Theorem enumeration_ends_up_to_526344
    (chk : Z -> Z -> Z -> Z -> Z -> bool)
    (sec_level num_sig sign_op dr hr ar : Z) :
  (0 < sec_level <= 526344 ->
   forall fuel, (13 <= fuel)%nat ->
     exists qs,
       enumerate chk sec_level num_sig sign_op dr hr ar fuel = Some qs) /\
  (526345 <= sec_level <= 2 ^ 27 ->
   forall fuel,
     enumerate chk sec_level num_sig sign_op dr hr ar fuel = None).
Proof.
  split.
  - intros Hs fuel Hfuel. unfold enumerate.
    apply (w_loop_ends chk sec_level num_sig sign_op dr hr ar fuel
             (Zrange 2 7) Hs Hfuel).
    apply Forall_forall. intros x Hx. apply Zrange_In in Hx. lia.
  - intros Hs fuel. unfold enumerate.
    apply (w_loop_stuck chk sec_level num_sig sign_op dr hr ar fuel 8).
    + apply Zrange_In. lia.
    + apply winternitz_digits_256_stuck. exact Hs.
Qed.

Lemma enumeration_ends_up_to_526344_witness :
  (exists qs,
     enumerate (fun _ _ _ _ _ => true) 526344 20 100 0 0 0 13 = Some qs) /\
  enumerate (fun _ _ _ _ _ => true) 526345 20 100 0 0 0 1000 = None.
Proof.
  destruct (enumeration_ends_up_to_526344 (fun _ _ _ _ _ => true)
              526344 20 100 0 0 0) as [Hends _].
  destruct (enumeration_ends_up_to_526344 (fun _ _ _ _ _ => true)
              526345 20 100 0 0 0) as [_ Hstuck].
  split.
  - apply Hends; lia.
  - apply Hstuck. change (2 ^ 27) with 134217728. lia.
Defined.

(** ** search.c: the fields of a recorded parameter set *)

(** X10: what the enumeration stores in a parameter set.  [w] is a power
    of two from 4 to 256 and decides the list; [d], [a] and [k] are the
    loop variables, within 1..29, 1..29 and 1..99, and obey the
    restrictions; the set has passed [check_sec_level] for the hypertree
    height [h_merkle * d].  The field [h] is an [unsigned char]: it holds
    that height modulo 256, which is the height itself (and [h / d] the
    height of one Merkle tree) for security levels up to 225. *)
Theorem candidate_fields
    (chk : Z -> Z -> Z -> Z -> Z -> bool)
    (sec_level num_sig sign_op dr hr ar : Z) (fuel : nat)
    (qs : queues) (c : nat) (p : parameter_set) :
  enumerate chk sec_level num_sig sign_op dr hr ar fuel = Some qs ->
  (c < 3)%nat -> In p (queue_of c qs) ->
  exists log_w h_merkle,
    2 <= log_w <= 8 /\ w p = 2 ^ log_w /\ c = class_of_w (w p) /\
    2 <= h_merkle <= 31 /\ 1 <= d p <= 29 /\ 1 <= a p <= 29 /\
    1 <= k p <= 99 /\
    h_merkle * d p <= sec_level + 30 /\
    h p = (h_merkle * d p) mod 256 /\
    (sec_level <= 225 -> h p = h_merkle * d p /\ h p / d p = h_merkle) /\
    (hr <> 0 -> h_merkle = hr) /\ (dr <> 0 -> d p = dr) /\
    (ar <> 0 -> a p = Machine.u32 ar) /\
    chk num_sig (h_merkle * d p) (a p) (k p) sec_level = true.
Proof.
  intros Henum Hc Hin.
  destruct (enumerate_origin _ _ _ _ _ _ _ _ _ Henum c p Hc Hin)
    as (log_w & wd & h_merkle & d0 & a0 & k0 & Hen & Hcls & ->).
  destruct Hen as ((Hlw & _) & (Hhm & _ & Hhr) & (Hd & Hh & Hdr & _ & _)
                   & (Ha & Har) & (Hk & _ & Hchk)).
  exists log_w, h_merkle.
  unfold recorded, new_parameter_set. cbn [w d a k h].
  assert (Ew : Machine.u16 (Z.shiftl 1 log_w) = 2 ^ log_w).
  { rewrite Z.shiftl_1_l. unfold Machine.u16. apply Z.mod_small.
    split; [apply Z.pow_nonneg; lia|].
    apply Z.le_lt_trans with (2 ^ 8); [apply Z.pow_le_mono_r; lia|].
    reflexivity. }
  assert (Ed : Machine.u8 d0 = d0) by (apply Z.mod_small; cbn; lia).
  assert (Ea : Machine.u8 a0 = a0) by (apply Z.mod_small; cbn; lia).
  assert (Ek : Machine.u8 k0 = k0) by (apply Z.mod_small; cbn; lia).
  rewrite Ew, Ed, Ea, Ek.
  split; [exact Hlw|]. split; [reflexivity|].
  split; [rewrite <- Z.shiftl_1_l; exact Hcls|].
  split; [exact Hhm|]. split; [exact Hd|]. split; [exact Ha|].
  split; [exact Hk|]. split; [exact Hh|]. split; [reflexivity|].
  split.
  { intros Hs. assert (E : Machine.u8 (h_merkle * d0) = h_merkle * d0).
    { apply Z.mod_small. change (2 ^ 8) with 256. nia. }
    rewrite E. split; [reflexivity|]. apply Z.div_mul. lia. }
  split; [intros Hne; destruct Hhr; [contradiction|assumption]|].
  split; [intros Hne; destruct Hdr; [contradiction|assumption]|].
  split; [intros Hne; destruct Har; [contradiction|assumption]|].
  exact Hchk.
Qed.

Lemma candidate_fields_witness :
  let chk := fun _ _ _ _ _ : Z => true in
  let p := recorded 128 2 68 9 7 12 1 in
  enumerate chk 128 20 1000000 7 9 12 32
  = Some (mk_queues [] [p] []) /\
  exists log_w h_merkle,
    w p = 2 ^ log_w /\ h p = h_merkle * d p /\ h p / d p = h_merkle /\
    d p = 7 /\ h_merkle = 9 /\ a p = 12.
Proof.
  intros chk p.
  assert (E : enumerate chk 128 20 1000000 7 9 12 32
              = Some (mk_queues [] [p] [])) by (vm_compute; reflexivity).
  split; [exact E|].
  destruct (candidate_fields chk 128 20 1000000 7 9 12 32 _ 1%nat p E)
    as (log_w & h_merkle & _ & Hw & _ & _ & _ & _ & _ & _ & _ & Hh & Hhr & Hdr
        & Har & _); [lia|left; reflexivity|].
  exists log_w, h_merkle. destruct (Hh ltac:(lia)) as [Hh1 Hh2].
  split; [exact Hw|]. split; [exact Hh1|]. split; [exact Hh2|].
  split; [apply Hdr; lia|]. split; [apply Hhr; lia|]. apply Har. lia.
Defined.

(** X11: the verification cost recorded for a parameter set is
    [1 + k*(a+1) + 1 + d*(wd*w/2 + 1 + h_merkle)] as an integer: for
    security levels up to 32768 nothing in it exceeds 32 bits. *)
Theorem recorded_ver_time
    (chk : Z -> Z -> Z -> Z -> Z -> bool)
    (sec_level num_sig sign_op dr hr ar : Z) (fuel : nat)
    (qs : queues) (c : nat) (p : parameter_set) :
  0 < sec_level <= 32768 ->
  enumerate chk sec_level num_sig sign_op dr hr ar fuel = Some qs ->
  (c < 3)%nat -> In p (queue_of c qs) ->
  exists log_w wd h_merkle,
    2 <= log_w <= 8 /\ w p = 2 ^ log_w /\
    winternitz_digits fuel sec_level (w p) log_w = Some wd /\
    2 <= h_merkle <= 31 /\ h p = (h_merkle * d p) mod 256 /\
    ver_time p
    = 1 + k p * (a p + 1) + 1 + d p * (wd * w p / 2 + 1 + h_merkle).
Proof.
  intros Hs Henum Hc Hin.
  destruct (enumerate_origin _ _ _ _ _ _ _ _ _ Henum c p Hc Hin)
    as (log_w & wd & h_merkle & d0 & a0 & k0 & Hen & Hcls & ->).
  destruct Hen as ((Hlw & Hwd) & (Hhm & _ & _) & (Hd & _ & _ & _ & _)
                   & (Ha & _) & (Hk & _ & _)).
  pose proof (winternitz_digits_bound fuel sec_level log_w wd Hs Hlw Hwd)
    as Hwdb.
  exists log_w, wd, h_merkle.
  unfold recorded, new_parameter_set. cbn [w d a k h ver_time].
  assert (Hw : 4 <= Z.shiftl 1 log_w <= 256).
  { rewrite Z.shiftl_1_l. split.
    - change 4 with (2 ^ 2). apply Z.pow_le_mono_r; lia.
    - change 256 with (2 ^ 8). apply Z.pow_le_mono_r; lia. }
  assert (Ew : Machine.u16 (Z.shiftl 1 log_w) = Z.shiftl 1 log_w)
    by (apply Z.mod_small; change (2 ^ 16) with 65536; lia).
  assert (Ed : Machine.u8 d0 = d0) by (apply Z.mod_small; cbn; lia).
  assert (Ea : Machine.u8 a0 = a0) by (apply Z.mod_small; cbn; lia).
  assert (Ek : Machine.u8 k0 = k0) by (apply Z.mod_small; cbn; lia).
  rewrite Ew, Ed, Ea, Ek.
  split; [exact Hlw|]. split; [apply Z.shiftl_1_l|]. split; [exact Hwd|].
  split; [exact Hhm|]. split; [reflexivity|].
  set (ww := Z.shiftl 1 log_w) in *.
  assert (Hprod : 0 <= wd * ww <= 4198400) by nia.
  rewrite (Machine_u32_small (wd * ww))
    by (change (2 ^ 32) with 4294967296; lia).
  assert (Hhalf : 0 <= wd * ww / 2 <= 2099200).
  { split; [apply Z.div_pos; lia|apply Z.div_le_upper_bound; lia]. }
  apply Machine_u32_small. change (2 ^ 32) with 4294967296. nia.
Qed.

Lemma recorded_ver_time_witness :
  let chk := fun _ _ _ _ _ : Z => true in
  let p := recorded 128 2 68 9 7 12 1 in
  exists wd h_merkle,
    ver_time p = 1 + k p * (a p + 1) + 1 + d p * (wd * w p / 2 + 1 + h_merkle).
Proof.
  intros chk p.
  assert (E : enumerate chk 128 20 1000000 7 9 12 32
              = Some (mk_queues [] [p] [])) by (vm_compute; reflexivity).
  destruct (recorded_ver_time chk 128 20 1000000 7 9 12 32 _ 1%nat p
              ltac:(lia) E)
    as (log_w & wd & h_merkle & _ & _ & _ & _ & _ & Hv);
    [lia|left; reflexivity|].
  exists wd, h_merkle. exact Hv.
Defined.

(** ** search.c: what the selection loop lists and what it leaves out *)

Section FrontierFacts.

Variable compute_sigs_at_sec_level : Z -> Z -> Z -> Z -> Z.
Variables (test_sec_level max_s : Z).

Local Abbreviation step :=
  (select_step compute_sigs_at_sec_level test_sec_level max_s).
Local Abbreviation loop :=
  (select_loop compute_sigs_at_sec_level test_sec_level max_s).
Local Abbreviation overuse :=
  (overuse_of compute_sigs_at_sec_level test_sec_level).
Local Abbreviation do_cutoff_of :=
  (fun p => negb (max_s =? 0) && (Z.quot (overuse p) 100 >=? max_s)).

(** The three things an iteration can do. *)
Lemma select_step_full winner p st :
  let st' := fst (step winner p st) in
  sel_queues st' = pop winner (sel_queues st) /\
  ((nth winner (cutoff st) false = true /\
    print_list st' = print_list st /\
    min_sec_level st' = min_sec_level st /\ cutoff st' = cutoff st /\
    snd (step winner p st) = true)
   \/
   (nth winner (cutoff st) false = false /\
    overuse p <= nth winner (min_sec_level st) 0 /\
    print_list st' = print_list st /\
    min_sec_level st' = min_sec_level st /\ cutoff st' = cutoff st /\
    snd (step winner p st) = true)
   \/
   (nth winner (cutoff st) false = false /\
    nth winner (min_sec_level st) 0 < overuse p /\
    print_list st' = print_list st ++ [p] /\
    min_sec_level st' =
      update_from winner (fun m => if overuse p >? m then overuse p else m)
        (min_sec_level st) /\
    cutoff st' =
      update_from winner (fun c => c || do_cutoff_of p) (cutoff st) /\
    snd (step winner p st) = negb (nth 0 (cutoff st') false))).
Proof.
  unfold select_step.
  destruct (nth winner (cutoff st) false) eqn:Hcut; cbn.
  - split; [reflexivity|]. left. repeat split.
  - destruct (Z.leb_spec (overuse p) (nth winner (min_sec_level st) 0)); cbn.
    + split; [reflexivity|]. right. left. repeat split. assumption.
    + split; [reflexivity|]. right. right. repeat split. assumption.
Qed.

Lemma do_cutoff_reaches p :
  do_cutoff_of p = true <-> reaches_limit overuse max_s p.
Proof.
  unfold reaches_limit. cbn beta.
  destruct (Z.eqb_spec max_s 0) as [E|E]; cbn [negb andb].
  - split; [discriminate|]. intros [H _]. contradiction.
  - destruct (Z.geb_spec (Z.quot (overuse p) 100) max_s) as [Hge|Hlt].
    + split; [intros _; split; [exact E|lia]|reflexivity].
    + split; [discriminate|intros [_ H]; lia].
Qed.

Lemma head_in_queued winner qs p :
  (winner < 3)%nat -> hd_error (queue_of winner qs) = Some p ->
  In p (all_queued qs).
Proof.
  intros Hw Hhd. apply in_all_queued. exists winner. split; [exact Hw|].
  destruct (queue_of winner qs); [discriminate|].
  injection Hhd as ->. left. reflexivity.
Qed.

Lemma queued_pop_or_head winner qs p x :
  hd_error (queue_of winner qs) = Some p ->
  In x (all_queued qs) -> x = p \/ In x (all_queued (pop winner qs)).
Proof.
  intros Hhd. unfold all_queued.
  destruct qs as [q0 q1 q2]. destruct winner as [|[|c]];
    cbn [queue_of pop w16_q w256_q wother_q] in *;
    [destruct q0|destruct q1|destruct q2]; try discriminate;
    injection Hhd as ->; cbn [tl]; rewrite !in_app_iff; cbn [In];
    intuition auto.
Qed.

Lemma all_queued_pop_perm winner qs p :
  hd_error (queue_of winner qs) = Some p ->
  Permutation (p :: all_queued (pop winner qs)) (all_queued qs).
Proof.
  intros Hhd. unfold all_queued.
  destruct qs as [q0 q1 q2]. destruct winner as [|[|c]];
    cbn [queue_of pop w16_q w256_q wother_q] in *;
    [destruct q0|destruct q1|destruct q2]; try discriminate;
    injection Hhd as ->; cbn [tl].
  - reflexivity.
  - rewrite Permutation_middle. reflexivity.
  - rewrite app_assoc. rewrite Permutation_middle. rewrite <- app_assoc.
    reflexivity.
Qed.

(** The loop ends with the lists empty or with the easiest class cut
    off. *)
Lemma select_loop_ends n : forall st,
  (remaining (sel_queues st) <= n)%nat ->
  some_left (sel_queues (loop n st)) = false \/
  nth 0 (cutoff (loop n st)) false = true.
Proof.
  induction n as [|n IH]; intros st Hn.
  - left. cbn [select_loop]. unfold remaining, some_left in *.
    destruct (w16_q (sel_queues st)), (w256_q (sel_queues st)),
      (wother_q (sel_queues st)); cbn in Hn; try lia; reflexivity.
  - cbn [select_loop]. destruct (some_left (sel_queues st)) eqn:Hleft;
      [|left; exact Hleft].
    destruct (next_best_some _ Hleft) as (winner & p & Hbest). rewrite Hbest.
    destruct (next_best_head _ _ _ Hbest) as (_ & Hhd & _ & _).
    pose proof (remaining_pop _ _ _ Hhd) as Hrem.
    destruct (select_step_full winner p st) as (Hq & Hcases).
    destruct (step winner p st) as [st' go_on]. cbn [fst snd] in *.
    assert (Hn' : (remaining (sel_queues st') <= n)%nat)
      by (rewrite Hq; lia).
    destruct Hcases as [(_ & _ & _ & _ & ->)|[(_ & _ & _ & _ & _ & ->)
                       |(_ & _ & _ & _ & _ & ->)]];
      try (apply IH; exact Hn').
    destruct (nth 0 (cutoff st') false) eqn:Hc0; cbn [negb];
      [right; exact Hc0|apply IH; exact Hn'].
Qed.

Lemma from_queues_step qs0 st winner p :
  from_queues qs0 st -> some_left (sel_queues st) = true ->
  next_best (sel_queues st) = (winner, Some p) ->
  from_queues qs0 (fst (step winner p st)).
Proof.
  intros (dropped & Hperm) _ Hbest.
  apply next_best_head in Hbest. destruct Hbest as (_ & Hhd & _ & _).
  pose proof (all_queued_pop_perm _ _ _ Hhd) as Hpop.
  destruct (select_step_cases compute_sigs_at_sec_level test_sec_level max_s
              winner p st) as (Hq & [(Hp & _)|(Hp & _)]);
    unfold from_queues; rewrite Hq, Hp.
  - exists (p :: dropped). rewrite <- Hperm, <- Hpop.
    apply Permutation_app_head. cbn [app]. apply Permutation_middle.
  - exists dropped. rewrite <- Hperm, <- Hpop, <- app_assoc.
    apply Permutation_app_head. cbn [app]. apply Permutation_middle.
Qed.

Lemma all_queued_sort_perm qs :
  Permutation (all_queued (sort_queues qs)) (all_queued qs).
Proof.
  unfold all_queued, sort_queues. cbn [w16_q w256_q wother_q].
  repeat apply Permutation_app; symmetry; apply my_sort_perm.
Qed.

Lemma select_from_queues qs :
  exists rest,
    Permutation
      (select compute_sigs_at_sec_level test_sec_level max_s (sort_queues qs)
         ++ rest)
      (all_queued qs).
Proof.
  assert (Hinv : from_queues (sort_queues qs)
            (loop (remaining (sort_queues qs))
               (mk_selection (sort_queues qs) [0; 0; 0]
                  [false; false; false] []))).
  { apply (select_loop_invariant _ _ _ _ (from_queues_step (sort_queues qs))).
    exists []. reflexivity. }
  destruct Hinv as (dropped & Hperm). unfold select.
  eexists. rewrite <- all_queued_sort_perm. exact Hperm.
Qed.

Lemma cutoff_invariant_step st winner p :
  cutoff_invariant overuse max_s st -> some_left (sel_queues st) = true ->
  next_best (sel_queues st) = (winner, Some p) ->
  cutoff_invariant overuse max_s (fst (step winner p st)).
Proof.
  intros (Hlen & Hw & Hcut & Hpairs) _ Hbest.
  apply next_best_head in Hbest. destruct Hbest as (Hc & Hhd & _ & _).
  pose proof (well_classed_head _ _ _ Hw Hc Hhd) as Hclass.
  destruct (select_step_full winner p st)
    as (Hq & [(_ & Hp & _ & Hk & _)|[(_ & _ & Hp & _ & Hk & _)
             |(Hfree & _ & Hp & _ & Hk & _)]]);
    unfold cutoff_invariant; rewrite Hq, Hp, Hk.
  - split; [exact Hlen|]. split; [apply well_classed_pop; exact Hw|].
    split; assumption.
  - split; [exact Hlen|]. split; [apply well_classed_pop; exact Hw|].
    split; assumption.
  - split; [rewrite update_from_length; exact Hlen|].
    split; [apply well_classed_pop; exact Hw|]. split.
    + intros e j He Hr Hej Hj. rewrite update_from_nth by lia.
      apply in_app_iff in He. destruct He as [He|[<-|[]]].
      * rewrite (Hcut e j He Hr Hej Hj).
        destruct (winner <=? j)%nat; reflexivity.
      * rewrite Hclass in Hej.
        destruct (Nat.leb_spec winner j); [|lia].
        apply do_cutoff_reaches in Hr. rewrite Hr. apply orb_true_r.
    + apply forall_ord_pairs_snoc; [exact Hpairs|].
      apply Forall_forall. intros e He Hle Hr. rewrite Hclass in Hle.
      specialize (Hcut e winner He Hr Hle Hc). congruence.
Qed.

Lemma select_stops_at_limit (qs : queues) :
  well_classed qs ->
  ForallOrdPairs
    (fun e1 e2 => (class_of_w (w e1) <= class_of_w (w e2))%nat ->
                  ~ reaches_limit overuse max_s e1)
    (select compute_sigs_at_sec_level test_sec_level max_s (sort_queues qs)).
Proof.
  intros Hw.
  assert (Hinv : cutoff_invariant overuse max_s
            (loop (remaining (sort_queues qs))
               (mk_selection (sort_queues qs) [0; 0; 0]
                  [false; false; false] []))).
  { apply (select_loop_invariant _ _ _ _ cutoff_invariant_step).
    unfold cutoff_invariant. cbn.
    split; [reflexivity|]. split; [apply well_classed_sort; exact Hw|].
    split; [intros e j []|constructor]. }
  destruct Hinv as (_ & _ & _ & Hpairs). exact Hpairs.
Qed.

Lemma accounts_for_more frontier p x :
  accounts_for overuse max_s frontier x ->
  accounts_for overuse max_s (frontier ++ [p]) x.
Proof.
  intros [H|(e & He & H)]; [left; exact H|right].
  exists e. split; [apply in_app_iff; left; exact He|exact H].
Qed.

Lemma account_invariant_step qs0 st winner p :
  account_invariant overuse max_s qs0 st ->
  some_left (sel_queues st) = true ->
  next_best (sel_queues st) = (winner, Some p) ->
  account_invariant overuse max_s qs0 (fst (step winner p st)).
Proof.
  intros (Hsize & Hlm & Hlc & Hw & Hmsl & Hcut & Hall) Hleft Hbest.
  pose proof (size_invariant_step compute_sigs_at_sec_level test_sec_level
                max_s st winner p Hsize Hleft Hbest) as Hsize'.
  destruct (next_best_head _ _ _ Hbest) as (Hc & Hhd & _ & _).
  pose proof (well_classed_head _ _ _ Hw Hc Hhd) as Hclass.
  pose proof (head_in_queued _ _ _ Hc Hhd) as Hpq.
  destruct Hsize as (_ & _ & Hle).
  assert (Hsmall : forall e, In e (print_list st) -> sig_size e <= sig_size p).
  { intros e He. rewrite Forall_forall in Hle. specialize (Hle e He).
    rewrite Forall_forall in Hle. apply Hle. exact Hpq. }
  destruct (select_step_full winner p st)
    as (Hq & [(Hcw & Hp & Hm & Hk & _)|[(_ & Hdrop & Hp & Hm & Hk & _)
             |(Hfree & Hgt & Hp & Hm & Hk & _)]]);
    unfold account_invariant; (split; [exact Hsize'|]);
    rewrite Hq, Hp, Hm, Hk.
  - split; [exact Hlm|]. split; [exact Hlc|].
    split; [apply well_classed_pop; exact Hw|].
    split; [exact Hmsl|]. split; [exact Hcut|].
    intros x Hx. destruct (Hall x Hx) as [Hqd|Hrest]; [|auto].
    destruct (queued_pop_or_head _ _ _ _ Hhd Hqd) as [->|Hstill]; [|auto].
    right. right. right.
    destruct (Hcut winner Hc Hcw) as (e & He & Hce & Hr).
    exists e. split; [exact He|]. split; [lia|].
    split; [apply Hsmall; exact He|]. right. exact Hr.
  - split; [exact Hlm|]. split; [exact Hlc|].
    split; [apply well_classed_pop; exact Hw|].
    split; [exact Hmsl|]. split; [exact Hcut|].
    intros x Hx. destruct (Hall x Hx) as [Hqd|Hrest]; [|auto].
    destruct (queued_pop_or_head _ _ _ _ Hhd Hqd) as [->|Hstill]; [|auto].
    right. right.
    destruct (Hmsl winner Hc) as [Hzero|(e & He & Hce & Hov)].
    + left. lia.
    + right. exists e. split; [exact He|]. split; [lia|].
      split; [apply Hsmall; exact He|]. left. lia.
  - split; [rewrite update_from_length; exact Hlm|].
    split; [rewrite update_from_length; exact Hlc|].
    split; [apply well_classed_pop; exact Hw|]. split.
    { intros j Hj. rewrite update_from_nth by lia.
      destruct (Nat.leb_spec winner j) as [Hwj|Hwj].
      - destruct (Z.gtb_spec (overuse p) (nth j (min_sec_level st) 0)).
        + right. exists p. split; [apply in_app_iff; right; left; reflexivity|].
          split; [lia|lia].
        + destruct (Hmsl j Hj) as [Hzero|(e & He & Hce & Hov)]; [left; lia|].
          right. exists e. split; [apply in_app_iff; left; exact He|].
          split; assumption.
      - destruct (Hmsl j Hj) as [Hzero|(e & He & Hce & Hov)]; [left; lia|].
        right. exists e. split; [apply in_app_iff; left; exact He|].
        split; assumption. }
    split.
    { intros j Hj. rewrite update_from_nth by lia. intros Hcj.
      assert (Hold : nth j (cutoff st) false = true ->
                exists e, In e (print_list st ++ [p]) /\
                  (class_of_w (w e) <= j)%nat /\
                  reaches_limit overuse max_s e).
      { intros Ht. destruct (Hcut j Hj Ht) as (e & He & Hce & Hr).
        exists e. split; [apply in_app_iff; left; exact He|].
        split; assumption. }
      destruct (Nat.leb_spec winner j) as [Hwj|Hwj]; [|apply Hold; exact Hcj].
      apply orb_prop in Hcj. destruct Hcj as [Ht|Hdo]; [apply Hold; exact Ht|].
      exists p. split; [apply in_app_iff; right; left; reflexivity|].
      split; [lia|]. apply do_cutoff_reaches. exact Hdo. }
    intros x Hx. destruct (Hall x Hx) as [Hqd|[Hpr|Hacc]].
    + destruct (queued_pop_or_head _ _ _ _ Hhd Hqd) as [->|Hstill]; [|auto].
      right. left. apply in_app_iff. right. left. reflexivity.
    + right. left. apply in_app_iff. left. exact Hpr.
    + right. right. apply accounts_for_more. exact Hacc.
Qed.

Lemma select_accounts (qs : queues) (x : parameter_set) :
  well_classed qs -> In x (all_queued qs) ->
  let frontier :=
    select compute_sigs_at_sec_level test_sec_level max_s (sort_queues qs) in
  In x frontier \/ accounts_for overuse max_s frontier x.
Proof.
  intros Hw Hx frontier.
  set (st0 := mk_selection (sort_queues qs) [0; 0; 0]
                [false; false; false] []).
  assert (Hinv : account_invariant overuse max_s (sort_queues qs)
                   (loop (remaining (sort_queues qs)) st0)).
  { apply (select_loop_invariant _ _ _ _
             (account_invariant_step (sort_queues qs))).
    unfold account_invariant, st0. cbn [sel_queues min_sec_level cutoff
                                        print_list].
    split.
    { unfold size_invariant. cbn [sel_queues print_list].
      split; [apply sort_queues_sorted|]. split; constructor. }
    split; [reflexivity|]. split; [reflexivity|].
    split; [apply well_classed_sort; exact Hw|].
    split; [intros j Hj; left; destruct j as [|[|[|j]]]; try reflexivity; lia|].
    split; [intros j Hj Hc; destruct j as [|[|[|j]]]; try discriminate; lia|].
    intros y Hy. left. exact Hy. }
  destruct Hinv as (Hsize & _ & _ & _ & _ & Hcut & Hall).
  assert (Hx' : In x (all_queued (sort_queues qs))).
  { eapply Permutation_in; [symmetry; apply all_queued_sort_perm|exact Hx]. }
  fold frontier in Hall. unfold select in frontier.
  destruct (Hall x Hx') as [Hqd|[Hpr|Hacc]]; [|left; exact Hpr|right; exact Hacc].
  destruct (select_loop_ends (remaining (sort_queues qs)) st0 (Nat.le_refl _))
    as [Hempty|Hc0].
  - exfalso. revert Hempty Hqd.
    generalize (sel_queues (loop (remaining (sort_queues qs)) st0)).
    intros [q0 q1 q2]. unfold some_left, all_queued.
    cbn [w16_q w256_q wother_q].
    destruct q0, q1, q2; try discriminate. intros _ [].
  - right. right.
    destruct (Hcut 0%nat ltac:(lia) Hc0) as (e & He & Hce & Hr).
    exists e. split; [exact He|]. split; [lia|]. split; [|right; exact Hr].
    destruct Hsize as (_ & _ & Hle). rewrite Forall_forall in Hle.
    specialize (Hle e He). rewrite Forall_forall in Hle. apply Hle. exact Hqd.
Qed.

End FrontierFacts.

Lemma forall_ord_pairs_after {A : Type} (R : A -> A -> Prop) l1 e l2 :
  ForallOrdPairs R (l1 ++ e :: l2) -> Forall (R e) l2.
Proof.
  induction l1 as [|x l1 IH]; cbn [app]; intros H; inversion H; subst; auto.
Qed.

(** X12: every parameter set that [do_search] lists is one the
    enumeration recorded, so it has passed the loop conditions, the two
    budget tests and [check_sec_level]; and the list holds a set at most
    as often as the enumeration recorded it. *)
Theorem frontier_from_candidates
    (chk : Z -> Z -> Z -> Z -> Z -> bool) (ov : Z -> Z -> Z -> Z -> Z)
    (fuel : nat) (sec_level num_sig test_sec_level sign_op max_s dr hr ar : Z)
    (frontier : queue) :
  do_search chk ov fuel sec_level num_sig test_sec_level sign_op max_s
    dr hr ar = Some frontier ->
  exists qs rest,
    enumerate chk sec_level num_sig sign_op dr hr ar fuel = Some qs /\
    Permutation (frontier ++ rest) (all_queued qs) /\
    forall p, In p frontier ->
      exists log_w wd h_merkle d a k,
        enumerated chk sec_level num_sig sign_op dr hr ar fuel
          log_w wd h_merkle d a k /\
        p = recorded sec_level log_w wd h_merkle d a k.
Proof.
  unfold do_search. intros Hrun.
  destruct (enumerate chk sec_level num_sig sign_op dr hr ar fuel)
    as [qs|] eqn:Henum; [|discriminate].
  apply some_eq in Hrun. subst frontier.
  destruct (select_from_queues ov test_sec_level max_s qs) as (rest & Hperm).
  exists qs, rest. split; [reflexivity|]. split; [exact Hperm|].
  intros p Hp.
  assert (Hin : In p (all_queued qs)).
  { eapply Permutation_in; [exact Hperm|]. apply in_app_iff. left. exact Hp. }
  apply in_all_queued in Hin. destruct Hin as (c & Hc & Hin).
  destruct (enumerate_origin _ _ _ _ _ _ _ _ _ Henum c p Hc Hin)
    as (log_w & wd & h_merkle & d0 & a0 & k0 & Hen & _ & E).
  exists log_w, wd, h_merkle, d0, a0, k0. split; assumption.
Qed.

Lemma frontier_from_candidates_witness :
  let chk := fun _ _ _ _ _ : Z => true in
  let ov := fun _ _ _ _ : Z => 100 in
  let p := recorded 128 2 68 9 7 12 1 in
  do_search chk ov 32 128 20 112 1000000 0 7 9 12 = Some [p] /\
  exists qs rest,
    enumerate chk 128 20 1000000 7 9 12 32 = Some qs /\
    Permutation ([p] ++ rest) (all_queued qs).
Proof.
  intros chk ov p.
  assert (E : do_search chk ov 32 128 20 112 1000000 0 7 9 12 = Some [p])
    by (vm_compute; reflexivity).
  split; [exact E|].
  destruct (frontier_from_candidates _ _ _ _ _ _ _ _ _ _ _ _ E)
    as (qs & rest & Hq & Hperm & _).
  exists qs, rest. split; assumption.
Defined.

(** X13: once a listed set has reached the limit [max_s] (its overuse
    value divided by 100 is at least [max_s], and [max_s] is not 0), no
    set of its class or of a harder class is listed after it.  A set of
    the easiest class ([w = 16]) that has reached the limit is the last
    of the list. *)
Theorem frontier_stops_at_limit
    (chk : Z -> Z -> Z -> Z -> Z -> bool) (ov : Z -> Z -> Z -> Z -> Z)
    (fuel : nat) (sec_level num_sig test_sec_level sign_op max_s dr hr ar : Z)
    (frontier : queue) :
  do_search chk ov fuel sec_level num_sig test_sec_level sign_op max_s
    dr hr ar = Some frontier ->
  ForallOrdPairs
    (fun e1 e2 =>
       (class_of_w (w e1) <= class_of_w (w e2))%nat ->
       ~ reaches_limit (overuse_of ov test_sec_level) max_s e1)
    frontier /\
  (forall l1 e l2,
     frontier = l1 ++ e :: l2 -> w e = 16 ->
     reaches_limit (overuse_of ov test_sec_level) max_s e -> l2 = []).
Proof.
  unfold do_search. intros Hrun.
  destruct (enumerate chk sec_level num_sig sign_op dr hr ar fuel)
    as [qs|] eqn:Henum; [|discriminate].
  apply some_eq in Hrun. subst frontier.
  pose proof (select_stops_at_limit ov test_sec_level max_s qs
                (enumerate_well_classed _ _ _ _ _ _ _ _ _ Henum)) as Hpairs.
  split; [exact Hpairs|].
  intros l1 e l2 Hsplit Hw Hr. rewrite Hsplit in Hpairs.
  apply forall_ord_pairs_after in Hpairs.
  destruct l2 as [|e2 l2]; [reflexivity|].
  apply Forall_cons_iff in Hpairs. destruct Hpairs as [Hno _].
  exfalso. apply Hno; [|exact Hr].
  unfold class_of_w at 1. rewrite Hw. cbn. lia.
Qed.

Lemma frontier_stops_at_limit_witness :
  let chk := fun _ _ _ _ _ : Z => true in
  let ov := fun _ _ _ k : Z => 100 * k in
  exists frontier unlimited,
    do_search chk ov 32 128 20 112 40000000 3 7 9 12 = Some frontier /\
    do_search chk ov 32 128 20 112 40000000 0 7 9 12 = Some unlimited /\
    (length frontier < length unlimited)%nat /\
    map (fun p => (w p, k p)) frontier
    = [(256, 1); (256, 2); (256, 3); (16, 1); (16, 2); (16, 3)] /\
    Forall (fun p => k p = 3 -> reaches_limit (overuse_of ov 112) 3 p)
      frontier /\
    ForallOrdPairs
      (fun e1 e2 =>
         (class_of_w (w e1) <= class_of_w (w e2))%nat ->
         ~ reaches_limit (overuse_of ov 112) 3 e1)
      frontier /\
    (forall l1 e l2,
       frontier = l1 ++ e :: l2 -> w e = 16 ->
       reaches_limit (overuse_of ov 112) 3 e -> l2 = []).
Proof.
  intros chk ov.
  destruct (do_search chk ov 32 128 20 112 40000000 3 7 9 12) as [frontier|]
    eqn:E; [|vm_compute in E; discriminate].
  destruct (do_search chk ov 32 128 20 112 40000000 0 7 9 12) as [unlimited|]
    eqn:E0; [|vm_compute in E0; discriminate].
  destruct (frontier_stops_at_limit _ _ _ _ _ _ _ _ _ _ _ _ E)
    as (Hpairs & Hlast).
  exists frontier, unlimited. split; [reflexivity|]. split; [reflexivity|].
  split; [|split; [|split; [|split; [exact Hpairs|exact Hlast]]]].
  - vm_compute in E. apply some_eq in E. subst frontier.
    vm_compute in E0. apply some_eq in E0. subst unlimited.
    vm_compute. lia.
  - vm_compute in E. apply some_eq in E. subst frontier. reflexivity.
  - vm_compute in E. apply some_eq in E. subst frontier.
    repeat constructor; intros Hk; try (vm_compute in Hk; discriminate);
      unfold reaches_limit, overuse_of, ov; cbn; split; lia.
Defined.

(** X14: the selection loses nothing worth listing.  A parameter set
    that the enumeration has recorded and that is not listed has no
    positive overuse value, or some listed set is of an equal or easier
    class, has a signature at most as large and either an overuse value
    at least as large or one that has reached the limit [max_s]. *)
Theorem omitted_candidates_accounted_for
    (chk : Z -> Z -> Z -> Z -> Z -> bool) (ov : Z -> Z -> Z -> Z -> Z)
    (fuel : nat) (sec_level num_sig test_sec_level sign_op max_s dr hr ar : Z)
    (frontier : queue) :
  do_search chk ov fuel sec_level num_sig test_sec_level sign_op max_s
    dr hr ar = Some frontier ->
  exists qs,
    enumerate chk sec_level num_sig sign_op dr hr ar fuel = Some qs /\
    forall x, In x (all_queued qs) ->
      In x frontier \/
      accounts_for (overuse_of ov test_sec_level) max_s frontier x.
Proof.
  unfold do_search. intros Hrun.
  destruct (enumerate chk sec_level num_sig sign_op dr hr ar fuel)
    as [qs|] eqn:Henum; [|discriminate].
  apply some_eq in Hrun. subst frontier.
  exists qs. split; [reflexivity|]. intros x Hx.
  apply (select_accounts ov test_sec_level max_s qs x); [|exact Hx].
  exact (enumerate_well_classed _ _ _ _ _ _ _ _ _ Henum).
Qed.

Lemma omitted_candidates_accounted_for_witness :
  let chk := fun _ _ _ _ _ : Z => true in
  let ov := fun _ _ _ k : Z => 100 * (10 - k) in
  exists frontier qs,
    do_search chk ov 32 128 20 112 1310000 0 7 9 12 = Some frontier /\
    enumerate chk 128 20 1310000 7 9 12 32 = Some qs /\
    (length frontier < length (all_queued qs))%nat /\
    forall x, In x (all_queued qs) ->
      In x frontier \/ accounts_for (overuse_of ov 112) 0 frontier x.
Proof.
  intros chk ov.
  destruct (do_search chk ov 32 128 20 112 1310000 0 7 9 12) as [frontier|]
    eqn:E; [|vm_compute in E; discriminate].
  destruct (omitted_candidates_accounted_for _ _ _ _ _ _ _ _ _ _ _ _ E)
    as (qs & Hq & Hall).
  exists frontier, qs. split; [reflexivity|]. split; [exact Hq|].
  split; [|exact Hall].
  assert (Hq' := Hq). vm_compute in Hq'. apply some_eq in Hq'. subst qs.
  vm_compute in E. apply some_eq in E. subst frontier. vm_compute. lia.
Defined.

(** ** search.c: [my_compare], and the order [my_merge] and [my_sort]
    leave ties in *)

Section StableFacts.

Lemma tied_fields x y :
  tied x y = true <->
  sig_size x = sig_size y /\ sig_time x = sig_time y /\
  ver_time x = ver_time y.
Proof.
  unfold tied, my_compare.
  repeat match goal with
         | |- context [?u <? ?v] => destruct (Z.ltb_spec u v)
         | |- context [?u >? ?v] => destruct (Z.gtb_spec u v)
         end; cbn; split; intros Ht; try discriminate; try lia;
    try reflexivity.
Qed.

Lemma my_compare_strict x y :
  (my_compare x y >=? 0) = false ->
  sig_size y < sig_size x \/
  (sig_size y = sig_size x /\
   (sig_time y < sig_time x \/
    (sig_time y = sig_time x /\ ver_time y < ver_time x))).
Proof.
  unfold my_compare.
  repeat match goal with
         | |- context [?u <? ?v] => destruct (Z.ltb_spec u v)
         | |- context [?u >? ?v] => destruct (Z.gtb_spec u v)
         end; cbn; intros Ht; try discriminate; lia.
Qed.

Lemma my_compare_cases x y :
  (my_compare x y = 1 /\
   (sig_size x < sig_size y \/
    (sig_size x = sig_size y /\
     (sig_time x < sig_time y \/
      (sig_time x = sig_time y /\ ver_time x < ver_time y))))) \/
  (my_compare x y = 0 /\
   sig_size x = sig_size y /\ sig_time x = sig_time y /\
   ver_time x = ver_time y) \/
  (my_compare x y = -1 /\
   (sig_size y < sig_size x \/
    (sig_size y = sig_size x /\
     (sig_time y < sig_time x \/
      (sig_time y = sig_time x /\ ver_time y < ver_time x))))).
Proof.
  unfold my_compare.
  repeat match goal with
         | |- context [?u <? ?v] => destruct (Z.ltb_spec u v)
         | |- context [?u >? ?v] => destruct (Z.gtb_spec u v)
         end; first [left; split; [reflexivity|lia]
                    |right; left; split; [reflexivity|lia]
                    |right; right; split; [reflexivity|lia]].
Qed.

(** X15: [my_compare] is a consistent three-way comparison.  Its value is
    -1, 0 or 1; swapping the arguments changes the sign; it is 0 exactly
    when the two sets agree in signature size, signing cost and
    verification cost; and "at least as good" ([my_compare >= 0]) is
    transitive. *)
Theorem my_compare_consistent (x y z : parameter_set) :
  (my_compare x y = -1 \/ my_compare x y = 0 \/ my_compare x y = 1) /\
  my_compare y x = - my_compare x y /\
  (my_compare x y = 0 <->
   sig_size x = sig_size y /\ sig_time x = sig_time y /\
   ver_time x = ver_time y) /\
  (0 <= my_compare x y -> 0 <= my_compare y z -> 0 <= my_compare x z).
Proof.
  destruct (my_compare_cases x y) as [(E1 & H1)|[(E1 & H1)|(E1 & H1)]],
    (my_compare_cases y x) as [(E2 & H2)|[(E2 & H2)|(E2 & H2)]],
    (my_compare_cases x z) as [(E3 & H3)|[(E3 & H3)|(E3 & H3)]],
    (my_compare_cases y z) as [(E4 & H4)|[(E4 & H4)|(E4 & H4)]];
    rewrite ?E1, ?E2, ?E3, ?E4; repeat split; intros; try lia; auto.
Qed.

Lemma my_compare_consistent_witness :
  let x := mk_parameter_set 5 1 1 1 16 100 10 10 in
  let y := mk_parameter_set 4 1 1 1 16 150 10 10 in
  let z := mk_parameter_set 6 1 1 1 8 150 20 10 in
  0 <= my_compare x z /\ my_compare y x = - my_compare x y.
Proof.
  intros x y z.
  destruct (my_compare_consistent x y z) as (_ & Hswap & _ & Htrans).
  split; [apply Htrans; vm_compute; discriminate|exact Hswap].
Defined.

Lemma filter_tied_none k y x (p : queue) :
  (my_compare x y >=? 0) = false -> tied k y = true ->
  Forall (best_first x) p -> filter (tied k) (x :: p) = [].
Proof.
  intros Hxy Hky Hp. apply my_compare_strict in Hxy.
  apply tied_fields in Hky.
  assert (Hno : forall z, best_first x z \/ z = x -> tied k z = false).
  { intros z Hz. destruct (tied k z) eqn:E; [|reflexivity].
    apply tied_fields in E. unfold best_first in Hz.
    destruct Hz as [Hz| ->]; lia. }
  cbn [filter]. rewrite (Hno x (or_intror eq_refl)).
  induction Hp as [|z p Hz Hp IH]; [reflexivity|].
  cbn [filter]. rewrite (Hno z (or_introl Hz)). exact IH.
Qed.

(** On a tie [my_merge] takes from its first list. *)
Lemma my_merge_filter k (p : queue) : forall q : queue,
  StronglySorted best_first p ->
  filter (tied k) (my_merge p q) = filter (tied k) p ++ filter (tied k) q.
Proof.
  induction p as [|x p IHp]; intros q Hp.
  - destruct q; reflexivity.
  - apply StronglySorted_inv in Hp. destruct Hp as [Hp Hx].
    induction q as [|y q IHq].
    + cbn [my_merge filter]. rewrite app_nil_r. reflexivity.
    + rewrite my_merge_cons.
      destruct (my_compare x y >=? 0) eqn:Hxy.
      * cbn [filter]. rewrite (IHp (y :: q) Hp).
        destruct (tied k x); reflexivity.
      * cbn [filter] in *. rewrite IHq.
        destruct (tied k y) eqn:Hky; [|reflexivity].
        pose proof (filter_tied_none k y x p Hxy Hky Hx) as Hnone.
        cbn [filter] in Hnone. rewrite Hnone. reflexivity.
Qed.

Lemma flat_empty_bins i (rest : list queue) :
  flat (repeat [] i ++ rest) = flat rest.
Proof.
  induction i as [|i IH]; [reflexivity|].
  cbn [repeat app flat]. rewrite IH. apply app_nil_r.
Qed.

Lemma nth_empty_bins i (b : queue) (rest : list queue) :
  nth i (repeat [] i ++ b :: rest) [] = b.
Proof. induction i as [|i IH]; [reflexivity|exact IH]. Qed.

Lemma set_bin_empty_bins i (q b : queue) (rest : list queue) :
  set_bin i q (repeat [] i ++ b :: rest) = repeat [] i ++ q :: rest.
Proof.
  induction i as [|i IH]; [reflexivity|].
  cbn [repeat app set_bin]. rewrite IH. reflexivity.
Qed.

Lemma empty_bins_snoc i (rest : list queue) :
  repeat (@nil parameter_set) i ++ [] :: rest = repeat [] (S i) ++ rest.
Proof.
  induction i as [|i IH]; [reflexivity|].
  cbn [repeat app] in *. rewrite IH. reflexivity.
Qed.

Lemma ripple_filter k n : forall i (p : queue) (rest : list queue),
  length rest = n -> (i + n = NUM_BIN)%nat ->
  StronglySorted best_first p ->
  Forall (StronglySorted best_first) rest ->
  filter (tied k) (flat (ripple n i p (repeat [] i ++ rest)))
  = filter (tied k) (flat rest) ++ filter (tied k) p.
Proof.
  induction n as [|n IH]; intros i p rest Hlen Hin Hp Hrest.
  - destruct rest; [|discriminate]. unfold NUM_BIN in Hin.
    replace i with 20%nat by lia.
    cbn [repeat app ripple NUM_BIN Nat.sub set_bin flat].
    rewrite !app_nil_r. reflexivity.
  - destruct rest as [|b rest]; [discriminate|].
    apply Forall_cons_iff in Hrest. destruct Hrest as [Hb Hrest].
    cbn [ripple]. rewrite nth_empty_bins. destruct b as [|y b].
    + rewrite set_bin_empty_bins, flat_empty_bins. cbn [flat].
      rewrite app_nil_r, filter_app. reflexivity.
    + rewrite set_bin_empty_bins, empty_bins_snoc.
      rewrite IH; [|cbn in Hlen; lia|lia| |exact Hrest].
      * rewrite my_merge_filter by exact Hb. cbn [flat].
        rewrite filter_app, app_assoc. reflexivity.
      * apply my_merge_sorted; assumption.
Qed.

Lemma fill_bins_filter k (lst : queue) : forall bins : list queue,
  length bins = NUM_BIN -> Forall (StronglySorted best_first) bins ->
  filter (tied k) (flat (fill_bins lst bins))
  = filter (tied k) (flat bins) ++ filter (tied k) lst.
Proof.
  induction lst as [|p lst IH]; intros bins Hlen Hs; cbn [fill_bins].
  - rewrite app_nil_r. reflexivity.
  - assert (Hp : StronglySorted best_first [p]) by repeat constructor.
    rewrite IH.
    + pose proof (ripple_filter k NUM_BIN 0 [p] bins Hlen eq_refl Hp Hs)
        as Hr.
      cbn [repeat app] in Hr. rewrite Hr, <- app_assoc. f_equal.
      cbn [filter]. destruct (tied k p); reflexivity.
    + rewrite ripple_length. exact Hlen.
    + apply ripple_sorted; assumption.
Qed.

Lemma combine_bins_filter k (bins : list queue) : forall acc : queue,
  Forall (StronglySorted best_first) bins ->
  filter (tied k) (fold_left (fun p b => my_merge b p) bins acc)
  = filter (tied k) (flat bins) ++ filter (tied k) acc.
Proof.
  induction bins as [|b bins IH]; intros acc Hs; [reflexivity|].
  apply Forall_cons_iff in Hs. destruct Hs as [Hb Hs].
  cbn [fold_left flat]. rewrite IH by exact Hs.
  rewrite my_merge_filter by exact Hb.
  rewrite filter_app, app_assoc. reflexivity.
Qed.

(** X16: [my_merge] of two best-first lists is a best-first list with
    the elements of both, and it is stable: sets that [my_compare] cannot
    tell apart come out in the order they have in the first list,
    followed by those of the second. *)
Theorem my_merge_stable (p q : queue) (k : parameter_set) :
  StronglySorted best_first p -> StronglySorted best_first q ->
  Permutation (my_merge p q) (p ++ q) /\
  StronglySorted best_first (my_merge p q) /\
  filter (tied k) (my_merge p q) = filter (tied k) p ++ filter (tied k) q.
Proof.
  intros Hp Hq. split; [apply my_merge_perm|].
  split; [apply my_merge_sorted; assumption|].
  apply my_merge_filter. exact Hp.
Qed.

Lemma my_merge_stable_witness :
  let x1 := mk_parameter_set 5 1 1 1 16 100 10 10 in
  let x2 := mk_parameter_set 6 1 2 1 16 100 10 10 in
  let y := mk_parameter_set 4 1 1 1 16 150 10 10 in
  my_merge [x1; y] [x2] = [x1; x2; y] /\
  filter (tied x1) (my_merge [x1; y] [x2]) = [x1; x2].
Proof.
  intros x1 x2 y. split; [reflexivity|].
  destruct (my_merge_stable [x1; y] [x2] x1) as (_ & _ & ->);
    [repeat constructor|repeat constructor|reflexivity].
Defined.

(** X17: [my_sort] is a stable sort: parameter sets that [my_compare]
    cannot tell apart keep the order they have in the list given.  This
    holds for every length of the list, the overflow bin included. *)
Theorem my_sort_stable (lst : queue) (k : parameter_set) :
  filter (tied k) (my_sort lst) = filter (tied k) lst.
Proof.
  unfold my_sort, combine_bins.
  destruct (fill_bins_spec lst (repeat [] NUM_BIN)) as (Hlen & Hs & _).
  { apply repeat_length. }
  { apply empty_bins_sorted. }
  rewrite combine_bins_filter by exact Hs.
  rewrite fill_bins_filter.
  - cbn. rewrite app_nil_r. reflexivity.
  - apply repeat_length.
  - apply empty_bins_sorted.
Qed.

End StableFacts.

(** ** gamma.c: [do_add] and the rejection of [check_sec_level] *)

Section GammaMoreFacts.

Import Gamma.
Local Open Scope R_scope.

Lemma log2_pow2_64 : log2 (2 ^ 64) = 64.
Proof.
  unfold log2. rewrite ln_pow by lra. pose proof ln2_pos.
  rewrite INR_IZR_INZ. cbn [Z.of_nat Pos.of_succ_nat Pos.succ]. field. lra.
Qed.

Lemma log2_times_2_64 x : 0 < x -> log2 (2 ^ 64 * x) = 64 + log2 x.
Proof.
  intros Hx. assert (0 < 2 ^ 64) by (apply pow_lt; lra).
  rewrite <- log2_mult, log2_pow2_64 by assumption. reflexivity.
Qed.

Lemma do_add_comm x y : do_add x y = do_add y x.
Proof.
  unfold do_add.
  destruct (Rgt_dec x y) as [Hxy|Hxy], (Rgt_dec y x) as [Hyx|Hyx];
    try lra; try reflexivity.
  assert (x = y) by lra. subst y. reflexivity.
Qed.

(** [do_add] on the logarithms of [a] and [b], [a] the larger one. *)
Lemma do_add_ordered a b :
  0 < b -> b <= a ->
  do_add (log2 a) (log2 b)
  = if Rgt_dec a (2 ^ 64 * b) then log2 a else log2 (a + b).
Proof.
  intros Hb Hba. assert (Ha : 0 < a) by lra.
  assert (Hle : log2 b <= log2 a) by (apply log2_le_mono; assumption).
  assert (H64 : 0 < 2 ^ 64 * b).
  { apply Rmult_lt_0_compat; [apply pow_lt; lra|assumption]. }
  unfold do_add.
  destruct (Rgt_dec (log2 a) (log2 b)) as [Hgt|Hngt].
  - destruct (Rgt_dec a (2 ^ 64 * b)) as [Hfar|Hnear].
    + pose proof (log2_lt_mono _ _ H64 Hfar) as Hl.
      rewrite log2_times_2_64 in Hl by assumption.
      destruct (Rgt_dec (log2 a) (log2 b + 64)); [reflexivity|lra].
    + assert (Hl : log2 a <= log2 (2 ^ 64 * b))
        by (apply log2_le_mono; lra).
      rewrite log2_times_2_64 in Hl by assumption.
      destruct (Rgt_dec (log2 a) (log2 b + 64)); [lra|].
      apply log2_sum; assumption.
  - assert (Heq : log2 a = log2 b) by lra.
    assert (Hab : a = b).
    { destruct Hba as [Hlt|Heq']; [|congruence].
      pose proof (log2_lt_mono _ _ Hb Hlt). lra. }
    subst b. destruct (Rgt_dec (log2 a) (log2 a + 64)); [lra|].
    destruct (Rgt_dec a (2 ^ 64 * a)) as [Hfar|_].
    + assert (1 <= 2 ^ 64) by (apply pow_R1_Rle; lra). nra.
    + apply log2_sum; assumption.
Qed.

(** From the second iteration on the running sum does not go down. *)
Lemma series_loop_sum_grows log_lambda p1 K fuel : forall g st st',
  (2 <= g < 2 ^ 32)%Z ->
  series_loop fuel log_lambda p1 K g st = Some st' ->
  log_sum st <= log_sum st'.
Proof.
  induction fuel as [|fuel IH]; intros g st st' Hg Hrun;
    cbn [series_loop] in Hrun; [discriminate|].
  assert (Hstep : log_sum st <= log_sum (next_terms log_lambda p1 K g st))
    by (apply do_add_ge_sum; lia).
  destruct (small_enough g (next_terms log_lambda p1 K g st)).
  - injection Hrun as <-. exact Hstep.
  - destruct (Z.eqb_spec (Machine.u32 (g + 1)) 0) as [|Hnz]; [discriminate|].
    assert (Hnext : Machine.u32 (g + 1) = (g + 1)%Z).
    { destruct (Z.eq_dec (g + 1) (2 ^ 32)) as [E|E].
      - rewrite E in Hnz. contradiction.
      - apply Machine_u32_small. lia. }
    rewrite Hnext in Hrun.
    apply Rle_trans with (log_sum (next_terms log_lambda p1 K g st));
      [exact Hstep|].
    apply (IH (g + 1)%Z); [|exact Hrun].
    pose proof (Machine_u32_range (g + 1)). lia.
Qed.

Lemma check_rejects_below lambda log_lambda log_target p1 K fuel1 :
  forall fuel2 g st st',
    (1 <= g < 2 ^ 32)%Z ->
    check_loop fuel1 lambda log_lambda log_target p1 K g st = Some false ->
    series_loop fuel2 log_lambda p1 K g st = Some st' ->
    log_target < log_sum st'.
Proof.
  induction fuel1 as [|fuel1 IH]; intros fuel2 g st st' Hg Hchk Hrun;
    cbn [check_loop] in Hchk; [discriminate|].
  destruct fuel2 as [|fuel2]; cbn [series_loop] in Hrun; [discriminate|].
  set (st1 := next_terms log_lambda p1 K g st) in *.
  assert (Hnext : Machine.u32 (g + 1) <> 0%Z ->
                  Machine.u32 (g + 1) = (g + 1)%Z /\ (g + 1 < 2 ^ 32)%Z).
  { intros Hnz. destruct (Z.eq_dec (g + 1) (2 ^ 32)) as [E|E].
    - rewrite E in Hnz. contradiction.
    - split; [apply Machine_u32_small|]; lia. }
  destruct (Rgt_dec (log_sum st1) log_target) as [Hgt|Hngt].
  - destruct (small_enough g st1).
    + injection Hrun as <-. lra.
    + destruct (Z.eqb_spec (Machine.u32 (g + 1)) 0) as [|Hnz];
        [discriminate|].
      destruct (Hnext Hnz) as [Hu Hlt]. rewrite Hu in Hrun.
      assert (Hg2 : (2 <= g + 1 < 2 ^ 32)%Z) by lia.
      pose proof (series_loop_sum_grows _ _ _ _ _ _ _ Hg2 Hrun).
      lra.
  - destruct (tail_bound_met lambda log_target g st1); [discriminate|].
    destruct (small_enough g st1); [discriminate|].
    destruct (Z.eqb_spec (Machine.u32 (g + 1)) 0) as [|Hnz]; [discriminate|].
    destruct (Hnext Hnz) as [Hu Hlt]. rewrite Hu in Hchk, Hrun.
    apply (IH fuel2 (g + 1)%Z st1 st'); [lia|exact Hchk|exact Hrun].
Qed.

(** X19: a rejection by [check_sec_level] is never wrong by more than
    the rounding.  When it returns 0 for a target, the value that
    [compute_sec_level] returns for the same parameters is not above the
    target by a thousandth of a bit.  (On the reals the value is below the
    target; in [double] the two routines round [log2(exp(lambda))] and
    [lambda * log2(exp(1))] differently, and a target equal to the
    estimate can be rejected.) *)
Theorem check_rejection_sound
    (fuel1 fuel2 : nat) (m : R) (H T K : Z) (sec_level r : R) :
  check_sec_level fuel1 m H T K sec_level = Some false ->
  compute_sec_level fuel2 m H T K = Some r ->
  r < sec_level + 1 / 1000.
Proof.
  unfold check_sec_level, compute_sec_level. intros Hchk Hrun.
  destruct (series_loop fuel2 _ _ K 1 series_start) as [st'|] eqn:Hloop;
    [|discriminate].
  injection Hrun as <-.
  assert (H1 : (1 <= 1 < 2 ^ 32)%Z) by (split; [lia|reflexivity]).
  pose proof (check_rejects_below _ _ _ _ _ _ _ _ _ _ H1 Hchk Hloop)
    as Hsum.
  assert (E : log2 (exp (lambda_of m H)) = lambda_of m H * log2 (exp 1)).
  { unfold log2. rewrite !ln_exp. pose proof ln2_pos. field. lra. }
  rewrite E in Hsum. lra.
Qed.

(** ** gamma.c: powers of 2 *)

Lemma Rpower_2_log2 z : 0 < z -> Rpower 2 (log2 z) = z.
Proof.
  intros Hz. unfold Rpower, log2. pose proof ln2_pos.
  replace (ln z / ln 2 * ln 2) with (ln z) by (field; lra).
  apply exp_ln. exact Hz.
Qed.

Lemma Rpower_2_le x y : x <= y -> Rpower 2 x <= Rpower 2 y.
Proof. intros Hxy. apply Rle_Rpower; lra. Qed.

Lemma do_add_le_pow x y :
  Rpower 2 (do_add x y) <= Rpower 2 x + Rpower 2 y.
Proof.
  pose proof (Rpower_pos 2 x) as Ha. pose proof (Rpower_pos 2 y) as Hb.
  rewrite <- (log2_Rpower_2 x) at 1. rewrite <- (log2_Rpower_2 y) at 1.
  set (a := Rpower 2 x) in *. set (b := Rpower 2 y) in *.
  assert (Hmono : forall u v, 0 < u -> 0 < v -> log2 u <= log2 (u + v)).
  { intros u v Hu Hv. apply log2_le_mono; lra. }
  assert (Hle : do_add (log2 a) (log2 b) <= log2 (a + b)).
  { destruct (Rle_dec b a) as [Hba|Hab].
    - rewrite (do_add_ordered a b Hb Hba).
      destruct (Rgt_dec a (2 ^ 64 * b)); [apply Hmono; assumption|lra].
    - rewrite do_add_comm, (do_add_ordered b a Ha ltac:(lra)).
      rewrite (Rplus_comm a b).
      destruct (Rgt_dec b (2 ^ 64 * a)); [apply Hmono; assumption|lra]. }
  apply Rpower_2_le in Hle. rewrite Rpower_2_log2 in Hle by lra. exact Hle.
Qed.

Lemma log_b_nonpos (K : Z) (q : R) :
  (0 <= K)%Z -> 0 <= q ->
  (if Rlt_dec q (1 / 100000)
   then - IZR K * (q / ln 2 + q * q / (2 * ln 2))
   else IZR K * log2 (1 - q)) <= 0.
Proof.
  intros HK Hq. pose proof ln2_pos as Hln.
  assert (0 <= IZR K) by (apply IZR_le; exact HK).
  destruct (Rlt_dec q (1 / 100000)).
  - assert (0 <= q / ln 2 + q * q / (2 * ln 2)).
    { apply Rplus_le_le_0_compat.
      - apply Rmult_le_pos; [lra|]. left. apply Rinv_0_lt_compat. lra.
      - apply Rmult_le_pos; [nra|]. left. apply Rinv_0_lt_compat. lra. }
    nra.
  - pose proof (log2_nonpos (1 - q) ltac:(lra)). nra.
Qed.

End GammaMoreFacts.

(** ** search.c: the columns of the table and the overuse curve *)

Section TableFacts.

Lemma smallest_sig_sorted (first : parameter_set) (rest : queue) :
  StronglySorted le_size (first :: rest) -> sig_size first < UINT_MAX ->
  smallest_sig_of (first :: rest) = sig_size first.
Proof.
  intros Hs Hlt. unfold smallest_sig_of. cbn [fold_left].
  destruct (Z.ltb_spec (sig_size first) UINT_MAX); [|lia].
  apply StronglySorted_inv in Hs. destruct Hs as [_ Hall].
  induction rest as [|p rest IH]; [reflexivity|].
  apply Forall_cons_iff in Hall. destruct Hall as [Hp Hall].
  cbn [fold_left]. unfold le_size in Hp.
  destruct (Z.ltb_spec (sig_size p) (sig_size first)); [lia|].
  apply IH. exact Hall.
Qed.

Lemma recorded_sig_size_range sec_level fuel log_w wd h_merkle d0 a0 k0 :
  0 < sec_level <= 256 -> 2 <= log_w <= 8 ->
  winternitz_digits fuel sec_level (Z.shiftl 1 log_w) log_w = Some wd ->
  2 <= h_merkle <= 31 -> 1 <= d0 <= 29 -> 1 <= a0 <= 29 -> 1 <= k0 <= 99 ->
  0 < sig_size (recorded sec_level log_w wd h_merkle d0 a0 k0) < 20000000.
Proof.
  intros Hs Hlw Hwd Hhm Hd Ha Hk.
  pose proof (winternitz_digits_bound fuel sec_level log_w wd
                ltac:(lia) Hlw Hwd) as Hwdb.
  unfold recorded, new_parameter_set. cbn [sig_size].
  assert (Hhash : 1 <= hash_size_of sec_level <= 32).
  { unfold hash_size_of. rewrite Z.quot_div_nonneg by lia.
    assert (1 <= (sec_level + 7) / 8 <= 32).
    { split; [apply Z.div_le_lower_bound; lia|].
      assert ((sec_level + 7) / 8 < 33)
        by (apply Z.div_lt_upper_bound; lia).
      lia. }
    rewrite Machine_u32_small; [assumption|].
    change (2 ^ 32) with 4294967296. lia. }
  assert (Hka : 1 <= k0 * (a0 + 1) <= 2970) by nia.
  assert (Hdw : 0 <= d0 * (wd + h_merkle) <= 476499) by nia.
  set (factor := 1 + k0 * (a0 + 1) + d0 * (wd + h_merkle)).
  assert (Hf : 1 <= factor <= 479470) by (unfold factor; lia).
  assert (Hprod : 1 <= hash_size_of sec_level * factor <= 15343040) by nia.
  rewrite Machine_u32_small; [lia|].
  change (2 ^ 32) with 4294967296. lia.
Qed.

(** X21: the size column of the table.  For security levels up to 256
    [smallest_sig] is the signature size of the first parameter set
    listed; it is not 0, so the division by it is defined; the first line
    shows 100 (per cent) and every line at least 100. *)
Theorem percent_column
    (chk : Z -> Z -> Z -> Z -> Z -> bool) (ov : Z -> Z -> Z -> Z -> Z)
    (fuel : nat) (sec_level num_sig test_sec_level sign_op max_s dr hr ar : Z)
    (first : parameter_set) (rest : queue) :
  0 < sec_level <= 256 ->
  do_search chk ov fuel sec_level num_sig test_sec_level sign_op max_s
    dr hr ar = Some (first :: rest) ->
  let smallest_sig := smallest_sig_of (first :: rest) in
  smallest_sig = sig_size first /\ 0 < smallest_sig /\
  percent_of smallest_sig first = 100 /\
  forall p, In p (first :: rest) -> 100 <= percent_of smallest_sig p.
Proof.
  intros Hs Hrun smallest_sig. unfold do_search in Hrun.
  destruct (enumerate chk sec_level num_sig sign_op dr hr ar fuel)
    as [qs|] eqn:Henum; [|discriminate].
  apply some_eq in Hrun.
  pose proof (select_smallest_first ov test_sec_level max_s qs) as Hsorted.
  rewrite Hrun in Hsorted.
  assert (Hrange : forall p, In p (first :: rest) ->
                     0 < sig_size p < 20000000).
  { intros p Hp. rewrite <- Hrun in Hp.
    destruct (select_from_queues ov test_sec_level max_s qs)
      as (others & Hperm).
    assert (Hin : In p (all_queued qs)).
    { eapply Permutation_in; [exact Hperm|]. apply in_app_iff. left.
      exact Hp. }
    apply in_all_queued in Hin. destruct Hin as (c & Hc & Hin).
    destruct (enumerate_origin _ _ _ _ _ _ _ _ _ Henum c p Hc Hin)
      as (log_w & wd & h_merkle & d0 & a0 & k0 & Hen & _ & ->).
    destruct Hen as ((Hlw & Hwd) & (Hhm & _) & (Hd & _) & (Ha & _)
                     & (Hk & _)).
    eapply recorded_sig_size_range; eassumption. }
  pose proof (Hrange first (or_introl eq_refl)) as Hfirst.
  assert (Hsmall : smallest_sig = sig_size first).
  { apply smallest_sig_sorted; [exact Hsorted|].
    unfold UINT_MAX. change (2 ^ 32) with 4294967296. lia. }
  rewrite Hsmall. split; [reflexivity|]. split; [lia|].
  assert (Hpct : forall p, In p (first :: rest) ->
            percent_of (sig_size first) p = 100 * sig_size p / sig_size first).
  { intros p Hp. unfold percent_of. rewrite Machine_u32_small; [reflexivity|].
    specialize (Hrange p Hp). change (2 ^ 32) with 4294967296. lia. }
  split.
  - rewrite Hpct by (left; reflexivity). apply Z.div_mul. lia.
  - intros p Hp. rewrite (Hpct p Hp).
    apply Z.div_le_lower_bound; [lia|].
    apply StronglySorted_inv in Hsorted. destruct Hsorted as [_ Hall].
    destruct Hp as [<-|Hp]; [lia|].
    rewrite Forall_forall in Hall. specialize (Hall p Hp).
    unfold le_size in Hall. lia.
Qed.

Lemma percent_column_witness :
  let chk := fun _ _ _ _ _ : Z => true in
  let ov := fun _ _ _ _ : Z => 100 in
  let p := recorded 128 2 68 9 7 12 1 in
  smallest_sig_of [p] = sig_size p /\ percent_of (smallest_sig_of [p]) p = 100.
Proof.
  intros chk ov p.
  assert (E : do_search chk ov 32 128 20 112 1000000 0 7 9 12 = Some [p])
    by (vm_compute; reflexivity).
  destruct (percent_column chk ov 32 128 20 112 1000000 0 7 9 12 p []
              ltac:(lia) E) as (H1 & _ & H2 & _).
  split; assumption.
Defined.

(** X22: the column [m] counts the bytes of the three parts of the
    message digest: for a parameter set with a height [h] up to 255 and
    [d >= 1] layers it is the sum of [h - h/d] bits, [h/d] bits and
    [a*k] bits, each rounded up to whole bytes. *)
Theorem m_column (p : parameter_set) :
  0 <= h p <= 255 -> 1 <= d p -> 0 <= a p <= 255 -> 0 <= k p <= 255 ->
  let h' := h p / d p in
  m_of p = (h p - h' + 7) / 8 + (h' + 7) / 8 + (a p * k p + 7) / 8 /\
  h p + a p * k p <= 8 * m_of p <= h p + a p * k p + 21.
Proof.
  intros Hh Hd Ha Hk h'. unfold m_of, divru.
  rewrite Z.quot_div_nonneg by lia. fold h'.
  assert (Hh' : 0 <= h' <= h p).
  { unfold h'. split; [apply Z.div_pos; lia|].
    apply Z.div_le_upper_bound; nia. }
  assert (Hak : 0 <= a p * k p <= 65025) by nia.
  assert (Hu : forall z, 0 <= z <= 70000 -> Machine.u32 z = z).
  { intros z Hz. apply Machine_u32_small.
    change (2 ^ 32) with 4294967296. lia. }
  rewrite (Hu (h p - h')), (Hu h'), (Hu (a p * k p)) by lia.
  replace (h p - h' + 8 - 1) with (h p - h' + 7) by lia.
  replace (h' + 8 - 1) with (h' + 7) by lia.
  replace (a p * k p + 8 - 1) with (a p * k p + 7) by lia.
  rewrite (Hu (h p - h' + 7)), (Hu (h' + 7)), (Hu (a p * k p + 7)) by lia.
  pose proof (Z.div_mod (h p - h' + 7) 8 ltac:(lia)).
  pose proof (Z.mod_pos_bound (h p - h' + 7) 8 ltac:(lia)).
  pose proof (Z.div_mod (h' + 7) 8 ltac:(lia)).
  pose proof (Z.mod_pos_bound (h' + 7) 8 ltac:(lia)).
  pose proof (Z.div_mod (a p * k p + 7) 8 ltac:(lia)).
  pose proof (Z.mod_pos_bound (a p * k p + 7) 8 ltac:(lia)).
  rewrite Hu by lia. split; [reflexivity|lia].
Qed.

Lemma m_column_witness :
  let p := recorded 128 4 35 9 7 12 14 in
  (h p, d p, a p, k p) = (63, 7, 12, 14) /\
  m_of p = (63 - 9 + 7) / 8 + (9 + 7) / 8 + (12 * 14 + 7) / 8 /\
  m_of p = 30.
Proof.
  intros p. split; [reflexivity|].
  destruct (m_column p) as [Hm _]; try (vm_compute; split; discriminate);
    [vm_compute; discriminate|].
  split; [exact Hm|reflexivity].
Defined.


Lemma clip_Rmin (y s : R) : (if Rgt_dec y s then s else y) = Rmin y s.
Proof.
  unfold Rmin. destruct (Rgt_dec y s), (Rle_dec y s); try lra; reflexivity.
Qed.

Lemma csv_loop_spec fuel sec_level p n : forall lo rows,
  csv_loop fuel sec_level p (Zrange lo n) = Some rows ->
  (length rows <= n)%nat /\
  (forall i fx y, nth_error rows i = Some (fx, y) ->
     fx = (IZR (lo + Z.of_nat i) / 100)%R /\
     (10 <= y <= IZR sec_level)%R /\
     exists v, Gamma.compute_sec_level fuel fx (h p) (a p) (k p) = Some v /\
               y = Rmin v (IZR sec_level)) /\
  ((length rows < n)%nat ->
   exists v,
     Gamma.compute_sec_level fuel
       (IZR (lo + Z.of_nat (length rows)) / 100)%R (h p) (a p) (k p)
     = Some v /\
     (Rmin v (IZR sec_level) < 10)%R).
Proof.
  induction n as [|n IH]; intros lo rows Hrun.
  - cbn in Hrun. injection Hrun as <-. split; [cbn; lia|].
    split; [intros [|i] fx y Hi; discriminate|cbn; lia].
  - rewrite Zrange_S in Hrun. cbn [csv_loop] in Hrun.
    destruct (Gamma.compute_sec_level fuel (IZR lo / 100) (h p) (a p) (k p))
      as [v|] eqn:Hv; [|discriminate].
    rewrite clip_Rmin in Hrun.
    destruct (Rlt_dec (Rmin v (IZR sec_level)) 10) as [Hlow|Hok].
    + injection Hrun as <-. split; [cbn; lia|].
      split; [intros [|i] fx y Hi; discriminate|].
      intros _. cbn [length Z.of_nat]. rewrite Z.add_0_r.
      exists v. split; assumption.
    + destruct (csv_loop fuel sec_level p (Zrange (lo + 1) n)) as [rows'|]
        eqn:Hrest; [|discriminate].
      injection Hrun as <-.
      destruct (IH (lo + 1)%Z rows' Hrest) as (Hlen & Hrows & Hstop).
      split; [cbn [length]; lia|]. split.
      * intros [|i] fx y Hi.
        -- cbn [nth_error] in Hi. injection Hi as <- <-.
           cbn [Z.of_nat]. rewrite Z.add_0_r. split; [reflexivity|].
           split; [split; [lra|apply Rmin_r]|].
           exists v. split; [exact Hv|reflexivity].
        -- cbn [nth_error] in Hi. destruct (Hrows i fx y Hi) as (Hfx & Hy).
           split; [|exact Hy]. rewrite Hfx. do 2 f_equal. lia.
      * intros Hshort. cbn [length] in *.
        destruct (Hstop ltac:(lia)) as (v' & Hv' & Hlow).
        exists v'. split; [|exact Hlow].
        replace (lo + Z.of_nat (S (length rows')))%Z
          with (lo + 1 + Z.of_nat (length rows'))%Z by lia.
        exact Hv'.
Qed.

End TableFacts.

(** ** search.c: the budget and the height of what is listed *)

(** X24: how far the signing cost of a listed parameter set can exceed
    the budget.  For a budget below [2^23] the cost recorded is
    [3 + cost_hypertree + k * cost_fors_tree] without any rounding, the
    hypertree cost is below the budget and the two costs together do not
    exceed it: the signing cost shown is at most [sign_op + 3]. *)
Theorem listed_sig_time_at_most_3_over
    (chk : Z -> Z -> Z -> Z -> Z -> bool) (ov : Z -> Z -> Z -> Z -> Z)
    (fuel : nat) (sec_level num_sig test_sec_level sign_op max_s dr hr ar : Z)
    (frontier : queue) (p : parameter_set) :
  0 <= sign_op < 2 ^ 23 ->
  do_search chk ov fuel sec_level num_sig test_sec_level sign_op max_s
    dr hr ar = Some frontier ->
  In p frontier ->
  sig_time p <= sign_op + 3 /\
  exists cost_hypertree cost_fors_tree,
    sig_time p = 3 + cost_hypertree + k p * cost_fors_tree /\
    cost_fors_tree = 3 * 2 ^ a p - 1 /\
    cost_hypertree < sign_op /\
    cost_hypertree + k p * cost_fors_tree <= sign_op.
Proof.
  intros Hop Hrun Hp. unfold do_search in Hrun.
  destruct (enumerate chk sec_level num_sig sign_op dr hr ar fuel)
    as [qs|] eqn:Henum; [|discriminate].
  apply some_eq in Hrun. subst frontier.
  destruct (select_from_queues ov test_sec_level max_s qs) as (rest & Hperm).
  assert (Hin : In p (all_queued qs)).
  { eapply Permutation_in; [exact Hperm|]. apply in_app_iff. left. exact Hp. }
  apply in_all_queued in Hin. destruct Hin as (c & Hc & Hin).
  destruct (enumerate_origin _ _ _ _ _ _ _ _ _ Henum c p Hc Hin)
    as (log_w & wd & h_merkle & d0 & a0 & k0 & Hen & _ & ->).
  destruct (recorded_costs_exact _ _ _ _ _ _ _ _ _ _ _ _ _ _ Hop Hen)
    as (_ & Hcf & Htime & Hsum).
  destruct Hen as (_ & _ & (_ & _ & _ & _ & Hch) & (Ha & _) & (Hk & _)).
  rewrite of_Z_small in Hch by lia.
  assert (Ea : a (recorded sec_level log_w wd h_merkle d0 a0 k0) = a0)
    by (apply Z.mod_small; cbn; lia).
  assert (Ek : k (recorded sec_level log_w wd h_merkle d0 a0 k0) = k0)
    by (apply Z.mod_small; cbn; lia).
  rewrite Ea, Ek. split; [lia|].
  eexists. eexists. split; [exact Htime|]. split; [exact Hcf|].
  split; [|exact Hsum].
  destruct (Z.geb_spec
              (cost_hypertree_of (cost_of_ots wd (Z.shiftl 1 log_w))
                 (node_tree_of h_merkle) d0) sign_op);
    [discriminate|assumption].
Qed.

Lemma listed_sig_time_at_most_3_over_witness :
  let chk := fun _ _ _ k _ : Z => 8 <=? k in
  let ov := fun _ _ _ _ : Z => 100 in
  exists frontier p,
    do_search chk ov 32 128 20 112 2112497 0 7 9 12 = Some frontier /\
    In p frontier /\ sig_time p = 2112497 + 3.
Proof.
  intros chk ov.
  destruct (do_search chk ov 32 128 20 112 2112497 0 7 9 12) as [frontier|]
    eqn:E; [|vm_compute in E; discriminate].
  assert (E' := E). vm_compute in E'. apply some_eq in E'.
  set (p := recorded 128 4 35 9 7 12 8).
  assert (Hp : In p frontier).
  { rewrite <- E'. vm_compute. left. reflexivity. }
  exists frontier, p. split; [reflexivity|]. split; [exact Hp|].
  destruct (listed_sig_time_at_most_3_over chk ov 32 128 20 112 2112497 0
              7 9 12 frontier p) as (Hle & _);
    [split; [lia|reflexivity]|exact E|exact Hp|].
  assert (sig_time p = 2112500) by reflexivity. lia.
Defined.

(** X25: the hypertree height of what is listed.  For [num_sig] from 5
    on, every listed parameter set has a hypertree of [d] Merkle trees of
    a height [h_merkle] from 2 to 31 with
    [num_sig - 5 <= h_merkle * d <= sec_level + 30]. *)
Theorem listed_height_bounds
    (chk : Z -> Z -> Z -> Z -> Z -> bool) (ov : Z -> Z -> Z -> Z -> Z)
    (fuel : nat) (sec_level num_sig test_sec_level sign_op max_s dr hr ar : Z)
    (frontier : queue) (p : parameter_set) :
  5 <= num_sig < 2 ^ 32 ->
  do_search chk ov fuel sec_level num_sig test_sec_level sign_op max_s
    dr hr ar = Some frontier ->
  In p frontier ->
  exists h_merkle,
    2 <= h_merkle <= 31 /\ h p = (h_merkle * d p) mod 256 /\
    num_sig - 5 <= h_merkle * d p <= sec_level + 30.
Proof.
  intros Hn Hrun Hp. unfold do_search in Hrun.
  destruct (enumerate chk sec_level num_sig sign_op dr hr ar fuel)
    as [qs|] eqn:Henum; [|discriminate].
  apply some_eq in Hrun. subst frontier.
  destruct (select_from_queues ov test_sec_level max_s qs) as (rest & Hperm).
  assert (Hin : In p (all_queued qs)).
  { eapply Permutation_in; [exact Hperm|]. apply in_app_iff. left. exact Hp. }
  apply in_all_queued in Hin. destruct Hin as (c & Hc & Hin).
  destruct (enumerate_origin _ _ _ _ _ _ _ _ _ Henum c p Hc Hin)
    as (log_w & wd & h_merkle & d0 & a0 & k0 & Hen & _ & ->).
  destruct Hen as (_ & (Hhm & _) & (Hd & Hh & _ & Hshallow & _) & _).
  exists h_merkle.
  assert (Ed : d (recorded sec_level log_w wd h_merkle d0 a0 k0) = d0)
    by (apply Z.mod_small; cbn; lia).
  rewrite Ed. split; [exact Hhm|]. split; [reflexivity|].
  split; [|exact Hh].
  rewrite too_shallow_plain in Hshallow
    by (try assumption; change (2 ^ 32) with 4294967296; nia).
  destruct (Z.ltb_spec (h_merkle * d0) (num_sig - 5)); [discriminate|lia].
Qed.

Lemma listed_height_bounds_witness :
  let chk := fun _ _ _ _ _ : Z => true in
  let ov := fun _ _ _ _ : Z => 100 in
  let p := recorded 128 2 68 9 7 12 1 in
  exists h_merkle, h p = (h_merkle * d p) mod 256 /\
                   20 - 5 <= h_merkle * d p <= 128 + 30.
Proof.
  intros chk ov p.
  assert (E : do_search chk ov 32 128 20 112 1000000 0 7 9 12 = Some [p])
    by (vm_compute; reflexivity).
  destruct (listed_height_bounds chk ov 32 128 20 112 1000000 0 7 9 12 [p] p)
    as (h_merkle & _ & Hh & Hb);
    [split; [lia|reflexivity]|exact E|left; reflexivity|].
  exists h_merkle. split; assumption.
Defined.

(** ** gamma.c: how the answers depend on the target *)

Section TargetFacts.

Import Gamma.
Local Open Scope R_scope.

Lemma tail_bound_met_lower lambda target target' g st :
  target' <= target ->
  tail_bound_met lambda target' g st = true ->
  tail_bound_met lambda target g st = true.
Proof.
  unfold tail_bound_met. intros Hle.
  destruct (Rgt_dec (IZR g) (2 * lambda)); [|discriminate].
  destruct (Rle_dec _ target') as [H'|]; [|discriminate].
  destruct (Rle_dec _ target) as [|Hn]; [reflexivity|lra].
Qed.

Lemma check_loop_rejects_lower lambda log_lambda p1 K fuel :
  forall target target' g st,
    target' <= target ->
    check_loop fuel lambda log_lambda target p1 K g st = Some false ->
    check_loop fuel lambda log_lambda target' p1 K g st = Some false.
Proof.
  induction fuel as [|fuel IH]; intros target target' g st Hle Hrun;
    cbn [check_loop] in *; [discriminate|].
  set (st1 := next_terms log_lambda p1 K g st) in *.
  destruct (Rgt_dec (log_sum st1) target) as [Hgt|Hngt].
  - destruct (Rgt_dec (log_sum st1) target'); [reflexivity|lra].
  - destruct (Rgt_dec (log_sum st1) target'); [reflexivity|].
    destruct (tail_bound_met lambda target g st1) eqn:Htail; [discriminate|].
    destruct (tail_bound_met lambda target' g st1) eqn:Htail'.
    { rewrite (tail_bound_met_lower _ _ _ _ _ Hle Htail') in Htail.
      discriminate. }
    destruct (small_enough g st1); [discriminate|].
    destruct (Machine.u32 (g + 1) =? 0)%Z; [discriminate|].
    apply (IH target); assumption.
Qed.

Lemma check_rejects_unreachable :
  check_sec_level 1 1 2 1 1 112 = Some false.
Proof.
  unfold check_sec_level. cbn [check_loop].
  rewrite (first_term (log2 (lambda_of 1 2)) 1 1) by lia.
  rewrite log2_lambda.
  assert (Hlam : lambda_of 1 2 <= 1).
  { unfold lambda_of. destruct (Rgt_dec 1 2); [lra|].
    apply Rpower_half_le_1. lra. }
  assert (Hpos : 0 < lambda_of 1 2).
  { unfold lambda_of. destruct (Rgt_dec 1 2); apply Rpower_pos. }
  assert (E : log2 (exp (lambda_of 1 2)) = lambda_of 1 2 * log2 (exp 1)).
  { unfold log2. rewrite !ln_exp. pose proof ln2_pos. field. lra. }
  pose proof log2_exp_1 as He.
  assert (0 <= log2 (exp 1)).
  { unfold log2. rewrite ln_exp. pose proof ln2_pos.
    apply Rmult_le_pos; [lra|]. left. apply Rinv_0_lt_compat. lra. }
  rewrite E. cbn [Z.mul Pos.mul].
  destruct (Rgt_dec (1 - 2 - 1) (lambda_of 1 2 * log2 (exp 1) - 112));
    [reflexivity|nra].
Qed.

(** X26: [check_sec_level] is monotone in the target where it rejects: if
    it returns 0 for a security level, it returns 0 for every higher one,
    and in no more iterations. *)
Theorem check_rejection_monotone
    (fuel : nat) (m : R) (H T K : Z) (sec_level sec_level' : R) :
  sec_level <= sec_level' ->
  check_sec_level fuel m H T K sec_level = Some false ->
  check_sec_level fuel m H T K sec_level' = Some false.
Proof.
  unfold check_sec_level. intros Hle Hrun.
  eapply check_loop_rejects_lower; [|exact Hrun]. lra.
Qed.

Lemma check_rejection_monotone_witness :
  check_sec_level 1 1 2 1 1 200 = Some false.
Proof.
  apply (check_rejection_monotone 1 1 2 1 1 112 200); [lra|].
  exact check_rejects_unreachable.
Defined.

End TargetFacts.

(** ** gamma.c: the summation loop in light use *)

Section LightUseFacts.

Import Gamma.
Local Open Scope R_scope.

Lemma series_at_S ll p1 K n :
  series_at ll p1 K (S n)
  = next_terms ll p1 K (Z.of_nat (S n)) (series_at ll p1 K n).
Proof. reflexivity. Qed.

Lemma log_a_S ll p1 K n :
  log_a (series_at ll p1 K (S n))
  = log_a (series_at ll p1 K n) + ll - log2 (IZR (Z.of_nat (S n))).
Proof. reflexivity. Qed.

Lemma prob_S ll p1 K n :
  prob_not_get_g_hit (series_at ll p1 K (S n))
  = prob_not_get_g_hit (series_at ll p1 K n) * p1.
Proof. reflexivity. Qed.


Lemma log_sum_S ll p1 K n :
  log_sum (series_at ll p1 K (S (S n)))
  = do_add (log_sum (series_at ll p1 K (S n))) (term_at ll p1 K (S (S n))).
Proof.
  rewrite (series_at_S ll p1 K (S n)). unfold next_terms at 1.
  cbn [log_sum].
  destruct (Z.eqb_spec (Z.of_nat (S (S n))) 1) as [E|_]; [lia|reflexivity].
Qed.


Lemma prob_nonneg ll p1 K n :
  0 <= p1 -> 0 <= prob_not_get_g_hit (series_at ll p1 K n).
Proof.
  intros Hp. induction n as [|n IH]; [cbn; lra|].
  rewrite prob_S. apply Rmult_le_pos; assumption.
Qed.



Lemma log_b_of_nonpos K q : (0 <= K)%Z -> 0 <= q -> log_b_of K q <= 0.
Proof. apply log_b_nonpos. Qed.

Lemma term_le_log_a ll p1 K n :
  (0 <= K)%Z -> 0 <= p1 ->
  term_at ll p1 K n <= log_a (series_at ll p1 K n).
Proof.
  intros HK Hp. unfold term_at. cbv zeta.
  pose proof (log_b_of_nonpos K _ HK (prob_nonneg ll p1 K n Hp)). lra.
Qed.

Lemma log2_nat_nonneg n : 0 <= log2 (IZR (Z.of_nat (S n))).
Proof.
  rewrite <- log2_1. apply log2_le_mono; [lra|]. apply IZR_le. lia.
Qed.

Lemma log2_2 : log2 2 = 1.
Proof. unfold log2. pose proof ln2_pos. field. lra. Qed.


Lemma log2_nat_ge_1 n : (1 <= n)%nat -> 1 <= log2 (IZR (Z.of_nat (S n))).
Proof.
  intros Hn. rewrite <- log2_2. apply log2_le_mono; [lra|].
  apply IZR_le. lia.
Qed.


(** With at most one expected signature per leaf the terms [a] fall off
    at least like [2^-g]. *)
Lemma log_a_light ll p1 K n :
  ll <= 0 -> log_a (series_at ll p1 K (S n)) <= ll - INR n.
Proof.
  intros Hll. induction n as [|n IH].
  - rewrite log_a_S. cbn [series_at series_start log_a INR].
    pose proof (log2_nat_nonneg 0). lra.
  - rewrite log_a_S, (S_INR n).
    pose proof (log2_nat_ge_1 (S n) ltac:(lia)). lra.
Qed.


(** The running sum does not go down. *)
Lemma log_sum_grows ll p1 K n j :
  log_sum (series_at ll p1 K (S n)) <= log_sum (series_at ll p1 K (S n + j)).
Proof.
  induction j as [|j IH]; [rewrite Nat.add_0_r; lra|].
  replace (S n + S j)%nat with (S (S (n + j))) by lia.
  rewrite log_sum_S. eapply Rle_trans; [exact IH|].
  replace (S n + j)%nat with (S (n + j)) by lia. apply do_add_ge_l.
Qed.

Lemma log_sum_grows_le ll p1 K n n' :
  (1 <= n <= n')%nat ->
  log_sum (series_at ll p1 K n) <= log_sum (series_at ll p1 K n').
Proof.
  intros Hn. destruct n as [|n]; [lia|].
  replace n' with (S n + (n' - S n))%nat by lia. apply log_sum_grows.
Qed.

Lemma first_term_at ll T K :
  (1 <= T)%Z ->
  log_sum (series_at ll (1 - Rpower (1 / 2) (IZR T)) K 1) = ll - IZR (K * T).
Proof. intros HT. apply (first_term ll T K HT). Qed.


Lemma small_enough_spec g st :
  small_enough g st = true <-> (10 <= g)%Z /\ log_sum st > 20 + log_a st.
Proof.
  unfold small_enough. destruct (Z.leb_spec 10 g) as [Hg|Hg]; cbn [andb].
  - destruct (Rgt_dec (log_sum st) (20 + log_a st)) as [Hs|Hs].
    + split; [intros _; split; assumption|reflexivity].
    + split; [discriminate|intros [_ Hs']; contradiction].
  - split; [discriminate|intros [Hg' _]; lia].
Qed.

(** The loop reaches its exit test with a margin of one bit after
    [K*T + 22] iterations at the latest. *)
Lemma exit_test_light ll T K N :
  (1 <= T)%Z -> (0 <= K)%Z -> ll <= 0 -> Z.of_nat N = (K * T + 22)%Z ->
  let st := series_at ll (1 - Rpower (1 / 2) (IZR T)) K N in
  (10 <= Z.of_nat N)%Z /\ log_sum st >= 21 + log_a st.
Proof.
  intros HT HK Hll HN st.
  assert (HKT : (0 <= K * T)%Z) by nia.
  split; [lia|].
  destruct N as [|n]; [lia|].
  pose proof (log_a_light ll (1 - Rpower (1 / 2) (IZR T)) K n Hll) as Ha.
  pose proof (log_sum_grows_le ll (1 - Rpower (1 / 2) (IZR T)) K 1 (S n)
                ltac:(lia)) as Hs.
  rewrite (first_term_at ll T K HT) in Hs.
  assert (Hn : INR n = IZR (K * T) + 21).
  { rewrite INR_IZR_INZ. replace (Z.of_nat n) with (K * T + 21)%Z by lia.
    rewrite plus_IZR. reflexivity. }
  unfold st. lra.
Qed.

(** The loop ends at the first iterate that passes the exit test. *)
Lemma series_loop_exits ll p1 K N :
  small_enough (Z.of_nat N) (series_at ll p1 K N) = true ->
  (Z.of_nat N < 2 ^ 32)%Z ->
  forall gap j fuel,
    (S j + gap = N)%nat -> (gap < fuel)%nat ->
    exists n,
      (S j <= n <= N)%nat /\
      small_enough (Z.of_nat n) (series_at ll p1 K n) = true /\
      series_loop fuel ll p1 K (Z.of_nat (S j)) (series_at ll p1 K j)
      = Some (series_at ll p1 K n).
Proof.
  intros Hexit HN. induction gap as [|gap IH]; intros j fuel Hj Hfuel;
    (destruct fuel as [|fuel]; [lia|]); cbn [series_loop];
    rewrite <- series_at_S.
  - replace (S j) with N by lia. rewrite Hexit.
    exists N. split; [lia|]. split; [exact Hexit|reflexivity].
  - destruct (small_enough (Z.of_nat (S j)) (series_at ll p1 K (S j)))
      eqn:Hs.
    + exists (S j). split; [lia|]. split; [exact Hs|reflexivity].
    + rewrite Machine_u32_small by lia.
      destruct (Z.eqb_spec (Z.of_nat (S j) + 1) 0) as [E|_]; [lia|].
      replace (Z.of_nat (S j) + 1)%Z with (Z.of_nat (S (S j))) by lia.
      destruct (IH (S j) fuel ltac:(lia) ltac:(lia)) as (n & Hn & Hsn & Hrun).
      exists n. split; [lia|]. split; assumption.
Qed.

(** In light use [compute_sec_level] returns: its loop ends within
    [K*T + 22] iterations, in a state that is one of the iterates and passes
    the exit test. *)
Lemma compute_sec_level_run fuel m H T K :
  (1 <= T)%Z -> (0 <= K)%Z -> (K * T + 22 < 2 ^ 32)%Z -> m <= IZR H ->
  (Z.to_nat (K * T + 22) <= fuel)%nat ->
  let p1 := 1 - Rpower (1 / 2) (IZR T) in
  exists n,
    (1 <= n <= Z.to_nat (K * T + 22))%nat /\
    small_enough (Z.of_nat n) (series_at (m - IZR H) p1 K n) = true /\
    compute_sec_level fuel m H T K
    = Some (lambda_of m H * log2 (exp 1)
            - log_sum (series_at (m - IZR H) p1 K n)).
Proof.
  intros HT HK Hbig Hm Hfuel p1.
  assert (HKT : (0 <= K * T)%Z) by nia.
  set (N := Z.to_nat (K * T + 22)).
  assert (HN : Z.of_nat N = (K * T + 22)%Z) by (unfold N; lia).
  destruct (exit_test_light (m - IZR H) T K N HT HK ltac:(lra) HN)
    as (H10 & Hmargin).
  assert (Hexit : small_enough (Z.of_nat N) (series_at (m - IZR H) p1 K N)
                  = true).
  { apply small_enough_spec. split; [exact H10|]. unfold p1. lra. }
  destruct (series_loop_exits (m - IZR H) p1 K N Hexit ltac:(lia)
              (N - 1) 0 fuel ltac:(lia) ltac:(lia))
    as (n & Hn & Hsn & Hrun).
  exists n. split; [lia|]. split; [exact Hsn|].
  unfold compute_sec_level. rewrite log2_lambda. fold p1.
  change (Z.of_nat 1) with 1%Z in Hrun.
  change (series_at (m - IZR H) p1 K 0) with series_start in Hrun.
  rewrite Hrun. reflexivity.
Qed.

End LightUseFacts.

Section LightUseBounds.

Import Gamma.
Local Open Scope R_scope.

Lemma Rpower_2_minus_nat x n :
  Rpower 2 (x - INR n) = Rpower 2 x * (1 / 2) ^ n.
Proof.
  induction n as [|n IH].
  - cbn [INR pow]. rewrite Rminus_0_r. ring.
  - rewrite S_INR. replace (x - (INR n + 1)) with (x - INR n + - 1) by ring.
    rewrite Rpower_plus, IH.
    replace (Rpower 2 (- 1)) with (1 / 2).
    + cbn [pow]. ring.
    + unfold Rpower. replace (- 1 * ln 2) with (ln (1 / 2))
        by (rewrite ln_half; ring).
      rewrite exp_ln; lra.
Qed.

Lemma log2_Rpower_le x y : Rpower 2 x <= Rpower 2 y -> x <= y.
Proof.
  intros Hle. apply (log2_le_mono _ _ (Rpower_pos 2 x)) in Hle.
  rewrite !log2_Rpower_2 in Hle. exact Hle.
Qed.

Lemma log2_one_plus x : 0 <= x -> log2 (1 + x) <= 2 * x.
Proof.
  intros Hx. unfold log2. pose proof ln2_pos as Hpos. pose proof ln_lt_2 as H2.
  assert (Hln : ln (1 + x) <= x).
  { pose proof (exp_ineq1_le x) as He.
    assert (Hpos1 : 0 < 1 + x) by lra.
    apply (ln_le_mono _ _ Hpos1) in He. rewrite ln_exp in He. exact He. }
  assert (Hln0 : 0 <= ln (1 + x)).
  { rewrite <- ln_1. apply ln_le_mono; lra. }
  apply Rmult_le_reg_r with (ln 2); [exact Hpos|].
  unfold Rdiv. rewrite Rmult_assoc, Rinv_l by lra. nra.
Qed.

Lemma log_a_second ll p1 K n :
  ll <= 0 -> log_a (series_at ll p1 K (S (S n))) <= 2 * ll - INR (S n).
Proof.
  intros Hll. induction n as [|n IH].
  - rewrite log_a_S. pose proof (log_a_light ll p1 K 0 Hll) as H1.
    cbn [INR] in *. change (Z.of_nat 2) with 2%Z. rewrite log2_2. lra.
  - rewrite log_a_S, (S_INR (S n)).
    pose proof (log2_nat_ge_1 (S (S n)) ltac:(lia)). lra.
Qed.

(** The running sum is the first term and, at most, the powers
    [lambda^g / 2^(g-1)] from [g = 2] on. *)
Lemma light_sum_pow ll T K n :
  (1 <= T)%Z -> (0 <= K)%Z -> ll <= 0 ->
  Rpower 2 (log_sum (series_at ll (1 - Rpower (1 / 2) (IZR T)) K (S n)))
  <= Rpower 2 (ll - IZR (K * T)) + Rpower 2 (2 * ll) * (1 - (1 / 2) ^ n).
Proof.
  intros HT HK Hll. set (p1 := 1 - Rpower (1 / 2) (IZR T)).
  assert (Hp1 : 0 <= p1) by (apply single_hit_nonneg; lia).
  induction n as [|n IH].
  - unfold p1. rewrite (first_term_at ll T K HT). cbn [pow]. lra.
  - rewrite log_sum_S.
    eapply Rle_trans; [apply do_add_le_pow|].
    pose proof (term_le_log_a ll p1 K (S (S n)) HK Hp1) as Ht.
    pose proof (log_a_second ll p1 K n Hll) as Ha.
    assert (Hpow : Rpower 2 (term_at ll p1 K (S (S n)))
                   <= Rpower 2 (2 * ll) * (1 / 2) ^ S n).
    { rewrite <- Rpower_2_minus_nat. apply Rpower_2_le. lra. }
    cbn [pow] in *. fold p1 in IH. lra.
Qed.

Lemma half_pow_range n : 0 < (1 / 2) ^ n <= 1.
Proof.
  induction n as [|n IH]; cbn [pow]; lra.
Qed.

(** The running sum lies between the first term, [log_lambda - K*T], and
    that term with the powers from [lambda^2] on. *)
Lemma light_sum_bounds ll T K n :
  (1 <= T)%Z -> (0 <= K)%Z -> ll <= 0 -> (1 <= n)%nat ->
  let s := log_sum (series_at ll (1 - Rpower (1 / 2) (IZR T)) K n) in
  ll - IZR (K * T) <= s <= ll - IZR (K * T) + 2 * Rpower 2 (ll + IZR (K * T)).
Proof.
  intros HT HK Hll Hn s. split.
  - unfold s. rewrite <- (first_term_at ll T K HT).
    apply log_sum_grows_le. lia.
  - destruct n as [|n]; [lia|].
    pose proof (light_sum_pow ll T K n HT HK Hll) as Hpow. fold s in Hpow.
    pose proof (half_pow_range n) as Hh.
    pose proof (Rpower_pos 2 (2 * ll)) as Hb.
    pose proof (Rpower_pos 2 (ll - IZR (K * T))) as Ha.
    assert (Hsum : Rpower 2 s
                   <= Rpower 2 (ll - IZR (K * T))
                      * (1 + Rpower 2 (ll + IZR (K * T)))).
    { rewrite Rmult_plus_distr_l, Rmult_1_r, <- Rpower_plus.
      replace (ll - IZR (K * T) + (ll + IZR (K * T))) with (2 * ll) by ring.
      nra. }
    pose proof (Rpower_pos 2 (ll + IZR (K * T))) as Hx.
    apply (log2_le_mono _ _ (Rpower_pos 2 s)) in Hsum.
    rewrite <- log2_mult, !log2_Rpower_2 in Hsum by lra.
    pose proof (log2_one_plus (Rpower 2 (ll + IZR (K * T))) ltac:(lra)).
    lra.
Qed.

(** With at most half an expected signature per leaf and [K*T >= 1] the
    running sum stays at or below [log_lambda]. *)
Lemma light_sum_le_lambda ll T K n :
  (1 <= T)%Z -> (1 <= K)%Z -> ll <= -1 -> (1 <= n)%nat ->
  log_sum (series_at ll (1 - Rpower (1 / 2) (IZR T)) K n) <= ll.
Proof.
  intros HT HK Hll Hn. destruct n as [|n]; [lia|].
  pose proof (light_sum_pow ll T K n HT ltac:(lia) ltac:(lra)) as Hpow.
  pose proof (half_pow_range n) as Hh.
  pose proof (Rpower_pos 2 (2 * ll)) as Hb.
  assert (HKT : 1 <= IZR (K * T)) by (apply IZR_le; nia).
  assert (H1 : Rpower 2 (ll - IZR (K * T)) <= Rpower 2 ll * (1 / 2)).
  { replace (1 / 2) with ((1 / 2) ^ 1) by (cbn; lra).
    rewrite <- (Rpower_2_minus_nat ll 1). apply Rpower_2_le. cbn [INR]. lra. }
  assert (H2 : Rpower 2 (2 * ll) <= Rpower 2 ll * (1 / 2)).
  { replace (1 / 2) with ((1 / 2) ^ 1) by (cbn; lra).
    rewrite <- (Rpower_2_minus_nat ll 1). apply Rpower_2_le. cbn [INR]. lra. }
  apply log2_Rpower_le. nra.
Qed.

Lemma lambda_of_light m H :
  m <= IZR H -> lambda_of m H = Rpower 2 (m - IZR H).
Proof.
  intros Hm. unfold lambda_of. destruct (Rgt_dec m (IZR H)); [lra|].
  unfold Rpower. rewrite ln_half. f_equal. ring.
Qed.

Lemma log2_exp_1_range : 1 <= log2 (exp 1) <= 2.
Proof.
  split; [|apply log2_exp_1].
  unfold log2. rewrite ln_exp. pose proof ln2_pos as Hpos.
  assert (Hle : ln 2 <= 1).
  { rewrite <- (ln_exp 1). apply ln_le_mono; [lra|].
    pose proof (exp_ineq1_le 1). lra. }
  apply Rmult_le_reg_r with (ln 2); [exact Hpos|].
  unfold Rdiv. rewrite Rmult_assoc, Rinv_l by lra. lra.
Qed.

(** The expected number of signatures per leaf times [log2(e)], in light
    use. *)
Lemma lambda_term_range m H :
  m <= IZR H ->
  0 < lambda_of m H * log2 (exp 1) <= 2 * Rpower 2 (m - IZR H).
Proof.
  intros Hm. rewrite (lambda_of_light m H Hm).
  pose proof (Rpower_pos 2 (m - IZR H)). pose proof log2_exp_1_range. nra.
Qed.

(** The estimate in light use: [compute_sec_level] returns, and its value
    is [H - m + K*T] up to the terms in [lambda]. *)
Lemma compute_sec_level_light fuel m H T K :
  (1 <= T)%Z -> (0 <= K)%Z -> (K * T + 22 < 2 ^ 32)%Z -> m <= IZR H ->
  (Z.to_nat (K * T + 22) <= fuel)%nat ->
  exists v,
    compute_sec_level fuel m H T K = Some v /\
    IZR H - m + IZR (K * T) - 2 * Rpower 2 (m - IZR H + IZR (K * T)) < v /\
    v <= IZR H - m + IZR (K * T) + 2 * Rpower 2 (m - IZR H) /\
    ((1 <= K)%Z -> m <= IZR H - 1 -> IZR H - m < v).
Proof.
  intros HT HK Hbig Hm Hfuel.
  destruct (compute_sec_level_run fuel m H T K HT HK Hbig Hm Hfuel)
    as (n & Hn & _ & Hrun).
  eexists. split; [exact Hrun|].
  pose proof (light_sum_bounds (m - IZR H) T K n HT HK ltac:(lra) ltac:(lia))
    as Hs. cbv zeta in Hs.
  pose proof (lambda_term_range m H Hm) as Hl.
  split; [lra|]. split; [lra|].
  intros HK1 Hm1.
  pose proof (light_sum_le_lambda (m - IZR H) T K n HT HK1 ltac:(lra)
                ltac:(lia)).
  lra.
Qed.

End LightUseBounds.

Section LightUseSteps.

Import Gamma.
Local Open Scope R_scope.

Lemma kappa_range : 1 < kappa <= 2.
Proof.
  unfold kappa. assert (H64 : 1 <= 2 ^ 64) by (apply pow_R1_Rle; lra).
  assert (0 < / 2 ^ 64) by (apply Rinv_0_lt_compat; lra).
  assert (/ 2 ^ 64 <= 1).
  { rewrite <- Rinv_1. apply Rinv_le_contravar; lra. }
  lra.
Qed.



(** What [do_add] returns is the sum of the two powers, or falls short of
    it by less than one part in [2^64]. *)
Lemma do_add_ge_pow x y :
  Rpower 2 x + Rpower 2 y <= kappa * Rpower 2 (do_add x y).
Proof.
  pose proof (Rpower_pos 2 x) as Ha. pose proof (Rpower_pos 2 y) as Hb.
  rewrite <- (log2_Rpower_2 x) at 2. rewrite <- (log2_Rpower_2 y) at 2.
  set (a := Rpower 2 x) in *. set (b := Rpower 2 y) in *.
  assert (H64 : 1 <= 2 ^ 64) by (apply pow_R1_Rle; lra).
  assert (Hinv : 0 < / 2 ^ 64) by (apply Rinv_0_lt_compat; lra).
  assert (Hcut : forall u l, 0 < l -> u > 2 ^ 64 * l -> u + l <= kappa * u).
  { intros u l Hl Hu. unfold kappa.
    assert (l < u * / 2 ^ 64).
    { apply Rmult_lt_reg_r with (2 ^ 64); [lra|].
      rewrite Rmult_assoc, Rinv_l by lra. lra. }
    lra. }
  assert (Hsum : forall u l, 0 < u -> 0 < l -> u + l <= kappa * (u + l)).
  { intros u l Hu Hl. pose proof kappa_range. nra. }
  destruct (Rle_dec b a) as [Hba|Hab].
  - rewrite (do_add_ordered a b Hb Hba).
    destruct (Rgt_dec a (2 ^ 64 * b)) as [Hfar|_];
      rewrite Rpower_2_log2 by lra; auto.
  - rewrite do_add_comm, (do_add_ordered b a Ha ltac:(lra)).
    destruct (Rgt_dec b (2 ^ 64 * a)) as [Hfar|_];
      rewrite Rpower_2_log2 by lra.
    + rewrite Rplus_comm. auto.
    + rewrite (Rplus_comm b a). auto.
Qed.

Lemma Rpower_2_ge_1 x : 0 <= x -> 1 <= Rpower 2 x.
Proof.
  intros Hx. rewrite <- (Rpower_O 2) by lra. apply Rpower_2_le. exact Hx.
Qed.







End LightUseSteps.

Section LightUseMonotone.

Import Gamma.
Local Open Scope R_scope.




Lemma log2_exp x : log2 (exp x) = x * log2 (exp 1).
Proof. unfold log2. rewrite !ln_exp. pose proof ln2_pos. field. lra. Qed.




End LightUseMonotone.

(** ** gamma.c: [compute_sigs_at_sec_level] in light use *)

Section LightUseScan.

Import Gamma.
Local Open Scope R_scope.

(** The first scan stops at [M] at the latest when the estimate at
    [M + 1] is below the target and the estimates up to there exist. *)
Lemma scan_lower_stops fuel sec_level H T K M : forall n lower0,
  (lower0 <= M)%Z -> (Z.to_nat (M - lower0) < n)%nat ->
  (forall j, (lower0 <= j <= M)%Z ->
     exists v, compute_sec_level fuel (IZR (j + 1)) H T K = Some v) ->
  (exists v, compute_sec_level fuel (IZR (M + 1)) H T K = Some v /\
             v < sec_level) ->
  exists lower,
    (lower0 <= lower <= M)%Z /\
    scan_lower fuel n sec_level H T K lower0 = Some lower.
Proof.
  induction n as [|n IH]; intros lower0 Hle Hn Hall Hend; [lia|].
  cbn [scan_lower].
  destruct (Hall lower0 ltac:(lia)) as (r & Hr). rewrite Hr.
  destruct (Rlt_dec r sec_level) as [Hlt|Hge].
  - exists lower0. split; [lia|reflexivity].
  - assert (Hne : lower0 <> M).
    { intros ->. destruct Hend as (v & Hv & Hlow).
      rewrite Hr in Hv. apply some_eq in Hv. subst v. contradiction. }
    destruct (IH (lower0 + 1)%Z ltac:(lia) ltac:(lia)) as (lower & Hl & Hrun).
    + intros j Hj. apply Hall. lia.
    + exact Hend.
    + exists lower. split; [lia|exact Hrun].
Qed.

Lemma scan_fract_returns fuel sec_level H T K lower fracts :
  (forall f, In f fracts ->
     exists v, compute_sec_level fuel (probe lower f) H T K = Some v) ->
  exists fract, scan_fract fuel sec_level H T K lower fracts = Some fract.
Proof.
  induction fracts as [|f fracts IH]; intros Hall; cbn [scan_fract].
  - eexists. reflexivity.
  - destruct (Hall f ltac:(left; reflexivity)) as (r & ->).
    destruct (Rlt_dec r sec_level); [eexists; reflexivity|].
    apply IH. intros f' Hf'. apply Hall. right. exact Hf'.
Qed.

(** For a target that the estimate misses at [m = H - 2], both scans end,
    and the first one ends at [H - 3] at the latest. *)
Lemma compute_sigs_returns fuel sec_level H T K :
  (1 <= T)%Z -> (0 <= K)%Z -> (K * T + 22 < 2 ^ 32)%Z -> (3 <= H)%Z ->
  (Z.to_nat (K * T + 22) <= fuel)%nat -> (Z.to_nat H <= fuel)%nat ->
  (exists v, compute_sec_level fuel (IZR (H - 2)) H T K = Some v /\
             v < sec_level) ->
  exists lower fract,
    (0 <= lower <= H - 3)%Z /\
    scan_lower fuel fuel sec_level H T K 0 = Some lower /\
    scan_fract fuel sec_level H T K lower (Zrange 0 100) = Some fract /\
    compute_sigs_at_sec_level fuel sec_level H T K
    = Some (100 * lower + fract)%Z.
Proof.
  intros HT HK Hbig HH Hfuel HfuelH Hreach.
  destruct (scan_lower_stops fuel sec_level H T K (H - 3) fuel 0)
    as (lower & Hl & Hlower); [lia|lia| | |].
  { intros j Hj.
    destruct (compute_sec_level_run fuel (IZR (j + 1)) H T K HT HK Hbig)
      as (n & _ & _ & Hrun); [apply IZR_le; lia|exact Hfuel|].
    eexists. exact Hrun. }
  { replace (H - 3 + 1)%Z with (H - 2)%Z by lia. exact Hreach. }
  destruct (scan_fract_returns fuel sec_level H T K lower (Zrange 0 100))
    as (fract & Hfract).
  { intros f Hf. apply Zrange_In in Hf.
    destruct (compute_sec_level_run fuel (probe lower f) H T K HT HK Hbig)
      as (n & _ & _ & Hrun); [|exact Hfuel|eexists; exact Hrun].
    unfold probe.
    assert (IZR lower <= IZR H - 3).
    { rewrite <- minus_IZR. apply IZR_le. lia. }
    assert (IZR f <= 99) by (apply IZR_le; lia).
    lra. }
  exists lower, fract. split; [exact Hl|]. split; [exact Hlower|].
  split; [exact Hfract|].
  unfold compute_sigs_at_sec_level. rewrite Hlower, Hfract. reflexivity.
Qed.

(** A lower target is lost later. *)
Lemma compute_sigs_ordered fuel sec_level sec_level' H T K r r' :
  sec_level' <= sec_level ->
  compute_sigs_at_sec_level fuel sec_level H T K = Some r ->
  compute_sigs_at_sec_level fuel sec_level' H T K = Some r' ->
  (r <= r')%Z.
Proof.
  unfold compute_sigs_at_sec_level. intros Hle Hr Hr'.
  destruct (scan_lower fuel fuel sec_level H T K 0) as [lower|] eqn:Hl;
    [|discriminate].
  destruct (scan_fract fuel sec_level H T K lower (Zrange 0 100))
    as [fract|] eqn:Hf; [|discriminate].
  destruct (scan_lower fuel fuel sec_level' H T K 0) as [lower'|] eqn:Hl';
    [|discriminate].
  destruct (scan_fract fuel sec_level' H T K lower' (Zrange 0 100))
    as [fract'|] eqn:Hf'; [|discriminate].
  apply some_eq in Hr. apply some_eq in Hr'. subst r r'.
  destruct (scan_lower_spec _ _ _ _ _ _ _ _ Hl) as (Hl0 & _ & Hbefore).
  destruct (scan_lower_spec _ _ _ _ _ _ _ _ Hl') as (Hl0' & Hat' & _).
  destruct (scan_fract_spec fuel sec_level H T K lower 100 0 fract
              ltac:(reflexivity) Hf) as (Hfr & _ & Hfbefore).
  destruct (scan_fract_spec fuel sec_level' H T K lower' 100 0 fract'
              ltac:(reflexivity) Hf') as (Hfr' & Hfat' & _).
  assert (Hll : (lower <= lower')%Z).
  { destruct (Z.le_gt_cases lower lower') as [|Hlt]; [assumption|exfalso].
    assert (Hrange : (0 <= lower' < lower)%Z) by lia.
    destruct (Hbefore lower' Hrange) as (v & Hv & Hnot).
    destruct Hat' as (v' & Hv' & Hlow).
    rewrite Hv in Hv'. injection Hv' as <-. lra. }
  destruct (Z.eq_dec lower lower') as [<-|Hne]; [|lia].
  assert (fract <= fract')%Z; [|lia].
  destruct (Z.le_gt_cases fract fract') as [|Hlt]; [assumption|exfalso].
  assert (Hrange : (0 <= fract' < fract)%Z) by lia.
  destruct (Hfbefore fract' Hrange) as (v & Hv & Hnot).
  assert (Hbelow : (fract' < 100)%Z) by lia.
  destruct (Hfat' Hbelow) as (v' & Hv' & Hlow).
  rewrite Hv in Hv'. injection Hv' as <-. lra.
Qed.


End LightUseScan.

(** ** gamma.c: a hypertree of height 20 with one FORS tree of height 1 *)

Section ScanExample.

Import Gamma.
Local Open Scope R_scope.

Lemma Rpower_2_minus_15 x : x <= - 15 -> Rpower 2 x <= 1 / 32768.
Proof.
  intros Hx. apply Rle_trans with (Rpower 2 (0 - INR 15)).
  - apply Rpower_2_le.
    replace (INR 15) with 15
      by (rewrite INR_IZR_INZ; reflexivity).
    lra.
  - rewrite Rpower_2_minus_nat, Rpower_O by lra. cbn [pow]. lra.
Qed.

(** Up to [2^4] signatures the estimate is [21 - m] to within a
    ten-thousandth of a bit. *)
Lemma estimate_example m :
  m <= 4 ->
  exists v, compute_sec_level 23 m 20 1 1 = Some v /\
            21 - m - 1 / 10000 < v <= 21 - m + 1 / 10000.
Proof.
  intros Hm.
  destruct (compute_sec_level_light 23 m 20 1 1) as (v & Hv & Hlo & Hup & _);
    [lia|lia|reflexivity|lra|cbn; lia|].
  exists v. split; [exact Hv|].
  change (IZR (1 * 1)) with 1 in *.
  pose proof (Rpower_2_minus_15 (m - 20 + 1) ltac:(lra)).
  pose proof (Rpower_2_minus_15 (m - 20) ltac:(lra)).
  lra.
Qed.

Lemma scan_fract_all fuel sec_level H T K lower fracts :
  (forall f, In f fracts ->
     exists v, compute_sec_level fuel (probe lower f) H T K = Some v /\
               ~ v < sec_level) ->
  scan_fract fuel sec_level H T K lower fracts = Some 100%Z.
Proof.
  induction fracts as [|f fracts IH]; intros Hall; cbn [scan_fract];
    [reflexivity|].
  destruct (Hall f ltac:(left; reflexivity)) as (r & -> & Hnot).
  destruct (Rlt_dec r sec_level); [contradiction|].
  apply IH. intros f' Hf'. apply Hall. right. exact Hf'.
Qed.

(** The target [21 - n + 0.003] is lost between [n - 0.005] and [n]
    signatures (as powers of 2): the scan returns [100*n]. *)
Lemma compute_sigs_example n :
  (1 <= n <= 4)%Z ->
  compute_sigs_at_sec_level 23 (21 - IZR n + 3 / 1000) 20 1 1
  = Some (100 * n)%Z.
Proof.
  intros Hn. set (sec_level := 21 - IZR n + 3 / 1000).
  assert (Hn' : 1 <= IZR n <= 4) by (split; apply IZR_le; lia).
  assert (Hlower : scan_lower 23 23 sec_level 20 1 1 0 = Some (n - 1)%Z).
  { destruct (scan_lower_stops 23 sec_level 20 1 1 (n - 1) 23 0)
      as (lower & Hl & Hrun); [lia|lia| | |].
    - intros j Hj.
      destruct (estimate_example (IZR (j + 1))) as (v & Hv & _);
        [apply IZR_le; lia|]. exists v. exact Hv.
    - replace (n - 1 + 1)%Z with n by lia.
      destruct (estimate_example (IZR n)) as (v & Hv & Hb); [lra|].
      exists v. split; [exact Hv|]. unfold sec_level. lra.
    - destruct (Z.eq_dec lower (n - 1)) as [->|Hne]; [exact Hrun|exfalso].
      destruct (scan_lower_spec _ _ _ _ _ _ _ _ Hrun) as (_ & (v & Hv & Hlt) & _).
      destruct (estimate_example (IZR (lower + 1))) as (v' & Hv' & Hb);
        [apply IZR_le; lia|].
      rewrite Hv in Hv'. apply some_eq in Hv'. subst v'.
      assert (IZR (lower + 1) <= IZR n - 1).
      { rewrite <- minus_IZR. apply IZR_le. lia. }
      unfold sec_level in Hlt. lra. }
  assert (Hfract : scan_fract 23 sec_level 20 1 1 (n - 1) (Zrange 0 100)
                   = Some 100%Z).
  { apply scan_fract_all. intros f Hf. apply Zrange_In in Hf.
    assert (Hf' : 0 <= IZR f <= 99) by (split; apply IZR_le; lia).
    assert (Hp : probe (n - 1) f <= IZR n - 5 / 1000).
    { unfold probe. rewrite minus_IZR. lra. }
    destruct (estimate_example (probe (n - 1) f)) as (v & Hv & Hb); [lra|].
    exists v. split; [exact Hv|]. unfold sec_level. lra. }
  unfold compute_sigs_at_sec_level. rewrite Hlower, Hfract.
  f_equal. lia.
Qed.

(** The estimate at [m = H - 2 = 18] is below every target of 4 bits or
    more. *)
Lemma estimate_example_reach sec_level :
  4 <= sec_level ->
  exists v, compute_sec_level 23 (IZR (20 - 2)) 20 1 1 = Some v /\
            v < sec_level.
Proof.
  intros Hs.
  destruct (compute_sec_level_light 23 (IZR (20 - 2)) 20 1 1)
    as (v & Hv & _ & Hup & _);
    [lia|lia|reflexivity|cbn; lra|cbn; lia|].
  exists v. split; [exact Hv|].
  change (IZR (1 * 1)) with 1 in *. change (IZR (20 - 2)) with 18 in *.
  assert (Rpower 2 (18 - 20) <= 1 / 4).
  { apply Rle_trans with (Rpower 2 (0 - INR 2)).
    - apply Rpower_2_le. cbn [INR]. lra.
    - rewrite Rpower_2_minus_nat, Rpower_O by lra. cbn [pow]. lra. }
  lra.
Qed.

End ScanExample.

(** ** gamma.c: a hypertree of height 8 with two FORS trees of height 1 *)

Section ScanExampleInteger.

Import Gamma.
Local Open Scope R_scope.











End ScanExampleInteger.

Section ScanCounterexample.

Import Gamma.
Local Open Scope R_scope.


End ScanCounterexample.

Section ScanInstances.

Import Gamma.
Local Open Scope R_scope.



(** X27: [compute_sigs_at_sec_level] is monotone in the target.  For
    FORS trees of height 1 to 30, 1 to 100 of them, a hypertree of height
    3 to 1000 and two targets that the estimate misses at [m = H - 2],
    the function returns for both, and the lower target never gives the
    smaller number of signatures. *)
Theorem compute_sigs_monotone
    (fuel : nat) (sec_level sec_level' : R) (H T K : Z) :
  (1 <= T <= 30)%Z -> (1 <= K <= 100)%Z -> (3 <= H <= 1000)%Z ->
  (Z.to_nat (K * T + 22) <= fuel)%nat -> (Z.to_nat H <= fuel)%nat ->
  (exists v, compute_sec_level fuel (IZR (H - 2)) H T K = Some v /\
             v < sec_level') ->
  sec_level' <= sec_level ->
  exists r r',
    compute_sigs_at_sec_level fuel sec_level H T K = Some r /\
    compute_sigs_at_sec_level fuel sec_level' H T K = Some r' /\
    (0 <= r <= r')%Z.
Proof.
  intros HT HK HH Hfuel HfuelH Hreach' Hle.
  assert (Hbig : (K * T + 22 < 2 ^ 32)%Z)
    by (change (2 ^ 32)%Z with 4294967296%Z; nia).
  assert (Hreach : exists v,
            compute_sec_level fuel (IZR (H - 2)) H T K = Some v /\
            v < sec_level).
  { destruct Hreach' as (v & Hv & Hlt). exists v. split; [exact Hv|lra]. }
  destruct (compute_sigs_returns fuel sec_level H T K ltac:(lia) ltac:(lia)
              Hbig ltac:(lia) Hfuel HfuelH Hreach)
    as (lower & fract & Hl & _ & Hf & Hrun).
  destruct (compute_sigs_returns fuel sec_level' H T K ltac:(lia) ltac:(lia)
              Hbig ltac:(lia) Hfuel HfuelH Hreach')
    as (lower' & fract' & _ & _ & _ & Hrun').
  exists (100 * lower + fract)%Z, (100 * lower' + fract')%Z.
  split; [exact Hrun|]. split; [exact Hrun'|]. split.
  - destruct (scan_fract_spec _ _ _ _ _ _ 100 0 _ eq_refl Hf) as (Hf0 & _).
    lia.
  - exact (compute_sigs_ordered fuel sec_level sec_level' H T K _ _ Hle
             Hrun Hrun').
Qed.

Lemma compute_sigs_monotone_witness :
  compute_sigs_at_sec_level 23 (18 + 3 / 1000) 20 1 1 = Some 300%Z /\
  compute_sigs_at_sec_level 23 (17 + 3 / 1000) 20 1 1 = Some 400%Z /\
  (300 <= 400)%Z.
Proof.
  destruct (compute_sigs_monotone 23 (18 + 3 / 1000) (17 + 3 / 1000) 20 1 1)
    as (r & r' & Hr & Hr' & Hle).
  - lia.
  - lia.
  - lia.
  - cbn. lia.
  - cbn. lia.
  - apply estimate_example_reach. lra.
  - lra.
  - pose proof (compute_sigs_example 3 ltac:(lia)) as E.
    replace (21 - 3 + 3 / 1000) with (18 + 3 / 1000) in E by lra.
    pose proof (compute_sigs_example 4 ltac:(lia)) as E'.
    replace (21 - 4 + 3 / 1000) with (17 + 3 / 1000) in E' by lra.
    rewrite E in Hr. rewrite E' in Hr'.
    apply some_eq in Hr. apply some_eq in Hr'. subst r r'.
    split; [exact E|]. split; [exact E'|]. lia.
Defined.

(** X20: [compute_sec_level] in light use.  For FORS trees of height 1
    to 30, 1 to 100 of them, a hypertree of height at most 1000 and a
    number of signatures from 1 ([m = 0]) to half the number of hypertree
    leaves ([m = H - 1]), [compute_sec_level] returns, its loop ending
    within [K*T + 22] iterations, and the level it returns is above
    [H - m] and at most [H - m + K*T + 1]. *)
Theorem compute_sec_level_light_use_bounds
    (fuel : nat) (m : R) (H T K : Z) :
  (1 <= T <= 30)%Z -> (1 <= K <= 100)%Z -> (H <= 1000)%Z ->
  0 <= m <= IZR H - 1 ->
  (Z.to_nat (K * T + 22) <= fuel)%nat ->
  exists v,
    compute_sec_level fuel m H T K = Some v /\
    IZR H - m < v <= IZR H - m + IZR (K * T) + 1.
Proof.
  intros HT HK HH Hm Hfuel.
  assert (Hbig : (K * T + 22 < 2 ^ 32)%Z)
    by (change (2 ^ 32)%Z with 4294967296%Z; nia).
  destruct (compute_sec_level_light fuel m H T K ltac:(lia) ltac:(lia) Hbig
              ltac:(lra) Hfuel) as (v & Hv & _ & Hup & Hlow).
  exists v. split; [exact Hv|]. split; [apply Hlow; [lia|lra]|].
  assert (Rpower 2 (m - IZR H) <= 1 / 2).
  { apply Rle_trans with (Rpower 2 (0 - INR 1)).
    - apply Rpower_2_le. cbn [INR]. lra.
    - rewrite Rpower_2_minus_nat, Rpower_O by lra. cbn [pow]. lra. }
  lra.
Qed.

Lemma compute_sec_level_light_use_bounds_witness :
  exists v, compute_sec_level 190 19 63 12 14 = Some v /\ 44 < v <= 213.
Proof.
  destruct (compute_sec_level_light_use_bounds 190 19 63 12 14)
    as (v & Hv & Hb).
  - lia.
  - lia.
  - lia.
  - lra.
  - cbn. lia.
  - exists v. split; [exact Hv|].
    change (IZR (14 * 12)) with 168 in Hb. lra.
Defined.

End ScanInstances.

Section RejectionInstance.

Import Gamma.
Local Open Scope R_scope.

(** An instance close to the estimate: about 18.000003 bits at [2^3]
    signatures, against the target of 18.003 bits. *)
Lemma check_rejection_sound_witness :
  check_sec_level 1 3 20 1 1 (18 + 3 / 1000) = Some false /\
  exists r, compute_sec_level 23 3 20 1 1 = Some r /\
            r < 18 + 3 / 1000 + 1 / 1000.
Proof.
  assert (Hchk : check_sec_level 1 3 20 1 1 (18 + 3 / 1000) = Some false).
  { unfold check_sec_level. cbn [check_loop].
    rewrite (first_term (log2 (lambda_of 3 20)) 1 1) by lia.
    rewrite log2_lambda, log2_exp.
    pose proof (lambda_term_range 3 20 ltac:(lra)) as Hl.
    pose proof (Rpower_2_minus_15 (3 - 20) ltac:(lra)) as Hp.
    change (IZR (1 * 1)) with 1.
    destruct (Rgt_dec (3 - 20 - 1)
                (lambda_of 3 20 * log2 (exp 1) - (18 + 3 / 1000)));
      [reflexivity|lra]. }
  split; [exact Hchk|].
  destruct (estimate_example 3) as (r & Hr & _); [lra|].
  exists r. split; [exact Hr|].
  exact (check_rejection_sound 1 23 3 20 1 1 (18 + 3 / 1000) r Hchk Hr).
Defined.

End RejectionInstance.

(** ** search.c: the overuse curve of a listed parameter set *)

Section CurveFacts.

Local Open Scope Z_scope.

Lemma heavy_overuse_no_value fuel m H T K :
  0 <= T -> 0 <= K -> (IZR H + 33 <= m)%R ->
  Gamma.compute_sec_level fuel m H T K = None.
Proof.
  intros HT HK Hm. unfold Gamma.compute_sec_level.
  rewrite series_loop_heavy_overuse; try reflexivity; try assumption.
  - apply single_hit_nonneg. exact HT.
  - rewrite log2_lambda. lra.
  - lia.
  - cbn. lra.
  - left. reflexivity.
Qed.

Lemma csv_loop_returns fuel sec_level p xs :
  (forall x, In x xs ->
     exists v, Gamma.compute_sec_level fuel (IZR x / 100)%R (h p) (a p) (k p)
               = Some v) ->
  exists rows, csv_loop fuel sec_level p xs = Some rows.
Proof.
  induction xs as [|x xs IH]; intros Hall; cbn [csv_loop].
  - eexists. reflexivity.
  - destruct (Hall x ltac:(left; reflexivity)) as (v & ->).
    destruct (Rlt_dec _ 10); [eexists; reflexivity|].
    destruct IH as (rows & ->); [|eexists; reflexivity].
    intros x' Hx'. apply Hall. right. exact Hx'.
Qed.

(** X23: the overuse curve written for a listed parameter set.  Line [i]
    holds [fx = (100*(num_sig-1) + i) / 100] and the level
    [compute_sec_level(fx, h, a, k)], cut down to [sec_level]; every
    level written is between 10 and [sec_level]; there are at most
    [100*(max_s+11-num_sig)] lines, and fewer only if the next level is
    below 10.  No line at all is written when [num_sig >= max_s + 11],
    which is so with [maxs] left out ([max_s = 0]) and [n] from 11 on.
    When the curve stays in light use, [max_s + 21 <= h], every call of
    [compute_sec_level] returns and every level is above 10, so that all
    the [100*(max_s+11-num_sig)] lines are written.  When the curve
    starts in heavy overuse, [num_sig - 1 >= h + 33] for the height [h]
    that the record holds, the first call of [compute_sec_level] does not
    return, and neither does the loop. *)
Theorem csv_rows_spec
    (fuel : nat) (sec_level num_sig max_s : Z) (p : parameter_set) :
  1 <= num_sig < 2 ^ 24 -> 0 <= max_s < 2 ^ 24 ->
  (max_s + 11 <= num_sig ->
   csv_rows fuel sec_level num_sig max_s p = Some []) /\
  (forall rows, csv_rows fuel sec_level num_sig max_s p = Some rows ->
     Z.of_nat (length rows) <= Z.max 0 (100 * (max_s + 11 - num_sig)) /\
     (forall i fx y, nth_error rows i = Some (fx, y) ->
        fx = (IZR (100 * (num_sig - 1) + Z.of_nat i) / 100)%R /\
        (10 <= y <= IZR sec_level)%R /\
        exists v,
          Gamma.compute_sec_level fuel fx (h p) (a p) (k p) = Some v /\
          y = Rmin v (IZR sec_level)) /\
     (Z.of_nat (length rows) < 100 * (max_s + 11 - num_sig) ->
      exists v,
        Gamma.compute_sec_level fuel
          (IZR (100 * (num_sig - 1) + Z.of_nat (length rows)) / 100)%R
          (h p) (a p) (k p) = Some v /\
        (Rmin v (IZR sec_level) < 10)%R)) /\
  (1 <= a p <= 30 -> 1 <= k p <= 100 -> max_s + 21 <= h p <= 1000 ->
   10 <= sec_level -> (Z.to_nat (k p * a p + 22) <= fuel)%nat ->
   exists rows,
     csv_rows fuel sec_level num_sig max_s p = Some rows /\
     Z.of_nat (length rows) = Z.max 0 (100 * (max_s + 11 - num_sig))) /\
  (0 <= a p -> 0 <= k p -> h p + 33 <= num_sig - 1 ->
   num_sig <= max_s + 10 ->
   csv_rows fuel sec_level num_sig max_s p = None).
Proof.
  intros Hn Hm. unfold csv_rows.
  change (2 ^ 24) with 16777216 in *.
  rewrite !Machine_u32_small by (change (2 ^ 32) with 4294967296; lia).
  split; [|split; [|split]].
  - intros Hfar.
    replace (Z.to_nat (100 * (max_s + 10) - 100 * (num_sig - 1))) with 0%nat
      by lia.
    reflexivity.
  - intros rows Hrun.
    destruct (csv_loop_spec _ _ _ _ _ _ Hrun) as (Hlen & Hrows & Hstop).
    split; [lia|]. split; [exact Hrows|].
    intros Hshort. apply Hstop. lia.
  - intros Ha Hk Hh Hs Hfuel.
    set (n := Z.to_nat (100 * (max_s + 10) - 100 * (num_sig - 1))).
    assert (Hlevel : forall x, 100 * (num_sig - 1) <= x < 100 * (max_s + 10) ->
              exists v,
                Gamma.compute_sec_level fuel (IZR x / 100)%R (h p) (a p) (k p)
                = Some v /\ (11 < v)%R).
    { intros x Hx.
      assert (Hfx : (0 <= IZR x / 100 <= IZR (h p) - 11)%R).
      { assert (H0 : (0 <= IZR x)%R) by (apply IZR_le; lia).
        assert (H1 : (IZR x <= 100 * (IZR (h p) - 11))%R).
        { replace (100 * (IZR (h p) - 11))%R with (IZR (100 * (h p - 11)))
            by (rewrite mult_IZR, minus_IZR; reflexivity).
          apply IZR_le. lia. }
        lra. }
      destruct (compute_sec_level_light fuel (IZR x / 100)%R
                  (h p) (a p) (k p)) as (v & Hv & _ & _ & Hb);
        [lia|lia|change (2 ^ 32) with 4294967296; nia|lra|exact Hfuel|].
      exists v. split; [exact Hv|]. specialize (Hb ltac:(lia) ltac:(lra)).
      lra. }
    destruct (csv_loop_returns fuel sec_level p
                (Zrange (100 * (num_sig - 1)) n)) as (rows & Hrun).
    { intros x Hx. apply Zrange_In in Hx.
      destruct (Hlevel x ltac:(unfold n in Hx; lia)) as (v & Hv & _).
      exists v. exact Hv. }
    exists rows. split; [exact Hrun|].
    destruct (csv_loop_spec _ _ _ _ _ _ Hrun) as (Hlen & _ & Hstop).
    destruct (Nat.eq_dec (length rows) n) as [E|Hne]; [unfold n in E; lia|].
    exfalso. destruct (Hstop ltac:(lia)) as (v & Hv & Hlow).
    destruct (Hlevel (100 * (num_sig - 1) + Z.of_nat (length rows)))
      as (v' & Hv' & Hbig); [unfold n in *; lia|].
    rewrite Hv in Hv'. apply some_eq in Hv'. subst v'.
    assert (Hsec : (10 <= IZR sec_level)%R) by (apply IZR_le; exact Hs).
    unfold Rmin in Hlow. destruct (Rle_dec v (IZR sec_level)); lra.
  - intros Ha Hk Hheavy Hrange.
    destruct (Z.to_nat (100 * (max_s + 10) - 100 * (num_sig - 1)))
      as [|n] eqn:En; [lia|].
    rewrite Zrange_S. cbn [csv_loop].
    rewrite (heavy_overuse_no_value fuel _ (h p) (a p) (k p) Ha Hk);
      [reflexivity|].
    replace (IZR (100 * (num_sig - 1)) / 100)%R with (IZR (num_sig - 1))
      by (rewrite mult_IZR; field).
    rewrite <- plus_IZR. apply IZR_le. lia.
Qed.

(** Two instances: the curve of a set with [h = 63] from [2^19] to
    [2^50] signatures, and the curve of a set with [h' = 10] and [d = 26],
    whose record holds [h = 260 mod 256 = 4], from [2^63] signatures
    on. *)
Lemma csv_rows_spec_witness :
  (exists rows,
     csv_rows 190 128 20 40 (recorded 128 4 35 9 7 12 14) = Some rows /\
     Z.of_nat (length rows) = 3100) /\
  h (recorded 256 4 67 10 26 14 5) = 4 /\
  csv_rows 1000 256 64 60 (recorded 256 4 67 10 26 14 5) = None.
Proof.
  split; [|split; [reflexivity|]].
  - destruct (csv_rows_spec 190 128 20 40 (recorded 128 4 35 9 7 12 14))
      as (_ & _ & Hall & _);
      [split; [lia|reflexivity]|split; [lia|reflexivity]|].
    destruct Hall as (rows & Hrun & Hlen).
    + vm_compute. split; discriminate.
    + vm_compute. split; discriminate.
    + vm_compute. split; discriminate.
    + lia.
    + vm_compute. lia.
    + exists rows. split; [exact Hrun|]. rewrite Hlen. reflexivity.
  - destruct (csv_rows_spec 1000 256 64 60 (recorded 256 4 67 10 26 14 5))
      as (_ & _ & _ & Hnone);
      [split; [lia|reflexivity]|split; [lia|reflexivity]|].
    apply Hnone.
    + vm_compute. discriminate.
    + vm_compute. discriminate.
    + vm_compute. discriminate.
    + lia.
Defined.

End CurveFacts.

(** ** gamma.c: what [do_add] returns *)

Section AddFacts.

Import Gamma.
Local Open Scope R_scope.

Lemma log2_kappa : 0 <= log2 kappa <= 1 / 1000000.
Proof.
  assert (H64 : 0 < / 2 ^ 64) by (apply Rinv_0_lt_compat; apply pow_lt; lra).
  assert (Hsmall : / 2 ^ 64 <= 1 / 2000000).
  { apply Rmult_le_reg_r with (2 ^ 64); [apply pow_lt; lra|].
    rewrite Rinv_l by (apply pow_nonzero; lra). cbn [pow]. lra. }
  unfold kappa. split.
  - rewrite <- log2_1. apply log2_le_mono; lra.
  - pose proof (log2_one_plus (/ 2 ^ 64) ltac:(lra)). lra.
Qed.

(** X18: [do_add] does what its comment says, to within a millionth of a
    bit.  Given [x = log2(a)] and [y = log2(b)] of size up to [10^6] it
    returns [log2(a+b)], or, when one of [a] and [b] is more than [2^64]
    times the other, the larger of [x] and [y], which is less than
    [2^-63] below [log2(a+b)].  The result is never below the larger
    argument, and it does not depend on the order of the arguments. *)
Theorem do_add_log_sum (x y : R) :
  Rabs x <= 1000000 -> Rabs y <= 1000000 ->
  Rabs (do_add x y - log2 (Rpower 2 x + Rpower 2 y)) <= 1 / 1000000 /\
  Rmax x y <= do_add x y /\
  do_add x y = do_add y x.
Proof.
  intros _ _.
  pose proof (Rpower_pos 2 x) as Ha. pose proof (Rpower_pos 2 y) as Hb.
  pose proof (Rpower_pos 2 (do_add x y)) as Hs.
  pose proof kappa_range as Hk. pose proof log2_kappa as Hlk.
  split; [|split].
  - pose proof (do_add_le_pow x y) as Hup.
    pose proof (do_add_ge_pow x y) as Hlow.
    apply (log2_le_mono _ _ Hs) in Hup. rewrite log2_Rpower_2 in Hup.
    assert (Hab : 0 < Rpower 2 x + Rpower 2 y) by lra.
    apply (log2_le_mono _ _ Hab) in Hlow.
    rewrite <- log2_mult, log2_Rpower_2 in Hlow by lra.
    apply Rabs_le. lra.
  - apply Rmax_lub; [apply do_add_ge_l|].
    rewrite do_add_comm. apply do_add_ge_l.
  - apply do_add_comm.
Qed.

Lemma do_add_log_sum_witness :
  Rabs (do_add 3 5 - log2 (Rpower 2 3 + Rpower 2 5)) <= 1 / 1000000 /\
  5 <= do_add 3 5.
Proof.
  destruct (do_add_log_sum 3 5) as (Hsum & Hmax & _).
  - rewrite Rabs_pos_eq; lra.
  - rewrite Rabs_pos_eq; lra.
  - split; [exact Hsum|]. rewrite Rmax_right in Hmax by lra. exact Hmax.
Defined.

End AddFacts.
